(** * asiotap::osi — the frame filter engine of [filter.hpp]

    A shallow embedding of [include/asiotap/osi/filter.hpp] (libasiotap,
    part of freelan): the bounds-checked [frame_cast], the validating
    [frame_parse], the observer registry [_base_filter] and the two
    [filter] specialisations (root and non-root), together with the
    properties the specification states about them.

    Conventions of the embedding:
    - a boost::asio buffer is the byte range it designates, a [list byte];
    - a frame type [OSIFrameType] is a tag of an arbitrary type
      [frame_type]; what the templates take from it ([sizeof], the
      [check_frame] specialisation, the [frame_parent_match]
      specialisations) is the interface [OSIFrameType] below;
    - filter objects live in a store indexed by their address (a [nat]),
      because a child filter registers [boost::bind(&filter::parse, this, _1)]
      in its parent: the parent's registry aliases the child object, whose
      own registry keeps growing after that registration;
    - [void] member functions with effects are computations of the monad
      [M]: they thread the world (filter store and the log of callback
      invocations) and complete by returning, by throwing a C++ exception,
      or not at all. *)

From Stdlib Require Import Strings.Byte Strings.String.
From stdpp Require Import base list.

Local Open Scope list_scope.

(** ** Buffers (boost::asio) *)

(** [boost::asio::const_buffer]: a borrowed, read-only byte range. *)
Record const_buffer := ConstBuffer { const_bytes : list byte }.

(** [boost::asio::mutable_buffer]: a borrowed, writable byte range. *)
Record mutable_buffer := MutableBuffer { mutable_bytes : list byte }.

(** [boost::asio::buffer_size], one overload per buffer flavour. *)
Definition buffer_size (buf : const_buffer) : nat := length (const_bytes buf).
Definition buffer_size_mutable (buf : mutable_buffer) : nat :=
  length (mutable_bytes buf).

(** The implicit conversion [mutable_buffer -> const_buffer]. *)
Definition const_of_mutable_buffer (buf : mutable_buffer) : const_buffer :=
  ConstBuffer (mutable_bytes buf).

(** ** Frame views (helper.hpp) *)

Section Helpers.
Context {frame_type : Type}.

(** Modelled from the spec: [const_helper<OSIFrameType>] is declared in
    helper.hpp, which is not part of the sources at hand. The spec (§3)
    describes it as a typed, zero-copy, read-only window over a buffer;
    it is the frame type tag and the buffer it was built over. *)
Record const_helper := ConstHelper {
  const_helper_type : frame_type;
  const_helper_buffer : const_buffer;
}.

(** Modelled from the spec: [mutable_helper<OSIFrameType>] of helper.hpp,
    the writable flavour of the same window. *)
Record mutable_helper := MutableHelper {
  mutable_helper_type : frame_type;
  mutable_helper_buffer : mutable_buffer;
}.

(** Modelled from the spec: [helper<OSIFrameType>(buf)] of helper.hpp
    builds the view over the whole buffer it is given. *)
Definition helper (T : frame_type) (buf : const_buffer) : const_helper :=
  ConstHelper T buf.
Definition helper_mutable (T : frame_type) (buf : mutable_buffer)
  : mutable_helper :=
  MutableHelper T buf.

(** Modelled from the spec: the converting constructor
    [const_helper<T>(mutable_helper<T>)] of helper.hpp, the read-only view
    "over the same bytes" (spec §4.2). *)
Definition const_of_mutable (frame : mutable_helper) : const_helper :=
  ConstHelper (mutable_helper_type frame)
              (const_of_mutable_buffer (mutable_helper_buffer frame)).
End Helpers.

Arguments const_helper : clear implicits.
Arguments mutable_helper : clear implicits.

(** ** What the engine takes from a frame type

    [sizeof(OSIFrameType)], the specialisation of
    [check_frame(const_helper<OSIFrameType>)] (declared at lines 90-91,
    defined per protocol elsewhere) and the specialisations of
    [frame_parent_match<OSIFrameType, ParentOSIFrameType>] (lines 118-119).
    The parent's frame type is carried by the parent view. *)
Class OSIFrameType (frame_type : Type) := {
  sizeof : frame_type → nat;
  check_frame : const_helper frame_type → bool;
  frame_parent_match : frame_type → const_helper frame_type → bool;
}.

(** ** C++ exceptions and completions *)

(** What a [catch (std::runtime_error&)] handler tells apart: an exception
    object of class [std::runtime_error] (or derived from it), with its
    [what()] message, and any other thrown object. *)
Inductive exception :=
| runtime_error (what : string)
| other_exception (what : string).

(** Why an evaluation of the model does not complete. *)
Inductive stuck_reason :=
| out_of_fuel      (* the recursion bound of the model was reached *)
| dangling_filter. (* a reference to a filter object that does not exist *)

Inductive completion (A : Type) :=
| Returned (a : A)
| Thrown (e : exception)
| Stuck (why : stuck_reason).
Arguments Returned {A} a.
Arguments Thrown {A} e.
Arguments Stuck {A} why.

(** The two errors of [frame_parse] (lines 223, 230, 241, 248). *)
Definition TooSmall : exception := runtime_error "Frame too small".
Definition Malformed : exception := runtime_error "Frame parsing failed".

Section Parser.
Context {frame_type : Type} `{OSIFrameType frame_type}.

(** Modelled from the spec: [frame()] of helper.hpp, the header structure
    the view maps: the leading [sizeof(T)] bytes of its buffer. *)
Definition frame (h : const_helper frame_type) : list byte :=
  take (sizeof (const_helper_type h)) (const_bytes (const_helper_buffer h)).

(** Modelled from the spec: [payload()] of helper.hpp, "the Buffer
    sub-range strictly after the header, which may be empty" (spec §3). *)
Definition payload (h : const_helper frame_type) : const_buffer :=
  ConstBuffer
    (drop (sizeof (const_helper_type h)) (const_bytes (const_helper_buffer h))).

(** [frame_cast] (lines 201-210), read-only flavour. The result is the
    null pointer ([None]) or a pointer to the mapped [OSIFrameType], the
    structure occupying the first [sizeof(OSIFrameType)] bytes. *)
Definition frame_cast (T : frame_type) (buf : const_buffer)
  : option (list byte) :=
  if buffer_size buf <? sizeof T then None
  else Some (take (sizeof T) (const_bytes buf)).

(** [frame_cast] (lines 190-199), mutable flavour. *)
Definition frame_cast_mutable (T : frame_type) (buf : mutable_buffer)
  : option (list byte) :=
  if buffer_size_mutable buf <? sizeof T then None
  else Some (take (sizeof T) (mutable_bytes buf)).

(** [check_frame(mutable_helper<T>)] (lines 212-216). *)
Definition check_frame_mutable (frame : mutable_helper frame_type) : bool :=
  check_frame (const_of_mutable frame).

(** [frame_parse] (lines 236-252), read-only flavour. *)
Definition frame_parse (T : frame_type) (buf : const_buffer)
  : completion (const_helper frame_type) :=
  match frame_cast T buf with
  | None => Thrown TooSmall
  | Some _ =>
      let result := helper T buf in
      if negb (check_frame result) then Thrown Malformed
      else Returned result
  end.

(** [frame_parse] (lines 218-234), mutable flavour. *)
Definition frame_parse_mutable (T : frame_type) (buf : mutable_buffer)
  : completion (mutable_helper frame_type) :=
  match frame_cast_mutable T buf with
  | None => Thrown TooSmall
  | Some _ =>
      let result := helper_mutable T buf in
      if negb (check_frame_mutable result) then Thrown Malformed
      else Returned result
  end.
End Parser.


(** ** The world: filter objects and the log of callback invocations *)

Section World.
Context {frame_type : Type}.

(** A [frame_handled_callback] (line 137): a
    [boost::function<void (const_helper<OSIFrameType>)>]. The registries of
    this engine hold two sorts of them:
    - an observer supplied by the user, a function object the engine knows
      nothing about. It is given a name (to tell observers apart in the
      log) and its completion: [None] when the call returns, [Some e] when
      it throws [e]. An observer receives a read-only view and holds no
      handle on the engine; here its completion is a function of that view
      (observers that keep state between calls: module [Stateful] below);
    - [boost::bind(&filter::parse, this, _1)] (line 269), the entry point of
      the child filter object at address [this]. *)
Inductive callback :=
| Observer (name : nat) (body : const_helper frame_type → option exception)
| BoundParse (this : nat).

(** One invocation of a callback by [frame_handled]: the filter whose
    registry is being dispatched, the callback and the view handed to it. *)
Inductive event :=
| Invoked (owner : nat) (cb : callback) (view : const_helper frame_type).

Definition event_owner (e : event) : nat :=
  match e with Invoked owner _ _ => owner end.

(** A [filter<OSIFrameType, ParentFilterType>] object (lines 157-188): its
    two template arguments (the parent is [None] for the specialisation
    [filter<OSIFrameType, void>]) and the one data member it inherits from
    [_base_filter], the registry [m_callbacks] (line 151). *)
Record filter_object := FilterObject {
  filter_frame_type : frame_type;
  filter_parent : option nat;
  m_callbacks : list callback;
}.

Record world := World {
  filters : list filter_object;  (* the filter object at each address *)
  log : list event;              (* the callback invocations so far *)
}.

(** Computations over the world. *)
Definition M (A : Type) : Type := world → completion A * world.

Definition ret {A} (a : A) : M A := λ w, (Returned a, w).

Definition bind {A B} (m : M A) (k : A → M B) : M B :=
  λ w, match m w with
       | (Returned a, w') => k a w'
       | (Thrown e, w') => (Thrown e, w')
       | (Stuck why, w') => (Stuck why, w')
       end.

(** A pure computation that may throw, run inside [M]. *)
Definition lift {A} (c : completion A) : M A := λ w, (c, w).

Definition throw {A} (e : exception) : M A := lift (Thrown e).

(** [try { m } catch (std::runtime_error&) { }] (lines 277-285, 292-300). *)
Definition try_catch_runtime_error (m : M unit) : M unit :=
  λ w, match m w with
       | (Thrown (runtime_error _), w') => (Returned tt, w')
       | r => r
       end.

Definition log_event (e : event) : M unit :=
  λ w, (Returned tt, World (filters w) (log w ++ [e])).

(** Dereferencing a filter object. *)
Definition get_filter (this : nat) : M filter_object :=
  λ w, match filters w !! this with
       | Some f => (Returned f, w)
       | None => (Stuck dangling_filter, w)
       end.
End World.

Arguments callback : clear implicits.
Arguments event : clear implicits.
Arguments filter_object : clear implicits.
Arguments world : clear implicits.
Arguments M : clear implicits.

(** [M] with stdpp's monadic notations [x ← m; k] and [m;; k]. *)
#[global] Instance M_ret {frame_type} : MRet (M frame_type) := @ret frame_type.
#[global] Instance M_bind {frame_type} : MBind (M frame_type) :=
  λ A B k m, bind m k.

(** ** The filter engine *)

Section Engine.
Context {frame_type : Type} `{OSIFrameType frame_type}.

Abbreviation M := (M frame_type).
Abbreviation callback := (callback frame_type).
Abbreviation view := (const_helper frame_type).

(** [std::for_each(first, last, f)] over a vector (line 263). *)
Fixpoint for_each {A} (f : A → M unit) (l : list A) : M unit :=
  match l with
  | [] => ret tt
  | x :: l' => f x;; for_each f l'
  end.

(** One application [callback(frame)] made by the [for_each] of line 263,
    [boost::lambda::bind(_1, frame)] applied to an element of the registry
    of the filter [owner]. [parse this] is what [filter::parse] does on the
    filter object at [this]. *)
Definition call_callback (parse : nat → view → M unit)
    (owner : nat) (frame : view) (cb : callback) : M unit :=
  log_event (Invoked owner cb frame);;
  match cb with
  | Observer _ body =>
      match body frame with
      | None => ret tt
      | Some e => throw e
      end
  | BoundParse this => parse this frame
  end.

(** [_base_filter::frame_handled] (lines 260-264), given what the bound
    [parse] entries of the registry do. *)
Definition frame_handled_with (parse : nat → view → M unit)
    (this : nat) (frame : view) : M unit :=
  self ← get_filter this;
  for_each (call_callback parse this frame) (m_callbacks self).

(** [filter<OSIFrameType, ParentFilterType>::parse] (lines 272-287) on the
    filter object at [this]. The nesting of the calls is bounded by [fuel]:
    each level of the dissection tree uses one unit. *)
Fixpoint filter_parse (fuel : nat) (this : nat) (parent : view) : M unit :=
  match fuel with
  | 0 => lift (Stuck out_of_fuel)
  | S fuel' =>
      self ← get_filter this;
      if frame_parent_match (filter_frame_type self) parent then
        try_catch_runtime_error
          (frame ← lift (frame_parse (filter_frame_type self) (payload parent));
           frame_handled_with (filter_parse fuel') this frame)
      else ret tt
  end.

(** [_base_filter::frame_handled] (lines 260-264) with [fuel] levels of
    filters below this one. *)
Definition frame_handled (fuel : nat) : nat → view → M unit :=
  frame_handled_with (filter_parse fuel).

(** [filter<OSIFrameType, void>::parse] (lines 289-301) on the root filter
    object at [this]. *)
Definition root_parse (fuel : nat) (this : nat) (buf : const_buffer) : M unit :=
  self ← get_filter this;
  try_catch_runtime_error
    (frame ← lift (frame_parse (filter_frame_type self) buf);
     frame_handled fuel this frame).

(** The entry point for an ingress buffer: [root.parse(buf)], with one unit
    of fuel per filter object of the world. *)
Definition parse (this : nat) (buf : const_buffer) : M unit :=
  λ w, root_parse (length (filters w)) this buf w.

(** [_base_filter::add_callback] (lines 254-258): [push_back] on the
    registry of the filter object at [this]. *)
Definition add_callback (this : nat) (cb : callback) : M unit :=
  λ w, match filters w !! this with
       | Some self =>
           (Returned tt,
            World (<[this := FilterObject (filter_frame_type self)
                                          (filter_parent self)
                                          (m_callbacks self ++ [cb])]>
                     (filters w))
                  (log w))
       | None => (Stuck dangling_filter, w)
       end.

(** Allocation of a filter object with an empty registry (the implicit
    constructor of [_base_filter] default-constructs [m_callbacks]); the
    result is the address of the new object. *)
Definition new_object (T : frame_type) (parent : option nat) : M nat :=
  λ w, (Returned (length (filters w)),
        World (filters w ++ [FilterObject T parent []]) (log w)).

(** Construction of a root filter, [filter<T, void>] (implicit default
    constructor). *)
Definition new_root_filter (T : frame_type) : M nat :=
  new_object T None.

(** Construction of a non-root filter,
    [filter<T, ParentFilterType>::filter(ParentFilterType& parent)]
    (lines 266-270). *)
Definition new_filter (T : frame_type) (parent : nat) : M nat :=
  this ← new_object T (Some parent);
  add_callback parent (BoundParse this);;
  ret this.

(** The registry of the filter object at [this], empty if there is none. *)
Definition registry (w : world frame_type) (this : nat) : list callback :=
  match filters w !! this with
  | Some f => m_callbacks f
  | None => []
  end.

(** A store is well formed when every bound [parse] entry of a registry
    refers to an existing filter object constructed after the owner of the
    registry, with that owner as its parent. This is what the constructors
    establish; see [new_filter]. *)
Definition wf_filters (fs : list (filter_object frame_type)) : Prop :=
  ∀ i f c, fs !! i = Some f → BoundParse c ∈ m_callbacks f →
    i < c ∧ ∃ g, fs !! c = Some g ∧ filter_parent g = Some i.

(** The empty world: no filter object, nothing logged. *)
Definition empty_world : world frame_type := World [] [].

(** The events of a log that are invocations made by the dispatch of the
    filter [owner]. *)
Definition invocations_of (owner : nat) (l : list (event frame_type))
  : list (event frame_type) :=
  filter (λ e, event_owner e = owner) l.

(** The observer invocations of a log, in order: name and view. *)
Fixpoint observers_fired (l : list (event frame_type))
  : list (nat * view) :=
  match l with
  | [] => []
  | Invoked _ (Observer name _) v :: l' => (name, v) :: observers_fired l'
  | Invoked _ (BoundParse _) _ :: l' => observers_fired l'
  end.
End Engine.


(** ** A small protocol stack, to run the engine on

    Four frame types. [Link] has a 4-byte header (the [Hdr4] of the
    scenarios), whose first byte must be [x01] and whose second byte names
    the protocol of the payload. [Net] and [Alt] are two candidate
    interpretations of a payload announced as [x02]: a [Net] header is
    2 bytes starting with [x02], an [Alt] header 2 bytes starting with
    [x0a]. [Transport] has a 1-byte header [x03] and rides on a [Net] frame
    whose second byte is [x03]. *)
Inductive toy_frame := Link | Net | Alt | Transport.

Definition toy_sizeof (T : toy_frame) : nat :=
  match T with Link => 4 | Net => 2 | Alt => 2 | Transport => 1 end.

Definition toy_magic (T : toy_frame) : byte :=
  match T with Link => x01 | Net => x02 | Alt => x0a | Transport => x03 end.

Definition toy_check_frame (h : const_helper toy_frame) : bool :=
  match const_bytes (const_helper_buffer h) with
  | b :: _ => Byte.eqb b (toy_magic (const_helper_type h))
  | [] => false
  end.

Definition toy_parent_match (T : toy_frame) (parent : const_helper toy_frame)
  : bool :=
  match const_helper_type parent, T, const_bytes (const_helper_buffer parent) with
  | Link, Net, _ :: x02 :: _ => true
  | Link, Alt, _ :: x02 :: _ => true
  | Net, Transport, _ :: x03 :: _ => true
  | _, _, _ => false
  end.

#[global] Instance toy_frames : OSIFrameType toy_frame := {
  sizeof := toy_sizeof;
  check_frame := toy_check_frame;
  frame_parent_match := toy_parent_match;
}.

(** Observers that return, and observers that throw. *)
Definition quiet (name : nat) : callback toy_frame :=
  Observer name (λ _, None).
Definition throwing (name : nat) (e : exception) : callback toy_frame :=
  Observer name (λ _, Some e).

(** Running a computation from the empty world. *)
Definition run {frame_type A} (m : M frame_type A)
  : completion A * world frame_type :=
  m (World [] []).

(** ** The operations of the engine *)

Section Operations.
Context {frame_type : Type} `{OSIFrameType frame_type}.

(** What client code can do with the engine: construct a root filter,
    construct a filter under a parent, register a callback, submit a
    buffer to a root filter. *)
Inductive operation :=
| op_new_root_filter (T : frame_type)
| op_new_filter (T : frame_type) (parent : nat)
| op_add_callback (this : nat) (cb : callback frame_type)
| op_parse (this : nat) (buf : const_buffer).

Definition perform (o : operation) : M frame_type unit :=
  match o with
  | op_new_root_filter T => new_root_filter T;; mret tt
  | op_new_filter T parent => new_filter T parent;; mret tt
  | op_add_callback this cb => add_callback this cb
  | op_parse this buf => parse this buf
  end.

(** What client code actually does: it constructs filters under parents
    that exist, and the callbacks it registers by hand are observers (the
    bound [parse] entries come from the constructor of the child, line
    269). *)
Definition client_operation (w : world frame_type) (o : operation) : Prop :=
  match o with
  | op_new_filter _ parent => parent < length (filters w)
  | op_add_callback _ (BoundParse _) => False
  | _ => True
  end.

(** The worlds client code can build, starting with no filter at all. *)
Inductive reachable : world frame_type → Prop :=
| reachable_empty : reachable empty_world
| reachable_step w o r w' :
    reachable w → client_operation w o → perform o w = (r, w') →
    reachable w'.
End Operations.

(** ** Dissection trees of three levels *)

Section ThreeLevels.
Context {frame_type : Type} `{OSIFrameType frame_type}.

(** root → L2 → L3, each observer registered as soon as its filter exists,
    hence before the child filter of that level is constructed. *)
Definition three_levels_observers_first (T1 T2 T3 : frame_type)
    (o1 o2 o3 : callback frame_type) : M frame_type nat :=
  root ← new_root_filter T1;
  add_callback root o1;;
  l2 ← new_filter T2 root;
  add_callback l2 o2;;
  l3 ← new_filter T3 l2;
  add_callback l3 o3;;
  mret root.

(** The same tree with the three filters constructed first and the
    observers registered afterwards. *)
Definition three_levels_filters_first (T1 T2 T3 : frame_type)
    (o1 o2 o3 : callback frame_type) : M frame_type nat :=
  root ← new_root_filter T1;
  l2 ← new_filter T2 root;
  l3 ← new_filter T3 l2;
  add_callback root o1;;
  add_callback l2 o2;;
  add_callback l3 o3;;
  mret root.
End ThreeLevels.

(** ** Buffers for the small protocol stack *)

(** Three bytes: too short for a [Link] header. *)
Definition short_buffer : const_buffer := ConstBuffer [x01; x02; x00].

(** Four bytes that do not start with the [Link] magic. *)
Definition bad_link_buffer : const_buffer :=
  ConstBuffer [x00; x02; x00; x00].

(** A valid [Link] header followed by two bytes. *)
Definition six_byte_buffer : const_buffer :=
  ConstBuffer [x01; x00; x00; x00; xaa; xbb].

(** A [Link] frame carrying a [Net] frame carrying a [Transport] frame
    carrying one byte. *)
Definition nested_buffer : const_buffer :=
  ConstBuffer [x01; x02; x00; x00; x02; x03; x03; xff].

(** The views of the three layers of [nested_buffer]. *)
Definition link_view : const_helper toy_frame := helper Link nested_buffer.
Definition net_view : const_helper toy_frame :=
  helper Net (payload link_view).
Definition transport_view : const_helper toy_frame :=
  helper Transport (payload net_view).

(** ** Worlds over the small protocol stack *)

(** The world a construction leaves behind, starting with nothing. *)
Definition built {A} (m : M toy_frame A) : world toy_frame := (run m).2.

(** A [Link] root filter with one observer. *)
Definition link_world : world toy_frame :=
  built (root ← new_root_filter Link; add_callback root (quiet 1)).

(** root → L2 → L3 with an observer per level, observers first. *)
Definition three_level_world : world toy_frame :=
  built (three_levels_observers_first Link Net Transport
           (quiet 1) (quiet 2) (quiet 3)).

(** A [Link] root with two candidate children for the same payload: [Alt]
    at address 1 and [Net] at address 2, each with one observer. *)
Definition fan_out_world : world toy_frame :=
  built (root ← new_root_filter Link;
         a ← new_filter Alt root;
         b ← new_filter Net root;
         add_callback a (quiet 6);;
         add_callback b (quiet 7)).

(** The fan-out of [fan_out_world] with an observer of the root, registered
    between the two children, that throws a [std::runtime_error]. *)
Definition blocked_fan_out_world : world toy_frame :=
  built (root ← new_root_filter Link;
         a ← new_filter Alt root;
         add_callback root (throwing 8 (runtime_error "boom"));;
         b ← new_filter Net root;
         add_callback a (quiet 6);;
         add_callback b (quiet 7)).

(** A [Link] root whose first observer throws a [std::runtime_error]. *)
Definition throwing_root_world : world toy_frame :=
  built (root ← new_root_filter Link;
         add_callback root (throwing 1 (runtime_error "boom"));;
         add_callback root (quiet 2)).

(** A [Link] root with a [Net] child and then an observer; the first
    observer of the child throws a [std::runtime_error]. *)
Definition throwing_child_world : world toy_frame :=
  built (root ← new_root_filter Link;
         child ← new_filter Net root;
         add_callback root (quiet 9);;
         add_callback child (throwing 5 (runtime_error "boom"));;
         add_callback child (quiet 6)).

(** A [Link] root with a [Net] child whose observer throws something that
    is not a [std::runtime_error]. *)
Definition escaping_world : world toy_frame :=
  built (root ← new_root_filter Link;
         child ← new_filter Net root;
         add_callback child (throwing 5 (other_exception "stop"));;
         add_callback root (quiet 9)).

(** The small stack with a validator that looks at the length first. *)
Definition toy_frames_guarded : OSIFrameType toy_frame := {|
  sizeof := toy_sizeof;
  check_frame h :=
    (toy_sizeof (const_helper_type h)
       <=? length (const_bytes (const_helper_buffer h)))
    && toy_check_frame h;
  frame_parent_match := toy_parent_match;
|}.

(** ** Vocabulary for the properties *)

Section Traces.
Context {frame_type : Type}.

(** On the store [fs], the computation [m] leaves the store alone and
    appends to the log a sequence of events satisfying [P]; that sequence
    and the completion of [m] depend on the store only, not on what was
    logged before. *)
Definition traced {A} (P : list (event frame_type) → Prop)
    (fs : list (filter_object frame_type)) (m : M frame_type A) : Prop :=
  ∃ c t, P t ∧ ∀ l, m (World fs l) = (c, World fs (l ++ t)).

(** On the store [fs], the evaluation of [m] completes: it returns or
    throws. *)
Definition completes {A} (fs : list (filter_object frame_type))
    (m : M frame_type A) : Prop :=
  ∀ l why, (m (World fs l)).1 ≠ Stuck why.

(** Every event of a trace is an invocation made by a filter object at
    address [c] or above. *)
Definition owners_from (c : nat) (t : list (event frame_type)) : Prop :=
  Forall (λ e, c ≤ event_owner e) t.

End Traces.

(** ** Vocabulary for the dispatch as a whole *)

Section Dispatch.
Context {frame_type : Type} `{OSIFrameType frame_type}.

Definition event_callback (e : event frame_type) : callback frame_type :=
  match e with Invoked _ cb _ => cb end.

Definition event_view (e : event frame_type) : const_helper frame_type :=
  match e with Invoked _ _ view => view end.

(** [reaches fs q vq c v]: the dispatch of the filter at [q] on the view
    [vq] leads to the dispatch of the filter at [c] on the view [v], down a
    chain of registered children, each of which is announced by the view
    of its parent ([frame_parent_match]) and parses the payload of that
    view ([frame_parse]). *)
Inductive reaches (fs : list (filter_object frame_type))
  : nat → const_helper frame_type → nat → const_helper frame_type → Prop :=
| reaches_here q vq : reaches fs q vq q vq
| reaches_child q g vq c1 g1 v1 c v :
    fs !! q = Some g → BoundParse c1 ∈ m_callbacks g →
    fs !! c1 = Some g1 →
    frame_parent_match (filter_frame_type g1) vq = true →
    frame_parse (filter_frame_type g1) (payload vq) = Returned v1 →
    reaches fs c1 v1 c v →
    reaches fs q vq c v.

(** An invocation that the dispatch of [q] on [vq] accounts for: it is made
    by a filter that dispatch leads to, on the view it leads to, and the
    callback is an entry of the registry of that filter. *)
Definition accounted (fs : list (filter_object frame_type)) (q : nat)
    (vq : const_helper frame_type) (e : event frame_type) : Prop :=
  reaches fs q vq (event_owner e) (event_view e) ∧
  ∃ g, fs !! event_owner e = Some g ∧ event_callback e ∈ m_callbacks g.

(** What the [parse] of the child at [c], called on the view [pv] of its
    parent, accounts for: [c] is announced by [pv], parses its payload, and
    the dispatch of [c] on the resulting view accounts for the event. *)
Definition child_accounted (fs : list (filter_object frame_type)) (c : nat)
    (pv : const_helper frame_type) (e : event frame_type) : Prop :=
  ∃ g v1, fs !! c = Some g ∧
          frame_parent_match (filter_frame_type g) pv = true ∧
          frame_parse (filter_frame_type g) (payload pv) = Returned v1 ∧
          accounted fs c v1 e.

(** When the completion is an exception, the last event of the trace is
    the invocation of the observer that threw it. *)
Definition thrown_by_observer (r : completion unit)
    (t : list (event frame_type)) : Prop :=
  ∀ e, r = Thrown e →
    ∃ t0 owner name body v,
      t = t0 ++ [Invoked owner (Observer name body) v] ∧ body v = Some e.

(** [x] occurs exactly once in [l]. *)
Definition exactly_once {A} (x : A) (l : list A) : Prop :=
  ∃ before after, l = before ++ (x :: after) ∧ (x ∉ before) ∧ (x ∉ after).

(** Every filter constructed under a parent has a lower-addressed parent
    that exists and holds the bound [parse] of the filter exactly once. *)
Definition registered_once (fs : list (filter_object frame_type)) : Prop :=
  ∀ c g p, fs !! c = Some g → filter_parent g = Some p →
    p < c ∧ ∃ P, fs !! p = Some P ∧ exactly_once (BoundParse c) (m_callbacks P).

(** [descends fs x c]: following parents from the filter at [x] leads to
    the filter at [c] (possibly [x] itself). *)
Inductive descends (fs : list (filter_object frame_type)) : nat → nat → Prop :=
| descends_refl c : descends fs c c
| descends_parent x g p c :
    fs !! x = Some g → filter_parent g = Some p → descends fs p c →
    descends fs x c.

(** The computation [m] completes the same way and appends the same
    events on the store [fs] and on the store [fs'], leaving each alone. *)
Definition same_run {A} (fs fs' : list (filter_object frame_type))
    (m : M frame_type A) : Prop :=
  ∃ r t, (∀ l, m (World fs l) = (r, World fs (l ++ t))) ∧
         (∀ l, m (World fs' l) = (r, World fs' (l ++ t))).

(** The invocation [e] is announced by what was invoked before it
    ([seen]): the parent of its filter invoked the bound [parse] of that
    filter on a view that announces the frame type of the filter and whose
    payload parses as the view of [e]. *)
Definition announced_by (fs : list (filter_object frame_type))
    (seen : list (event frame_type)) (e : event frame_type) : Prop :=
  ∃ p pv g,
    Invoked p (BoundParse (event_owner e)) pv ∈ seen ∧
    fs !! event_owner e = Some g ∧
    frame_parent_match (filter_frame_type g) pv = true ∧
    frame_parse (filter_frame_type g) (payload pv) = Returned (event_view e).

(** Every invocation of the trace [t], which follows [seen], is one of the
    dispatch at hand ([here]) or is announced by what precedes it. *)
Fixpoint causal (fs : list (filter_object frame_type))
    (here : event frame_type → Prop)
    (seen t : list (event frame_type)) : Prop :=
  match t with
  | [] => True
  | e :: t' =>
      (here e ∨ announced_by fs seen e) ∧ causal fs here (seen ++ [e]) t'
  end.

(** What the application [callback(frame)] of line 263 does once it is
    made: an observer returns or throws, a bound [parse] runs the [parse]
    of the child filter. *)
Definition apply_callback (fuel : nat) (cb : callback frame_type)
    (frame : const_helper frame_type) : M frame_type unit :=
  match cb with
  | Observer _ body =>
      match body frame with
      | None => mret tt
      | Some e => throw e
      end
  | BoundParse this => filter_parse fuel this frame
  end.

(** [dispatched fuel fs this v cbs t r]: going through the callbacks [cbs]
    in order on behalf of the filter [this], applying each to the view [v],
    appends the trace [t] and completes as [r]. Each callback is invoked
    and applied; after one that returns the next one is taken; one that does
    not return ends the dispatch, and the callbacks after it are left
    alone. *)
Inductive dispatched (fuel : nat) (fs : list (filter_object frame_type))
    (this : nat) (v : const_helper frame_type)
  : list (callback frame_type) → list (event frame_type) →
    completion unit → Prop :=
| dispatched_nil : dispatched fuel fs this v [] [] (Returned tt)
| dispatched_returned cb cbs t1 t2 r :
    (∀ l, apply_callback fuel cb v (World fs l)
          = (Returned tt, World fs (l ++ t1))) →
    dispatched fuel fs this v cbs t2 r →
    dispatched fuel fs this v (cb :: cbs) (Invoked this cb v :: t1 ++ t2) r
| dispatched_aborted cb cbs t1 r :
    (∀ l, apply_callback fuel cb v (World fs l) = (r, World fs (l ++ t1))) →
    r ≠ Returned tt →
    dispatched fuel fs this v (cb :: cbs) (Invoked this cb v :: t1) r.

(** No observer of the store ever throws. *)
Definition no_observer_throws (fs : list (filter_object frame_type)) : Prop :=
  ∀ i g name body v,
    fs !! i = Some g → Observer name body ∈ m_callbacks g → body v = None.
End Dispatch.

(** ** The engine with observers that keep state

    A [boost::function] (line 137) may hold a function object with state
    of its own, so that what an observer does at one call can depend on
    the calls made before. The definitions of this module are those of the
    engine above, from the same lines of the source, with one addition:
    the world has a third component, the state of the observers, and an
    observer is a function of the view it is given and of that state,
    which it may change whether it returns or throws. The observers hold
    no handle on the filter objects: the store is the fixed filter tree of
    a dissection. *)

Module Stateful.
Section World.
Context {frame_type memory : Type}.

(** A [frame_handled_callback] (line 137): an observer supplied by the
    user, with its name and what a call does, from the state of the
    observers before the call: [None] when the call returns, [Some e] when
    it throws [e], and the state after the call; or
    [boost::bind(&filter::parse, this, _1)] (line 269). *)
Inductive callback :=
| Observer (name : nat)
    (body : const_helper frame_type → memory → option exception * memory)
| BoundParse (this : nat).

Inductive event :=
| Invoked (owner : nat) (cb : callback) (view : const_helper frame_type).

Definition event_owner (e : event) : nat :=
  match e with Invoked owner _ _ => owner end.

Record filter_object := FilterObject {
  filter_frame_type : frame_type;
  filter_parent : option nat;
  m_callbacks : list callback;
}.

Record world := World {
  filters : list filter_object;  (* the filter object at each address *)
  state : memory;                (* the state of the observers *)
  log : list event;              (* the callback invocations so far *)
}.

Definition M (A : Type) : Type := world → completion A * world.

Definition ret {A} (a : A) : M A := λ w, (Returned a, w).

Definition bind {A B} (m : M A) (k : A → M B) : M B :=
  λ w, match m w with
       | (Returned a, w') => k a w'
       | (Thrown e, w') => (Thrown e, w')
       | (Stuck why, w') => (Stuck why, w')
       end.

Definition lift {A} (c : completion A) : M A := λ w, (c, w).

(** [try { m } catch (std::runtime_error&) { }] (lines 277-285, 292-300). *)
Definition try_catch_runtime_error (m : M unit) : M unit :=
  λ w, match m w with
       | (Thrown (runtime_error _), w') => (Returned tt, w')
       | r => r
       end.

Definition log_event (e : event) : M unit :=
  λ w, (Returned tt, World (filters w) (state w) (log w ++ [e])).

Definition get_filter (this : nat) : M filter_object :=
  λ w, match filters w !! this with
       | Some f => (Returned f, w)
       | None => (Stuck dangling_filter, w)
       end.

(** The call of an observer: it reads and updates the state of the
    observers, and returns or throws. *)
Definition call_observer
    (body : const_helper frame_type → memory → option exception * memory)
    (frame : const_helper frame_type) : M unit :=
  λ w, let (thrown, s) := body frame (state w) in
       (match thrown with None => Returned tt | Some e => Thrown e end,
        World (filters w) s (log w)).
End World.

Arguments callback : clear implicits.
Arguments event : clear implicits.
Arguments filter_object : clear implicits.
Arguments world : clear implicits.
Arguments M : clear implicits.

#[global] Instance M_ret {frame_type memory} : MRet (M frame_type memory) :=
  @ret frame_type memory.
#[global] Instance M_bind {frame_type memory} : MBind (M frame_type memory) :=
  λ A B k m, bind m k.

Section Engine.
Context {frame_type memory : Type} `{OSIFrameType frame_type}.

Abbreviation M := (M frame_type memory).
Abbreviation callback := (callback frame_type memory).
Abbreviation view := (const_helper frame_type).

(** [std::for_each(first, last, f)] over a vector (line 263). *)
Fixpoint for_each {A} (f : A → M unit) (l : list A) : M unit :=
  match l with
  | [] => ret tt
  | x :: l' => f x;; for_each f l'
  end.

(** One application [callback(frame)] made by the [for_each] of line 263. *)
Definition call_callback (parse : nat → view → M unit)
    (owner : nat) (frame : view) (cb : callback) : M unit :=
  log_event (Invoked owner cb frame);;
  match cb with
  | Observer _ body => call_observer body frame
  | BoundParse this => parse this frame
  end.

(** [_base_filter::frame_handled] (lines 260-264). *)
Definition frame_handled_with (parse : nat → view → M unit)
    (this : nat) (frame : view) : M unit :=
  self ← get_filter this;
  for_each (call_callback parse this frame) (m_callbacks self).

(** [filter<OSIFrameType, ParentFilterType>::parse] (lines 272-287). *)
Fixpoint filter_parse (fuel : nat) (this : nat) (parent : view) : M unit :=
  match fuel with
  | 0 => lift (Stuck out_of_fuel)
  | S fuel' =>
      self ← get_filter this;
      if frame_parent_match (filter_frame_type self) parent then
        try_catch_runtime_error
          (frame ← lift (frame_parse (filter_frame_type self) (payload parent));
           frame_handled_with (filter_parse fuel') this frame)
      else ret tt
  end.

Definition frame_handled (fuel : nat) : nat → view → M unit :=
  frame_handled_with (filter_parse fuel).

(** [filter<OSIFrameType, void>::parse] (lines 289-301). *)
Definition root_parse (fuel : nat) (this : nat) (buf : const_buffer) : M unit :=
  self ← get_filter this;
  try_catch_runtime_error
    (frame ← lift (frame_parse (filter_frame_type self) buf);
     frame_handled fuel this frame).

(** [root.parse(buf)], with one unit of fuel per filter object. *)
Definition parse (this : nat) (buf : const_buffer) : M unit :=
  λ w, root_parse (length (filters w)) this buf w.

(** As [wf_filters] above: every bound [parse] entry refers to a filter
    object constructed after the owner of the registry. *)
Definition wf_filters (fs : list (filter_object frame_type memory)) : Prop :=
  ∀ i f c, fs !! i = Some f → BoundParse c ∈ m_callbacks f →
    i < c ∧ ∃ g, fs !! c = Some g ∧ filter_parent g = Some i.

(** Whether an observer registered in [fs] returns or throws, and what it
    throws, depends on the view it is given only, not on the state of the
    observers. *)
Definition completion_stateless
    (fs : list (filter_object frame_type memory)) : Prop :=
  ∀ i g name body v s s',
    fs !! i = Some g → Observer name body ∈ m_callbacks g →
    (body v s).1 = (body v s').1.

(** From any two states of the observers and any two logs, [m] completes
    in the same way and appends the same events, and it leaves the store
    alone. *)
Definition repeatable {A} (fs : list (filter_object frame_type memory))
    (m : M A) : Prop :=
  ∀ s1 l1 s2 l2, ∃ c t s1' s2',
    m (World fs s1 l1) = (c, World fs s1' (l1 ++ t)) ∧
    m (World fs s2 l2) = (c, World fs s2' (l2 ++ t)).

(** On the store [fs], [m] returns or throws, and leaves the store alone. *)
Definition completes {A} (fs : list (filter_object frame_type memory))
    (m : M A) : Prop :=
  ∀ s l, ∃ c s' l',
    m (World fs s l) = (c, World fs s' l') ∧ ∀ why, c ≠ Stuck why.
End Engine.

(** An observer that throws [e] at its first call and returns at the
    later ones; the state tells whether it has been called. *)
Definition throwing_once (name : nat) (e : exception)
  : callback toy_frame bool :=
  Observer name (λ _ (called : bool),
                   (if called then None else Some e, true)).

(** An observer that returns, and leaves the state alone. *)
Definition quiet {memory} (name : nat) : callback toy_frame memory :=
  Observer name (λ _ (s : memory), (None, s)).

(** An observer that counts the calls and returns. *)
Definition counting (name : nat) : callback toy_frame nat :=
  Observer name (λ _ (n : nat), (None, S n)).

(** A [Link] root with two observers, the first of which throws a
    [std::runtime_error] at its first call only. *)
Definition throwing_once_filters : list (filter_object toy_frame bool) :=
  [FilterObject Link None
     [throwing_once 1 (runtime_error "boom"); quiet 2]].

(** A [Link] root with a [Net] child, and an observer per level that
    counts the invocations. *)
Definition counting_filters : list (filter_object toy_frame nat) :=
  [FilterObject Link None [counting 1; BoundParse 1];
   FilterObject Net (Some 0) [counting 2]].
End Stateful.

(** The engine above is the engine with state at observers that leave the
    state alone: a callback, an event, a filter object and a world of the
    former, seen as one of the latter. *)
Section WithState.
Context {frame_type memory : Type}.

Definition with_state (cb : callback frame_type)
  : Stateful.callback frame_type memory :=
  match cb with
  | Observer name body => Stateful.Observer name (λ v s, (body v, s))
  | BoundParse this => Stateful.BoundParse this
  end.

Definition event_with_state (e : event frame_type)
  : Stateful.event frame_type memory :=
  match e with
  | Invoked owner cb v => Stateful.Invoked owner (with_state cb) v
  end.

Definition filter_with_state (f : filter_object frame_type)
  : Stateful.filter_object frame_type memory :=
  Stateful.FilterObject (filter_frame_type f) (filter_parent f)
                        (with_state <$> m_callbacks f).

Definition world_with_state (s : memory) (w : world frame_type)
  : Stateful.world frame_type memory :=
  Stateful.World (filter_with_state <$> filters w) s
                 (event_with_state <$> log w).

(** [m'] does, on a world with state, what [m] does on the world. *)
Definition same_engine {A} (m : M frame_type A)
    (m' : Stateful.M frame_type memory A) : Prop :=
  ∀ s w, m' (world_with_state s w) = ((m w).1, world_with_state s (m w).2).
End WithState.

(** * Properties *)

(** ** The parser *)

Section ParserFacts.
Context {frame_type : Type} `{OSIFrameType frame_type}.

Lemma frame_cast_None (T : frame_type) (buf : const_buffer) :
  frame_cast T buf = None ↔ buffer_size buf < sizeof T.
Proof.
  unfold frame_cast.
  destruct (Nat.ltb_spec (buffer_size buf) (sizeof T)); split;
    intros; try done; lia.
Qed.

Lemma frame_cast_mutable_None (T : frame_type) (buf : mutable_buffer) :
  frame_cast_mutable T buf = None ↔ buffer_size_mutable buf < sizeof T.
Proof.
  unfold frame_cast_mutable.
  destruct (Nat.ltb_spec (buffer_size_mutable buf) (sizeof T)); split;
    intros; try done; lia.
Qed.

(** C1. [frame_parse] throws the "too small" error exactly when the buffer
    is strictly shorter than the header of the frame type; on a buffer that
    is long enough it throws the "malformed" error when [check_frame]
    rejects the view, and returns the view built over the buffer
    otherwise. *)
Theorem frame_parse_outcomes (T : frame_type) (buf : const_buffer) :
  (frame_parse T buf = Thrown TooSmall ↔ buffer_size buf < sizeof T) ∧
  (sizeof T ≤ buffer_size buf → check_frame (helper T buf) = false →
     frame_parse T buf = Thrown Malformed) ∧
  (sizeof T ≤ buffer_size buf → check_frame (helper T buf) = true →
     frame_parse T buf = Returned (helper T buf)).
Proof.
  unfold frame_parse.
  destruct (frame_cast T buf) as [p|] eqn:Hcast.
  - assert (Hsz : ¬ buffer_size buf < sizeof T).
    { intros Hlt. apply frame_cast_None in Hlt. congruence. }
    destruct (check_frame (helper T buf)) eqn:Hchk; simpl;
      (split; [split; [ discriminate || (intros [=]) | intros; lia ]
              | split; intros; congruence ]).
  - apply frame_cast_None in Hcast.
    split; [tauto | split; intros; lia].
Qed.
Lemma frame_parse_throws (T : frame_type) (buf : const_buffer) e :
  frame_parse T buf = Thrown e → e = TooSmall ∨ e = Malformed.
Proof.
  unfold frame_parse. destruct (frame_cast T buf); [|intros [= <-]; by left].
  destruct (check_frame _); simpl; [done|intros [= <-]; by right].
Qed.

Lemma frame_parse_not_stuck (T : frame_type) (buf : const_buffer) why :
  frame_parse T buf ≠ Stuck why.
Proof.
  unfold frame_parse. destruct (frame_cast T buf); [|done].
  by destruct (check_frame _).
Qed.

Lemma frame_parse_Returned (T : frame_type) (buf : const_buffer) v :
  frame_parse T buf = Returned v →
  v = helper T buf ∧ sizeof T ≤ buffer_size buf ∧ check_frame v = true.
Proof.
  unfold frame_parse. destruct (frame_cast T buf) eqn:Hcast; [|done].
  destruct (check_frame (helper T buf)) eqn:Hchk; simpl; [|done].
  intros [= <-]. repeat split; [|done].
  destruct (decide (buffer_size buf < sizeof T)) as [Hlt|]; [|lia].
  apply frame_cast_None in Hlt. congruence.
Qed.

(** C7. On a buffer that passes both the cast and the validator,
    [frame_parse] returns a view of the requested type whose header
    structure is the leading [sizeof T] bytes of the buffer, byte for byte,
    and whose [payload()] is exactly the bytes after them (none, when the
    buffer is just a header): header followed by payload is the buffer. *)
Theorem frame_parse_view (T : frame_type) (buf : const_buffer) :
  is_Some (frame_cast T buf) → check_frame (helper T buf) = true →
  ∃ v, frame_parse T buf = Returned v ∧
       const_helper_type v = T ∧
       frame v = take (sizeof T) (const_bytes buf) ∧
       length (frame v) = sizeof T ∧
       (∀ i, i < sizeof T → frame v !! i = const_bytes buf !! i) ∧
       const_bytes (payload v) = drop (sizeof T) (const_bytes buf) ∧
       buffer_size (payload v) = buffer_size buf - sizeof T ∧
       frame v ++ const_bytes (payload v) = const_bytes buf.
Proof.
  intros [p Hcast] Hchk.
  assert (Hsz : sizeof T ≤ buffer_size buf).
  { destruct (decide (buffer_size buf < sizeof T)) as [Hlt|]; [|lia].
    apply frame_cast_None in Hlt. congruence. }
  exists (helper T buf). unfold frame_parse. rewrite Hcast, Hchk. simpl.
  unfold frame, payload, buffer_size in *. simpl.
  repeat split.
  - rewrite length_take. lia.
  - intros i Hi. by rewrite lookup_take_lt.
  - by rewrite length_drop.
  - apply take_drop.
Qed.

(** C8. One rule set for both flavours of view: [check_frame] on a mutable
    view is [check_frame] on the read-only view constructed from it, and so
    it agrees with [check_frame] on any read-only view of the same frame
    type over the same bytes. The two flavours of [frame_parse] therefore
    accept and reject the same buffers, for the same reason. *)
Theorem check_frame_mutable_delegates :
  (∀ m : mutable_helper frame_type,
     check_frame_mutable m = check_frame (const_of_mutable m)) ∧
  (∀ (m : mutable_helper frame_type) (c : const_helper frame_type),
     const_helper_type c = mutable_helper_type m →
     const_bytes (const_helper_buffer c)
       = mutable_bytes (mutable_helper_buffer m) →
     check_frame_mutable m = check_frame c) ∧
  (∀ (T : frame_type) (buf : mutable_buffer),
     match frame_parse_mutable T buf,
           frame_parse T (const_of_mutable_buffer buf) with
     | Returned m, Returned c => const_of_mutable m = c
     | Thrown e, Thrown e' => e = e'
     | _, _ => False
     end).
Proof.
  split; [done|]. split.
  - intros [Tm [bm]] [Tc [bc]]; simpl. intros -> ->. done.
  - intros T [bs]. unfold frame_parse_mutable, frame_parse,
      frame_cast_mutable, frame_cast, buffer_size_mutable, buffer_size,
      check_frame_mutable. simpl.
    destruct (length bs <? sizeof T); [done|].
    unfold helper_mutable, helper, const_of_mutable, const_of_mutable_buffer.
    simpl. by destruct (check_frame _).
Qed.
End ParserFacts.

(** C2. The bounds check comes before any look at the bytes. The outcome of
    [frame_cast] (null or not) is a function of the buffer length alone, the
    same for both flavours; the structure a non-null result designates lies
    inside the buffer; and [frame_parse] consults the validator only on
    buffers at least as long as the header: two validators that agree on
    all views over such buffers give the same parser. *)
Theorem frame_cast_length_only {frame_type : Type} :
  (∀ (F : OSIFrameType frame_type) T (b1 b2 : const_buffer),
     buffer_size b1 = buffer_size b2 →
     (frame_cast T b1 = None ↔ frame_cast T b2 = None)) ∧
  (∀ (F : OSIFrameType frame_type) T (buf : mutable_buffer),
     frame_cast_mutable T buf = None ↔
     frame_cast T (const_of_mutable_buffer buf) = None) ∧
  (∀ (F : OSIFrameType frame_type) T (buf : const_buffer) p,
     frame_cast T buf = Some p →
     length p = sizeof T ∧ sizeof T ≤ buffer_size buf ∧
     p `prefix_of` const_bytes buf) ∧
  (∀ (F1 F2 : OSIFrameType frame_type),
     (∀ T, @sizeof _ F1 T = @sizeof _ F2 T) →
     (∀ h, @sizeof _ F1 (const_helper_type h)
             ≤ buffer_size (const_helper_buffer h) →
           @check_frame _ F1 h = @check_frame _ F2 h) →
     ∀ T buf, @frame_parse _ F1 T buf = @frame_parse _ F2 T buf).
Proof.
  split; [|split; [|split]].
  - intros F T b1 b2 Hlen. rewrite !frame_cast_None. lia.
  - intros F T [bs]. by rewrite frame_cast_mutable_None, frame_cast_None.
  - intros F T buf p. unfold frame_cast.
    destruct (Nat.ltb_spec (buffer_size buf) (sizeof T)); [done|].
    intros [= <-]. unfold buffer_size in *.
    rewrite length_take. split; [lia|]. split; [done|]. apply prefix_take.
  - intros F1 F2 Hsz Hchk T buf. unfold frame_parse, frame_cast.
    rewrite <- Hsz.
    destruct (Nat.ltb_spec (buffer_size buf) (@sizeof _ F1 T)); [done|].
    rewrite <- Hchk; done.
Qed.

(** ** The monad and the dispatch loop *)

Section EngineFacts.
Context {frame_type : Type} `{OSIFrameType frame_type}.

Abbreviation M := (M frame_type).
Abbreviation callback := (callback frame_type).
Abbreviation view := (const_helper frame_type).
Abbreviation store := (list (filter_object frame_type)).
Abbreviation trace := (list (event frame_type)).

Implicit Types (fs : store) (t : trace) (P : trace → Prop).

Lemma bind_Returned {A B} (m : M A) (k : A → M B) w a w' :
  m w = (Returned a, w') → (m ≫= k) w = k a w'.
Proof. intros Hm. unfold mbind, M_bind, bind. by rewrite Hm. Qed.

Lemma bind_Thrown {A B} (m : M A) (k : A → M B) w e w' :
  m w = (Thrown e, w') → (m ≫= k) w = (Thrown e, w').
Proof. intros Hm. unfold mbind, M_bind, bind. by rewrite Hm. Qed.

Lemma bind_Stuck {A B} (m : M A) (k : A → M B) w why w' :
  m w = (Stuck why, w') → (m ≫= k) w = (Stuck why, w').
Proof. intros Hm. unfold mbind, M_bind, bind. by rewrite Hm. Qed.

Lemma get_filter_Some this fs l self :
  fs !! this = Some self →
  get_filter this (World fs l) = (Returned self, World fs l).
Proof. intros Hl. unfold get_filter. simpl. by rewrite Hl. Qed.

Lemma get_filter_None this fs l :
  fs !! this = None →
  get_filter (frame_type:=frame_type) this (World fs l)
  = (Stuck dangling_filter, World fs l).
Proof. intros Hl. unfold get_filter. simpl. by rewrite Hl. Qed.

(** *** Traces compose *)

Lemma traced_weaken {A} P (Q : trace → Prop) fs (m : M A) :
  (∀ t, P t → Q t) → traced P fs m → traced Q fs m.
Proof. intros HPQ (c & t & HP & Hm). exists c, t. eauto. Qed.

Lemma traced_ret {A} P fs (a : A) : P [] → traced P fs (mret a).
Proof.
  intros HP. exists (Returned a), []. split; [done|].
  intros l. by rewrite app_nil_r.
Qed.

Lemma traced_lift {A} P fs (c : completion A) : P [] → traced P fs (lift c).
Proof.
  intros HP. exists c, []. split; [done|].
  intros l. by rewrite app_nil_r.
Qed.

Lemma traced_log_event P fs e : P [e] → traced P fs (log_event e).
Proof. intros HP. exists (Returned tt), [e]. done. Qed.

Lemma traced_bind {A B} P fs (m : M A) (k : A → M B) :
  (∀ t1 t2, P t1 → P t2 → P (t1 ++ t2)) →
  traced P fs m → (∀ a, traced P fs (k a)) → traced P fs (m ≫= k).
Proof.
  intros Happ (c & t & HP & Hm) Hk.
  destruct c as [a|e|why].
  - destruct (Hk a) as (c' & t' & HP' & Hk').
    exists c', (t ++ t'). split; [by apply Happ|].
    intros l. rewrite (bind_Returned _ _ _ _ _ (Hm l)), Hk'.
    by rewrite app_assoc.
  - exists (Thrown e), t. split; [done|].
    intros l. by rewrite (bind_Thrown _ _ _ _ _ (Hm l)).
  - exists (Stuck why), t. split; [done|].
    intros l. by rewrite (bind_Stuck _ _ _ _ _ (Hm l)).
Qed.

Lemma traced_get_filter_bind {B} P fs this (k : filter_object frame_type → M B) :
  P [] →
  (∀ self, fs !! this = Some self → traced P fs (k self)) →
  traced P fs (get_filter this ≫= k).
Proof.
  intros HP Hk. destruct (fs !! this) as [self|] eqn:Hl.
  - destruct (Hk self eq_refl) as (c & t & HPt & Hrun).
    exists c, t. split; [done|]. intros l.
    by rewrite (bind_Returned _ _ _ _ _ (get_filter_Some _ _ l _ Hl)).
  - exists (Stuck dangling_filter), []. split; [done|]. intros l.
    rewrite (bind_Stuck _ _ _ _ _ (get_filter_None _ _ l Hl)).
    by rewrite app_nil_r.
Qed.

Lemma traced_try_catch P fs (m : M unit) :
  traced P fs m → traced P fs (try_catch_runtime_error m).
Proof.
  intros (c & t & HP & Hm).
  exists (match c with Thrown (runtime_error _) => Returned tt | _ => c end), t.
  split; [done|]. intros l. unfold try_catch_runtime_error. rewrite Hm.
  by destruct c as [[]|[]|].
Qed.

Lemma traced_for_each {A} P fs (f : A → M unit) (l : list A) :
  P [] → (∀ t1 t2, P t1 → P t2 → P (t1 ++ t2)) →
  (∀ x, x ∈ l → traced P fs (f x)) →
  traced P fs (for_each f l).
Proof.
  intros Hnil Happ. induction l as [|x l IH]; intros Hf; simpl.
  - by apply traced_ret.
  - apply traced_bind; [done| |].
    + apply Hf. by left.
    + intros _. apply IH. intros y Hy. apply Hf. by right.
Qed.

Lemma traced_run {A} P fs (m : M A) l c w' :
  traced P fs m → m (World fs l) = (c, w') →
  ∃ t, P t ∧ w' = World fs (l ++ t) ∧
       ∀ l', m (World fs l') = (c, World fs (l' ++ t)).
Proof.
  intros (c0 & t & HP & Hm) Hrun. rewrite Hm in Hrun.
  injection Hrun as <- <-. eauto.
Qed.
(** *** Traces of the dispatch loop

    [Q c] is a property of the traces of the filter at [c]: it holds of the
    empty trace, of the invocations made by [c] itself, of concatenations,
    and of the traces of the children registered with [c]. *)

Section TracedEngine.
Variable Q : nat → trace → Prop.
Variable fs : store.
Hypothesis Q_nil : ∀ c, Q c [].
Hypothesis Q_app : ∀ c t1 t2, Q c t1 → Q c t2 → Q c (t1 ++ t2).
Hypothesis Q_own : ∀ c cb v, Q c [Invoked c cb v].
Hypothesis Q_child : ∀ c self c' t,
  fs !! c = Some self → BoundParse c' ∈ m_callbacks self → Q c' t → Q c t.

Lemma traced_call_callback (parse : nat → view → M unit) c self v cb :
  fs !! c = Some self → cb ∈ m_callbacks self →
  (∀ c', traced (Q c') fs (parse c' v)) →
  traced (Q c) fs (call_callback parse c v cb).
Proof.
  intros Hself Hcb Hparse. unfold call_callback.
  apply traced_bind; [apply Q_app|by apply traced_log_event|].
  intros _. destruct cb as [name body|c'].
  - destruct (body v); [by apply traced_lift|by apply traced_ret].
  - eapply traced_weaken; [|apply Hparse]. intros t. by eapply Q_child.
Qed.

Lemma traced_frame_handled_with (parse : nat → view → M unit) c v :
  (∀ c', traced (Q c') fs (parse c' v)) →
  traced (Q c) fs (frame_handled_with parse c v).
Proof.
  intros Hparse. unfold frame_handled_with.
  apply traced_get_filter_bind; [done|]. intros self Hself.
  apply traced_for_each; [done|apply Q_app|].
  intros cb Hcb. by eapply traced_call_callback.
Qed.

Lemma traced_filter_parse fuel c pv :
  traced (Q c) fs (filter_parse fuel c pv).
Proof.
  revert c pv. induction fuel as [|fuel IH]; intros c pv; simpl.
  - by apply traced_lift.
  - apply traced_get_filter_bind; [done|]. intros self Hself.
    destruct (frame_parent_match _ _); [|by apply traced_ret].
    apply traced_try_catch, traced_bind; [apply Q_app|by apply traced_lift|].
    intros v. apply traced_frame_handled_with. intros c'. apply IH.
Qed.

Lemma traced_frame_handled fuel c v :
  traced (Q c) fs (frame_handled fuel c v).
Proof.
  apply traced_frame_handled_with. intros c'. apply traced_filter_parse.
Qed.

Lemma traced_root_parse fuel c buf :
  traced (Q c) fs (root_parse fuel c buf).
Proof.
  unfold root_parse.
  apply traced_get_filter_bind; [done|]. intros self Hself.
  apply traced_try_catch, traced_bind; [apply Q_app|by apply traced_lift|].
  intros v. apply traced_frame_handled.
Qed.

Lemma traced_parse c buf : traced (Q c) fs (parse c buf).
Proof.
  destruct (traced_root_parse (length fs) c buf) as (r & t & HQ & Hrun).
  exists r, t. split; [done|]. intros l. unfold parse. simpl. apply Hrun.
Qed.
End TracedEngine.
(** Dispatch never touches the store, and what it appends to the log does
    not depend on what was logged before. *)
Lemma framed_filter_parse fs fuel c pv :
  traced (λ _, True) fs (filter_parse fuel c pv).
Proof. by apply (traced_filter_parse (λ _ _, True)). Qed.

Lemma framed_frame_handled fs fuel c v :
  traced (λ _, True) fs (frame_handled fuel c v).
Proof. by apply (traced_frame_handled (λ _ _, True)). Qed.

Lemma framed_root_parse fs fuel c buf :
  traced (λ _, True) fs (root_parse fuel c buf).
Proof. by apply (traced_root_parse (λ _ _, True)). Qed.

Lemma framed_parse fs c buf : traced (λ _, True) fs (parse c buf).
Proof. by apply (traced_parse (λ _ _, True)). Qed.

Lemma framed_call_callback fs fuel c v cb :
  traced (λ _, True) fs (call_callback (filter_parse fuel) c v cb).
Proof.
  unfold call_callback.
  apply traced_bind; [done|by apply traced_log_event|].
  intros _. destruct cb as [name body|c'].
  - destruct (body v); [by apply traced_lift|by apply traced_ret].
  - apply framed_filter_parse.
Qed.

(** In a well-formed store the invocations below a filter are made by
    filters at higher addresses. *)
Lemma owners_from_child fs c self c' t :
  wf_filters fs → fs !! c = Some self → BoundParse c' ∈ m_callbacks self →
  owners_from c' t → owners_from c t.
Proof.
  intros Hwf Hself Hin. destruct (Hwf c self c' Hself Hin) as [Hlt _].
  unfold owners_from. intros Ht. eapply Forall_impl; [exact Ht|].
  intros e. simpl. lia.
Qed.

Lemma owners_filter_parse fs fuel c pv :
  wf_filters fs → traced (owners_from c) fs (filter_parse fuel c pv).
Proof.
  intros Hwf. apply (traced_filter_parse owners_from); unfold owners_from.
  - done.
  - intros. by apply Forall_app.
  - intros. by apply Forall_singleton.
  - intros. by eapply owners_from_child.
Qed.

Lemma invocations_of_owners_from owner c t :
  owner < c → owners_from c t → invocations_of owner t = [].
Proof.
  intros Hlt. unfold invocations_of, owners_from.
  induction 1 as [|e t He _ IH]; [done|].
  rewrite filter_cons_False; [done|]. lia.
Qed.

Lemma invocations_of_app owner (t1 t2 : trace) :
  invocations_of owner (t1 ++ t2)
  = invocations_of owner t1 ++ invocations_of owner t2.
Proof. unfold invocations_of. apply filter_app. Qed.

(** *** Enough fuel *)

Lemma completes_ret {A} fs (a : A) : completes fs (mret a : M A).
Proof. by intros l why. Qed.

Lemma completes_bind {A B} fs (m : M A) (k : A → M B) :
  traced (λ _, True) fs m → completes fs m → (∀ a, completes fs (k a)) →
  completes fs (m ≫= k).
Proof.
  intros (c & t & _ & Hm) Hcm Hk l why.
  specialize (Hcm l). rewrite Hm in Hcm. simpl in Hcm.
  destruct c as [a|e|why'].
  - rewrite (bind_Returned _ _ _ _ _ (Hm l)). apply Hk.
  - by rewrite (bind_Thrown _ _ _ _ _ (Hm l)).
  - by destruct (Hcm why').
Qed.

Lemma completes_get_filter_bind {B} fs this
    (k : filter_object frame_type → M B) :
  this < length fs →
  (∀ self, fs !! this = Some self → completes fs (k self)) →
  completes fs (get_filter this ≫= k).
Proof.
  intros Hlt Hk l why.
  destruct (lookup_lt_is_Some_2 fs this Hlt) as [self Hself].
  rewrite (bind_Returned _ _ _ _ _ (get_filter_Some _ _ l _ Hself)).
  by apply Hk.
Qed.

Lemma completes_try_catch fs (m : M unit) :
  completes fs m → completes fs (try_catch_runtime_error m).
Proof.
  intros Hm l why. specialize (Hm l). unfold try_catch_runtime_error.
  destruct (m (World fs l)) as [[[]|[]|why'] w']; simpl in *; done.
Qed.

Lemma completes_for_each {A} fs (f : A → M unit) (l : list A) :
  (∀ x, x ∈ l → traced (λ _, True) fs (f x) ∧ completes fs (f x)) →
  completes fs (for_each f l).
Proof.
  induction l as [|x l IH]; intros Hf; simpl.
  - apply completes_ret.
  - apply completes_bind.
    + apply Hf. by left.
    + apply Hf. by left.
    + intros _. apply IH. intros y Hy. apply Hf. by right.
Qed.

Lemma completes_frame_handled_with fs (parse : nat → view → M unit) c v :
  wf_filters fs → c < length fs →
  (∀ c', traced (λ _, True) fs (parse c' v)) →
  (∀ c', c < c' → c' < length fs → completes fs (parse c' v)) →
  completes fs (frame_handled_with parse c v).
Proof.
  intros Hwf Hc Hframed Hparse. unfold frame_handled_with.
  apply completes_get_filter_bind; [done|]. intros self Hself.
  apply completes_for_each. intros cb Hcb. split.
  - by apply (traced_call_callback (λ _ _, True) fs) with (self := self).
  - unfold call_callback. apply completes_bind.
    + by apply traced_log_event.
    + by intros l why.
    + intros _. destruct cb as [name body|c'].
      * destruct (body v); [by intros l why|apply completes_ret].
      * destruct (Hwf c self c' Hself Hcb) as (Hlt & g & Hg & _).
        apply Hparse; [done|]. by eapply lookup_lt_Some.
Qed.

Lemma completes_filter_parse fs fuel c pv :
  wf_filters fs → c < length fs → length fs ≤ fuel + c →
  completes fs (filter_parse fuel c pv).
Proof.
  intros Hwf. revert c pv.
  induction fuel as [|fuel IH]; intros c pv Hc Hfuel; [lia|]. simpl.
  apply completes_get_filter_bind; [done|]. intros self Hself.
  destruct (frame_parent_match _ _); [|apply completes_ret].
  apply completes_try_catch, completes_bind.
  - by apply traced_lift.
  - intros l why. simpl. apply frame_parse_not_stuck.
  - intros v. apply completes_frame_handled_with; [done..| |].
    + intros c'. apply framed_filter_parse.
    + intros c' Hlt Hc'. apply IH; [done|lia].
Qed.

Lemma completes_frame_handled fs fuel c v :
  wf_filters fs → c < length fs → length fs ≤ S (fuel + c) →
  completes fs (frame_handled fuel c v).
Proof.
  intros Hwf Hc Hfuel.
  apply completes_frame_handled_with; [done..| |].
  - intros c'. apply framed_filter_parse.
  - intros c' Hlt Hc'. apply completes_filter_parse; [done..|lia].
Qed.

(** [parse] on a filter object of a well-formed store always completes:
    one unit of fuel per filter object is enough. *)
Lemma completes_parse fs c buf :
  wf_filters fs → c < length fs → completes fs (parse c buf).
Proof.
  intros Hwf Hc l why. unfold parse. simpl.
  revert l why. change (completes fs (root_parse (length fs) c buf)).
  unfold root_parse.
  apply completes_get_filter_bind; [done|]. intros self Hself.
  apply completes_try_catch, completes_bind.
  - by apply traced_lift.
  - intros l why. simpl. apply frame_parse_not_stuck.
  - intros v. apply completes_frame_handled; [done..|lia].
Qed.
End EngineFacts.

(** ** The root filter *)

Section RootFilter.
Context {frame_type : Type} `{OSIFrameType frame_type}.

(** C3. When [frame_parse] fails on the buffer, for either reason, the
    [parse] of a root filter returns normally and leaves the world exactly
    as it found it: no callback is invoked, no exception reaches the
    caller, every registry is unchanged. *)
Theorem root_parse_drops_failure (fuel : nat) (w : world frame_type)
    (this : nat) (self : filter_object frame_type) (buf : const_buffer) e :
  filters w !! this = Some self →
  frame_parse (filter_frame_type self) buf = Thrown e →
  (e = TooSmall ∨ e = Malformed) ∧
  root_parse fuel this buf w = (Returned tt, w) ∧
  parse this buf w = (Returned tt, w).
Proof.
  intros Hself Hparse.
  pose proof (frame_parse_throws _ _ _ Hparse) as He.
  split; [done|].
  assert (Hroot : ∀ n, root_parse n this buf w = (Returned tt, w)).
  { intros n. destruct w as [fs l]. simpl in Hself. unfold root_parse.
    rewrite (bind_Returned _ _ _ _ _ (get_filter_Some _ _ l _ Hself)).
    unfold try_catch_runtime_error.
    erewrite bind_Thrown; [|unfold lift; by rewrite Hparse].
    by destruct He as [-> | ->]. }
  split; [apply Hroot|]. unfold parse. apply Hroot.
Qed.

End RootFilter.

(** ** The observer registry *)

Section Registry.
Context {frame_type : Type} `{OSIFrameType frame_type}.

Abbreviation store := (list (filter_object frame_type)).
Abbreviation trace := (list (event frame_type)).

Implicit Types (fs : store) (t : trace) (w : world frame_type).

Lemma add_callback_registry w this self cb :
  filters w !! this = Some self →
  ∃ w', add_callback this cb w = (Returned tt, w') ∧ log w' = log w ∧
        length (filters w') = length (filters w) ∧
        registry w' this = registry w this ++ [cb] ∧
        ∀ other, other ≠ this → filters w' !! other = filters w !! other.
Proof.
  intros Hself. unfold add_callback. rewrite Hself.
  eexists. split; [done|]. simpl. split; [done|].
  split; [by rewrite length_insert|]. split.
  - unfold registry. simpl. rewrite Hself.
    rewrite list_lookup_insert_eq; [done|]. by eapply lookup_lt_Some.
  - intros other Hne. by rewrite list_lookup_insert_ne.
Qed.

Lemma add_callback_prefix w this cb r w' other :
  add_callback this cb w = (r, w') →
  registry w other `prefix_of` registry w' other.
Proof.
  destruct (filters w !! this) as [self|] eqn:Hself.
  - destruct (add_callback_registry w this self cb Hself)
      as (w1 & Hrun & _ & _ & Hthis & Hother).
    rewrite Hrun. intros [= <- <-].
    destruct (decide (other = this)) as [->|Hne].
    + rewrite Hthis. by apply prefix_app_r.
    + unfold registry. by rewrite Hother.
  - unfold add_callback. rewrite Hself. by intros [= <- <-].
Qed.

Lemma new_object_prefix w T parent other :
  registry w other
    `prefix_of` registry (new_object T parent w).2 other.
Proof.
  unfold new_object, registry. simpl.
  destruct (filters w !! other) as [f|] eqn:Hf.
  - by rewrite (lookup_app_l_Some _ _ _ _ Hf).
  - apply prefix_nil.
Qed.

Lemma new_filter_prefix w T parent r w' other :
  new_filter T parent w = (r, w') →
  registry w other `prefix_of` registry w' other.
Proof.
  unfold new_filter.
  erewrite bind_Returned; [|reflexivity].
  pose proof (new_object_prefix w T (Some parent) other) as Hobj.
  simpl in Hobj.
  set (w1 := World (filters w ++ [FilterObject T (Some parent) []]) (log w))
    in *.
  destruct (add_callback parent (BoundParse (length (filters w))) w1)
    as [r1 w2] eqn:Hadd.
  pose proof (add_callback_prefix _ _ _ _ _ other Hadd) as Hpre.
  destruct r1 as [[]|e|why].
  - erewrite bind_Returned; [|exact Hadd]. intros [= <- <-].
    by etrans.
  - erewrite bind_Thrown; [|exact Hadd]. intros [= <- <-]. by etrans.
  - erewrite bind_Stuck; [|exact Hadd]. intros [= <- <-]. by etrans.
Qed.

(** No operation of the engine removes or reorders what a registry holds. *)
Lemma perform_prefix (o : operation) w r w' other :
  perform o w = (r, w') →
  registry w other `prefix_of` registry w' other.
Proof.
  destruct o as [T|T parent|this cb|this buf]; simpl.
  - unfold new_root_filter. erewrite bind_Returned; [|reflexivity].
    intros [= <- <-]. apply new_object_prefix.
  - destruct (new_filter T parent w) as [[a|e|why] w1] eqn:Hnew.
    + erewrite bind_Returned; [|exact Hnew]. intros [= <- <-].
      by eapply new_filter_prefix.
    + erewrite bind_Thrown; [|exact Hnew]. intros [= <- <-].
      by eapply new_filter_prefix.
    + erewrite bind_Stuck; [|exact Hnew]. intros [= <- <-].
      by eapply new_filter_prefix.
  - apply add_callback_prefix.
  - destruct w as [fs l]. intros Hrun.
    destruct (traced_run _ _ _ _ _ _ (framed_parse fs this buf) Hrun)
      as (t & _ & -> & _).
    done.
Qed.

(** One callback application made by the dispatch of [this]: the
    invocation is logged, and whatever happens below is the business of
    filters at higher addresses. *)
Lemma call_callback_trace fuel fs this self v cb l r w' :
  wf_filters fs → fs !! this = Some self → cb ∈ m_callbacks self →
  call_callback (filter_parse fuel) this v cb (World fs l) = (r, w') →
  ∃ t1, w' = World fs (l ++ Invoked this cb v :: t1) ∧
        invocations_of this t1 = [].
Proof.
  intros Hwf Hself Hcb. unfold call_callback.
  erewrite bind_Returned; [|reflexivity]. simpl.
  destruct cb as [name body|c'].
  - exists []. split; [|done].
    destruct (body v); injection H0 as <- <-; done.
  - intros Hrun.
    destruct (traced_run _ _ _ _ _ _
                (owners_filter_parse fs fuel c' v Hwf) Hrun)
      as (t1 & Hown & -> & _).
    exists t1. split; [by rewrite <- app_assoc|].
    destruct (Hwf this self c' Hself Hcb) as [Hlt _].
    by eapply invocations_of_owners_from.
Qed.

Lemma for_each_invocations fuel fs this self v cbs l r w' :
  wf_filters fs → fs !! this = Some self → cbs ⊆ m_callbacks self →
  for_each (call_callback (filter_parse fuel) this v) cbs (World fs l)
    = (r, w') →
  ∃ t, w' = World fs (l ++ t) ∧
       invocations_of this t `prefix_of` map (λ cb, Invoked this cb v) cbs ∧
       (r = Returned tt →
        invocations_of this t = map (λ cb, Invoked this cb v) cbs).
Proof.
  intros Hwf Hself. revert l.
  induction cbs as [|cb cbs IH]; intros l Hsub; simpl.
  { intros [= <- <-]. exists []. by rewrite app_nil_r. }
  destruct (call_callback (filter_parse fuel) this v cb (World fs l))
    as [r1 w1] eqn:Hcall.
  assert (Hcb : cb ∈ m_callbacks self) by (apply Hsub; by left).
  assert (Hcbs : cbs ⊆ m_callbacks self)
    by (intros x Hx; apply Hsub; by right).
  destruct (call_callback_trace _ _ _ _ _ _ _ _ _ Hwf Hself Hcb Hcall)
    as (t1 & -> & Hnone).
  assert (Hhead : invocations_of this (Invoked this cb v :: t1)
                  = [Invoked this cb v]).
  { unfold invocations_of in *. rewrite filter_cons_True; [|done].
    by rewrite Hnone. }
  destruct r1 as [[]|e|why].
  - erewrite bind_Returned; [|exact Hcall]. intros Hrest.
    destruct (IH _ Hcbs Hrest) as (t2 & -> & Hpre & Hall).
    exists ((Invoked this cb v :: t1) ++ t2).
    split; [by rewrite <- app_assoc|].
    unfold invocations_of in *. rewrite filter_app, Hhead. simpl.
    split; [by apply prefix_cons|]. intros Hr. by rewrite Hall.
  - erewrite bind_Thrown; [|exact Hcall]. intros [= <- <-].
    exists (Invoked this cb v :: t1). rewrite Hhead.
    split; [done|]. split; [|done]. apply prefix_cons, prefix_nil.
  - erewrite bind_Stuck; [|exact Hcall]. intros [= <- <-].
    exists (Invoked this cb v :: t1). rewrite Hhead.
    split; [done|]. split; [|done]. apply prefix_cons, prefix_nil.
Qed.

(** The invocations made by the dispatch of a filter are an initial
    segment of its registry, in order, and all of it when the dispatch
    returns. *)
Lemma frame_handled_invocations fuel fs this v l r w' :
  wf_filters fs →
  frame_handled fuel this v (World fs l) = (r, w') →
  ∃ t, w' = World fs (l ++ t) ∧
       invocations_of this t
         `prefix_of` map (λ cb, Invoked this cb v)
                         (registry (World fs l) this) ∧
       (r = Returned tt →
        invocations_of this t
          = map (λ cb, Invoked this cb v) (registry (World fs l) this)).
Proof.
  intros Hwf.
  unfold frame_handled, frame_handled_with, registry. simpl.
  destruct (fs !! this) as [self|] eqn:Hself.
  - rewrite (bind_Returned _ _ _ _ _ (get_filter_Some _ _ l _ Hself)).
    by apply for_each_invocations with (self := self).
  - rewrite (bind_Stuck _ _ _ _ _ (get_filter_None _ _ l Hself)).
    intros [= <- <-]. exists []. rewrite app_nil_r.
    split; [done|]. split; [apply prefix_nil|done].
Qed.

End Registry.

(** ** Failures and siblings *)

Section Isolation.
Context {frame_type : Type} `{OSIFrameType frame_type}.

Abbreviation store := (list (filter_object frame_type)).
Abbreviation trace := (list (event frame_type)).
Abbreviation M := (M frame_type).

Implicit Types (fs : store) (t : trace) (w : world frame_type).

Lemma for_each_app {A} (f : A → M unit) (l1 l2 : list A) w :
  for_each f (l1 ++ l2) w = (for_each f l1;; for_each f l2) w.
Proof.
  revert w. induction l1 as [|x l1 IH]; intros w; simpl.
  - done.
  - unfold mbind, M_bind, bind in *.
    destruct (f x w) as [[[]|e|why] w1]; [apply IH|done..].
Qed.

(** C10, as the code has it. When a callback of a registry throws, the
    callbacks registered after it are not invoked and the exception leaves
    [frame_handled]. It then meets the [try] block of the [parse] that
    called [frame_handled], which encloses the dispatch: a
    [std::runtime_error] is caught there, and [parse] returns normally to
    its caller; any other exception goes on to the caller of [parse],
    which for a non-root filter is the dispatch of its parent. *)
Theorem throwing_callback_aborts_dispatch (fuel : nat) fs (this : nat)
    (self : filter_object frame_type) (v : const_helper frame_type)
    (before after : list (callback frame_type)) (cb : callback frame_type)
    (l : trace) (w1 w2 : world frame_type) (e : exception) :
  fs !! this = Some self →
  m_callbacks self = before ++ cb :: after →
  for_each (call_callback (filter_parse fuel) this v) before (World fs l)
    = (Returned tt, w1) →
  call_callback (filter_parse fuel) this v cb w1 = (Thrown e, w2) →
  let outcome := match e with
                 | runtime_error _ => Returned tt
                 | other_exception _ => Thrown e
                 end in
  frame_handled fuel this v (World fs l) = (Thrown e, w2) ∧
  (∀ buf, frame_parse (filter_frame_type self) buf = Returned v →
          root_parse fuel this buf (World fs l) = (outcome, w2)) ∧
  (∀ pv, frame_parent_match (filter_frame_type self) pv = true →
         frame_parse (filter_frame_type self) (payload pv) = Returned v →
         filter_parse (S fuel) this pv (World fs l) = (outcome, w2)).
Proof.
  intros Hself Hcbs Hbefore Hcb outcome.
  assert (Hdispatch : frame_handled fuel this v (World fs l) = (Thrown e, w2)).
  { unfold frame_handled, frame_handled_with.
    rewrite (bind_Returned _ _ _ _ _ (get_filter_Some _ _ l _ Hself)).
    rewrite Hcbs, for_each_app.
    erewrite bind_Returned; [|exact Hbefore]. simpl.
    by erewrite bind_Thrown. }
  split; [done|]. split.
  - intros buf Hparse. unfold root_parse.
    rewrite (bind_Returned _ _ _ _ _ (get_filter_Some _ _ l _ Hself)).
    unfold try_catch_runtime_error.
    erewrite bind_Returned; [|unfold lift; by rewrite Hparse].
    rewrite Hdispatch. by destruct e.
  - intros pv Hmatch Hparse. simpl.
    rewrite (bind_Returned _ _ _ _ _ (get_filter_Some _ _ l _ Hself)).
    rewrite Hmatch. unfold try_catch_runtime_error.
    erewrite bind_Returned; [|unfold lift; by rewrite Hparse].
    fold (frame_handled fuel this v). rewrite Hdispatch. by destruct e.
Qed.




(** When a loop returns, each of its elements was applied, and returned. *)
Lemma for_each_returned_elem {A} fs (f : A → M unit) (xs : list A) x l w' :
  (∀ y, traced (λ _, True) fs (f y)) →
  for_each f xs (World fs l) = (Returned tt, w') → x ∈ xs →
  ∃ t1 tx t2, w' = World fs (l ++ t1 ++ tx ++ t2) ∧
    f x (World fs (l ++ t1)) = (Returned tt, World fs ((l ++ t1) ++ tx)).
Proof.
  intros Hf. revert l. induction xs as [|y xs IH]; intros l; simpl.
  { intros _ Hin. by apply elem_of_nil in Hin. }
  destruct (f y (World fs l)) as [r1 w1] eqn:Hy.
  destruct (traced_run _ _ _ _ _ _ (Hf y) Hy) as (ty & _ & -> & _).
  destruct r1 as [[]|e1|why].
  - erewrite bind_Returned; [|exact Hy]. intros Hrest Hin.
    destruct (traced_run _ _ _ _ _ _
                (traced_for_each (λ _, True) fs f xs I (λ _ _ _ _, I)
                   (λ y _, Hf y)) Hrest) as (ts & _ & -> & _).
    apply elem_of_cons in Hin as [->|Hin].
    + exists [], ty, ts. rewrite app_nil_r. simpl.
      split; [by rewrite <- app_assoc|done].
    + destruct (IH _ Hrest Hin) as (t1 & tx & t2 & Hw & Hx).
      exists (ty ++ t1), tx, t2. split.
      * rewrite Hw. by rewrite <- !app_assoc.
      * rewrite app_assoc. exact Hx.
  - erewrite bind_Thrown; [|exact Hy]. done.
  - erewrite bind_Stuck; [|exact Hy]. done.
Qed.

End Isolation.

(** ** Depth *)

Section Depth.
Context {frame_type : Type} `{OSIFrameType frame_type}.

(** C5, as the code has it. One buffer that parses at the three levels of
    a tree root → L2 → L3, with one observer per level, none of which
    throws, invokes each of the three observers exactly once. The order is
    the registration order of each registry: root, L2, L3 when every
    observer was registered before the child filter of its level was
    constructed; L3, L2, root when the three filters were constructed
    first and the observers registered afterwards. *)
Theorem depth_propagation (T1 T2 T3 : frame_type) (n1 n2 n3 : nat)
    (body1 body2 body3 : const_helper frame_type → option exception)
    (buf : const_buffer) (v1 v2 v3 : const_helper frame_type) :
  frame_parse T1 buf = Returned v1 →
  frame_parent_match T2 v1 = true →
  frame_parse T2 (payload v1) = Returned v2 →
  frame_parent_match T3 v2 = true →
  frame_parse T3 (payload v2) = Returned v3 →
  body1 v1 = None → body2 v2 = None → body3 v3 = None →
  (∃ w', run (root ← three_levels_observers_first T1 T2 T3
                       (Observer n1 body1) (Observer n2 body2)
                       (Observer n3 body3);
              parse root buf) = (Returned tt, w') ∧
         observers_fired (log w') = [(n1, v1); (n2, v2); (n3, v3)]) ∧
  (∃ w', run (root ← three_levels_filters_first T1 T2 T3
                       (Observer n1 body1) (Observer n2 body2)
                       (Observer n3 body3);
              parse root buf) = (Returned tt, w') ∧
         observers_fired (log w') = [(n3, v3); (n2, v2); (n1, v1)]).
Proof.
  intros Hp1 Hm2 Hp2 Hm3 Hp3 Hb1 Hb2 Hb3.
  split; eexists.
  - split.
    + cbv -[frame_parse payload frame_parent_match]. rewrite Hp1.
      cbv -[frame_parse payload frame_parent_match]. rewrite Hb1.
      cbv -[frame_parse payload frame_parent_match]. rewrite Hm2, Hp2.
      cbv -[frame_parse payload frame_parent_match]. rewrite Hb2.
      cbv -[frame_parse payload frame_parent_match]. rewrite Hm3, Hp3.
      cbv -[frame_parse payload frame_parent_match]. rewrite Hb3.
      reflexivity.
    + reflexivity.
  - split.
    + cbv -[frame_parse payload frame_parent_match]. rewrite Hp1.
      cbv -[frame_parse payload frame_parent_match]. rewrite Hm2, Hp2.
      cbv -[frame_parse payload frame_parent_match]. rewrite Hm3, Hp3.
      cbv -[frame_parse payload frame_parent_match]. rewrite Hb3.
      cbv -[frame_parse payload frame_parent_match]. rewrite Hb2.
      cbv -[frame_parse payload frame_parent_match]. rewrite Hb1.
      reflexivity.
    + reflexivity.
Qed.
End Depth.

(** ** Well-formed stores *)

Section WellFormed.
Context {frame_type : Type} `{OSIFrameType frame_type}.

Implicit Types (w : world frame_type).

Lemma wf_filters_nil : wf_filters (frame_type:=frame_type) [].
Proof. intros i f c Hi. by rewrite lookup_nil in Hi. Qed.

Lemma wf_new_object w T parent :
  wf_filters (filters w) →
  wf_filters (filters (new_object T parent w).2).
Proof.
  intros Hwf i f c Hi Hin. simpl in *.
  apply lookup_app_Some in Hi as [Hi|[Hge Hi]].
  - destruct (Hwf i f c Hi Hin) as (Hlt & g & Hg & Hparent).
    split; [done|]. exists g. split; [|done].
    by apply lookup_app_l_Some.
  - apply list_lookup_singleton_Some in Hi as [_ <-].
    simpl in Hin. by apply elem_of_nil in Hin.
Qed.

Lemma wf_add_callback w this cb r w' :
  wf_filters (filters w) →
  (∀ c, cb = BoundParse c →
        this < c ∧ ∃ g, filters w !! c = Some g ∧ filter_parent g = Some this) →
  add_callback this cb w = (r, w') →
  wf_filters (filters w').
Proof.
  intros Hwf Hcb. unfold add_callback.
  destruct (filters w !! this) as [self|] eqn:Hself;
    [|by intros [= <- <-]].
  intros [= <- <-]. simpl.
  pose proof (lookup_lt_Some _ _ _ Hself) as Hthis.
  assert (Hkeep : ∀ i c g,
    i < c → filters w !! c = Some g → filter_parent g = Some i →
    ∃ g', <[this := FilterObject (filter_frame_type self) (filter_parent self)
                      (m_callbacks self ++ [cb])]> (filters w) !! c = Some g' ∧
          filter_parent g' = Some i).
  { intros i c g Hlt Hg Hparent.
    destruct (decide (c = this)) as [->|Hne].
    - rewrite list_lookup_insert_eq; [|done]. eexists. split; [done|].
      simpl. congruence.
    - rewrite list_lookup_insert_ne; [|done]. eauto. }
  intros i f c Hi Hin.
  destruct (decide (i = this)) as [->|Hne].
  - rewrite list_lookup_insert_eq in Hi; [|done]. injection Hi as <-.
    simpl in Hin. apply elem_of_app in Hin as [Hin|Hin].
    + destruct (Hwf this self c Hself Hin) as (Hlt & g & Hg & Hparent).
      split; [done|]. by eapply Hkeep.
    + apply list_elem_of_singleton in Hin.
      destruct (Hcb c (eq_sym Hin)) as (Hlt & g & Hg & Hparent).
      split; [done|]. by eapply Hkeep.
  - rewrite list_lookup_insert_ne in Hi; [|done].
    destruct (Hwf i f c Hi Hin) as (Hlt & g & Hg & Hparent).
    split; [done|]. by eapply Hkeep.
Qed.

Lemma wf_new_filter w T parent r w' :
  wf_filters (filters w) → parent < length (filters w) →
  new_filter T parent w = (r, w') →
  wf_filters (filters w').
Proof.
  intros Hwf Hparent. unfold new_filter.
  erewrite bind_Returned; [|reflexivity].
  pose proof (wf_new_object w T (Some parent) Hwf) as Hwf1. simpl in Hwf1.
  set (w1 := World (filters w ++ [FilterObject T (Some parent) []]) (log w))
    in *.
  destruct (add_callback parent (BoundParse (length (filters w))) w1)
    as [r1 w2] eqn:Hadd.
  assert (Hwf2 : wf_filters (filters w2)).
  { eapply (wf_add_callback w1); [exact Hwf1| |exact Hadd].
    intros c [= <-]. split; [done|].
    exists (FilterObject T (Some parent) []). split; [|done].
    simpl. rewrite lookup_app_r; [|done]. by rewrite Nat.sub_diag. }
  destruct r1 as [[]|e|why].
  - erewrite bind_Returned; [|exact Hadd]. by intros [= <- <-].
  - erewrite bind_Thrown; [|exact Hadd]. by intros [= <- <-].
  - erewrite bind_Stuck; [|exact Hadd]. by intros [= <- <-].
Qed.

Lemma wf_perform (o : operation) w r w' :
  wf_filters (filters w) → client_operation w o →
  perform o w = (r, w') → wf_filters (filters w').
Proof.
  intros Hwf Hclient.
  destruct o as [T|T parent|this cb|this buf]; simpl in *.
  - unfold new_root_filter. erewrite bind_Returned; [|reflexivity].
    intros [= <- <-]. by apply (wf_new_object w T None).
  - destruct (new_filter T parent w) as [[a|e|why] w1] eqn:Hnew.
    + erewrite bind_Returned; [|exact Hnew]. intros [= <- <-].
      by eapply wf_new_filter.
    + erewrite bind_Thrown; [|exact Hnew]. intros [= <- <-].
      by eapply wf_new_filter.
    + erewrite bind_Stuck; [|exact Hnew]. intros [= <- <-].
      by eapply wf_new_filter.
  - destruct cb as [name body|c]; [|done].
    apply wf_add_callback; [done|]. by intros c.
  - destruct w as [fs l]. intros Hrun.
    destruct (traced_run _ _ _ _ _ _ (framed_parse fs this buf) Hrun)
      as (t & _ & -> & _).
    done.
Qed.

(** Every world client code can build has a well-formed store. *)
Lemma reachable_wf w : reachable w → wf_filters (filters w).
Proof.
  induction 1 as [|w o r w' _ IH Hclient Hperform].
  - apply wf_filters_nil.
  - by eapply wf_perform.
Qed.
End WellFormed.

(** ** The engine at work on the small protocol stack *)

Ltac wf_by_cases :=
  let i := fresh "i" in let Hi := fresh "Hi" in let Hin := fresh "Hin" in
  intros i ? ? Hi Hin;
  destruct i as [|[|[|i]]]; simpl in Hi; try done;
  injection Hi as <-; simpl in Hin;
  repeat (apply elem_of_cons in Hin as [Hin|Hin]; [try done|]);
  try (by apply elem_of_nil in Hin);
  injection Hin as ->; (split; [lia|eexists; split; reflexivity]).

Lemma three_level_world_wf : wf_filters (filters three_level_world).
Proof. wf_by_cases. Qed.

Lemma fan_out_world_wf : wf_filters (filters fan_out_world).
Proof. wf_by_cases. Qed.

(** The three scenarios of the parser on a 4-byte header: three bytes are
    too few, four bytes with a wrong first byte are malformed, six good
    bytes parse. *)
Lemma frame_parse_outcomes_witness :
  buffer_size short_buffer < sizeof Link ∧
  frame_parse Link short_buffer = Thrown TooSmall ∧
  frame_parse Link bad_link_buffer = Thrown Malformed ∧
  frame_parse Link six_byte_buffer = Returned (helper Link six_byte_buffer).
Proof.
  assert (Hshort : buffer_size short_buffer < sizeof Link) by (cbv; lia).
  split; [exact Hshort|]. split; [|split].
  - destruct (frame_parse_outcomes Link short_buffer) as [[_ Hsmall] _].
    exact (Hsmall Hshort).
  - destruct (frame_parse_outcomes Link bad_link_buffer) as (_ & Hbad & _).
    apply Hbad; [cbv; lia|reflexivity].
  - destruct (frame_parse_outcomes Link six_byte_buffer) as (_ & _ & Hok).
    apply Hok; [cbv; lia|reflexivity].
Defined.

(** A validator that checks the length itself changes nothing: the parser
    never shows it a buffer shorter than the header. *)
Lemma frame_cast_length_only_witness :
  (frame_cast Link short_buffer = None ↔
   frame_cast Link (ConstBuffer [xff; xfe; xfd]) = None) ∧
  ∀ T buf, @frame_parse _ toy_frames T buf
           = @frame_parse _ toy_frames_guarded T buf.
Proof.
  destruct (@frame_cast_length_only toy_frame) as (Hlen & _ & _ & Hval).
  split.
  - apply (Hlen toy_frames Link). reflexivity.
  - apply (Hval toy_frames toy_frames_guarded).
    + reflexivity.
    + intros h Hle. simpl in *. unfold buffer_size in Hle.
      apply Nat.leb_le in Hle. rewrite Hle. reflexivity.
Defined.

(** Six bytes under a 4-byte header: the payload is the last two. *)
Lemma frame_parse_view_witness :
  ∃ v, frame_parse Link six_byte_buffer = Returned v ∧
       frame v = [x01; x00; x00; x00] ∧
       const_bytes (payload v) = [xaa; xbb].
Proof.
  destruct (frame_parse_view Link six_byte_buffer)
    as (v & Hv & _ & Hframe & _ & _ & Hpayload & _).
  - eexists. reflexivity.
  - reflexivity.
  - exists v. rewrite Hframe, Hpayload. repeat split; [exact Hv|..]; reflexivity.
Defined.

Lemma check_frame_mutable_delegates_witness :
  check_frame_mutable
    (MutableHelper Link (MutableBuffer [x01; x00; x00; x00; xaa; xbb]))
  = check_frame (helper Link six_byte_buffer).
Proof.
  destruct (@check_frame_mutable_delegates toy_frame _) as (_ & Hsame & _).
  apply Hsame; reflexivity.
Defined.

(** Three bytes handed to a [Link] root filter: nothing happens. *)
Lemma root_parse_drops_failure_witness :
  frame_parse Link short_buffer = Thrown TooSmall ∧
  parse 0 short_buffer link_world = (Returned tt, link_world).
Proof.
  split; [reflexivity|].
  destruct (root_parse_drops_failure 0 link_world 0
              (FilterObject Link None [quiet 1]) short_buffer TooSmall)
    as (_ & _ & Hparse); [reflexivity..|exact Hparse].
Defined.

(** The toy stack parses [nested_buffer] at three levels. *)
Lemma depth_propagation_witness :
  (∃ w', run (root ← three_levels_observers_first Link Net Transport
                       (quiet 1) (quiet 2) (quiet 3);
              parse root nested_buffer) = (Returned tt, w') ∧
         observers_fired (log w')
         = [(1, link_view); (2, net_view); (3, transport_view)]) ∧
  (∃ w', run (root ← three_levels_filters_first Link Net Transport
                       (quiet 1) (quiet 2) (quiet 3);
              parse root nested_buffer) = (Returned tt, w') ∧
         observers_fired (log w')
         = [(3, transport_view); (2, net_view); (1, link_view)]).
Proof.
  apply (depth_propagation Link Net Transport 1 2 3
           (λ _, None) (λ _, None) (λ _, None) nested_buffer
           link_view net_view transport_view); reflexivity.
Defined.

(** C5 fails as stated. In the three-level tree whose filters were all
    constructed before the observers were registered, a buffer valid at
    the three levels invokes the observers in the order L3, L2, root; and
    in the tree built observers first, a root observer that throws keeps
    the L2 and L3 observers from being invoked at all. *)
Lemma depth_propagation_counterexample :
  (∃ w', run (root ← three_levels_filters_first Link Net Transport
                       (quiet 1) (quiet 2) (quiet 3);
              parse root nested_buffer) = (Returned tt, w') ∧
         observers_fired (log w')
         = [(3, transport_view); (2, net_view); (1, link_view)] ∧
         observers_fired (log w')
         ≠ [(1, link_view); (2, net_view); (3, transport_view)]) ∧
  (∃ w', run (root ← three_levels_observers_first Link Net Transport
                       (throwing 1 (runtime_error "boom"))
                       (quiet 2) (quiet 3);
              parse root nested_buffer) = (Returned tt, w') ∧
         observers_fired (log w') = [(1, link_view)]).
Proof.
  split; eexists; (split; [reflexivity|]); [|reflexivity].
  split; [reflexivity|discriminate].
Qed.

(** A root observer throws a [std::runtime_error]: the observer after it
    is not invoked, and [parse] returns normally. *)
Lemma throwing_callback_aborts_dispatch_witness :
  frame_handled 1 0 link_view throwing_root_world
    = (Thrown (runtime_error "boom"),
       World (filters throwing_root_world)
             [Invoked 0 (throwing 1 (runtime_error "boom")) link_view]) ∧
  root_parse 1 0 nested_buffer throwing_root_world
    = (Returned tt,
       World (filters throwing_root_world)
             [Invoked 0 (throwing 1 (runtime_error "boom")) link_view]).
Proof.
  destruct (throwing_callback_aborts_dispatch 1 (filters throwing_root_world) 0
              (FilterObject Link None
                 [throwing 1 (runtime_error "boom"); quiet 2])
              link_view [] [quiet 2] (throwing 1 (runtime_error "boom"))
              [] throwing_root_world
              (World (filters throwing_root_world)
                 [Invoked 0 (throwing 1 (runtime_error "boom")) link_view])
              (runtime_error "boom"))
    as (Hdispatch & Hroot & _); [reflexivity..|].
  split; [exact Hdispatch|]. apply Hroot. reflexivity.
Defined.

(** C10 fails as stated. The first observer of the [Net] child throws a
    [std::runtime_error] during the dispatch of the child. The second
    observer of the child is not invoked; but the exception is caught in
    the [parse] of the child itself, which returns normally: nothing
    unwinds into the parent, whose dispatch goes on to its next callback
    and whose [parse] returns normally. *)
Lemma throwing_callback_counterexample :
  frame_handled 1 1 net_view throwing_child_world
    = (Thrown (runtime_error "boom"),
       World (filters throwing_child_world)
             [Invoked 1 (throwing 5 (runtime_error "boom")) net_view]) ∧
  filter_parse 2 1 link_view throwing_child_world
    = (Returned tt,
       World (filters throwing_child_world)
             [Invoked 1 (throwing 5 (runtime_error "boom")) net_view]) ∧
  parse 0 nested_buffer throwing_child_world
    = (Returned tt,
       World (filters throwing_child_world)
             [Invoked 0 (BoundParse 1) link_view;
              Invoked 1 (throwing 5 (runtime_error "boom")) net_view;
              Invoked 0 (quiet 9) link_view]).
Proof. repeat split. Qed.


(** * Further properties of the engine *)

(** ** The two [parse] functions, case by case *)

Section Unfolding.
Context {frame_type : Type} `{OSIFrameType frame_type}.

Abbreviation store := (list (filter_object frame_type)).
Abbreviation trace := (list (event frame_type)).
Abbreviation M := (M frame_type).

Implicit Types (fs : store) (t : trace) (w : world frame_type).

Lemma try_catch_lift_frame_parse fs l (T : frame_type) (buf : const_buffer)
    (k : const_helper frame_type → M unit) :
  try_catch_runtime_error (lift (frame_parse T buf) ≫= k) (World fs l)
  = match frame_parse T buf with
    | Returned v => try_catch_runtime_error (k v) (World fs l)
    | _ => (Returned tt, World fs l)
    end.
Proof.
  unfold try_catch_runtime_error, mbind, M_bind, bind, lift.
  destruct (frame_parse T buf) as [v|e|why] eqn:Hparse; [done| |].
  - by destruct (frame_parse_throws _ _ _ Hparse) as [-> | ->].
  - by destruct (frame_parse_not_stuck T buf why).
Qed.

Lemma filter_parse_S fuel fs l this pv :
  filter_parse (S fuel) this pv (World fs l)
  = match fs !! this with
    | None => (Stuck dangling_filter, World fs l)
    | Some self =>
        if frame_parent_match (filter_frame_type self) pv then
          match frame_parse (filter_frame_type self) (payload pv) with
          | Returned v =>
              try_catch_runtime_error
                (for_each (call_callback (filter_parse fuel) this v)
                          (m_callbacks self)) (World fs l)
          | _ => (Returned tt, World fs l)
          end
        else (Returned tt, World fs l)
    end.
Proof.
  cbn [filter_parse].
  destruct (fs !! this) as [self|] eqn:Hself.
  - rewrite (bind_Returned _ _ _ _ _ (get_filter_Some _ _ l _ Hself)).
    destruct (frame_parent_match _ _); [|done].
    rewrite try_catch_lift_frame_parse.
    destruct (frame_parse _ _); [|done..].
    unfold try_catch_runtime_error, frame_handled_with.
    by rewrite (bind_Returned _ _ _ _ _ (get_filter_Some _ _ l _ Hself)).
  - by rewrite (bind_Stuck _ _ _ _ _ (get_filter_None _ _ l Hself)).
Qed.

Lemma root_parse_cases fuel fs l this buf :
  root_parse fuel this buf (World fs l)
  = match fs !! this with
    | None => (Stuck dangling_filter, World fs l)
    | Some self =>
        match frame_parse (filter_frame_type self) buf with
        | Returned v =>
            try_catch_runtime_error
              (for_each (call_callback (filter_parse fuel) this v)
                        (m_callbacks self)) (World fs l)
        | _ => (Returned tt, World fs l)
        end
    end.
Proof.
  unfold root_parse.
  destruct (fs !! this) as [self|] eqn:Hself.
  - rewrite (bind_Returned _ _ _ _ _ (get_filter_Some _ _ l _ Hself)).
    rewrite try_catch_lift_frame_parse.
    destruct (frame_parse _ _); [|done..].
    unfold try_catch_runtime_error, frame_handled, frame_handled_with.
    by rewrite (bind_Returned _ _ _ _ _ (get_filter_Some _ _ l _ Hself)).
  - by rewrite (bind_Stuck _ _ _ _ _ (get_filter_None _ _ l Hself)).
Qed.

Lemma try_catch_inv (m : M unit) w r w' :
  try_catch_runtime_error m w = (r, w') →
  ∃ r0, m w = (r0, w') ∧
        r = match r0 with Thrown (runtime_error _) => Returned tt | _ => r0 end.
Proof.
  unfold try_catch_runtime_error.
  destruct (m w) as [[[]|[msg|msg]|why] w1]; intros [= <- <-]; eauto.
Qed.

(** A loop whose every step appends events that satisfy [P] appends events
    that satisfy [P]. *)
Lemma for_each_Forall {A} fs (P : event frame_type → Prop)
    (f : A → M unit) (xs : list A) l r w' :
  (∀ x l r w', x ∈ xs → f x (World fs l) = (r, w') →
               ∃ t, w' = World fs (l ++ t) ∧ Forall P t) →
  for_each f xs (World fs l) = (r, w') →
  ∃ t, w' = World fs (l ++ t) ∧ Forall P t.
Proof.
  revert l. induction xs as [|x xs IH]; intros l Hf; cbn [for_each].
  { intros [= <- <-]. exists []. by rewrite app_nil_r. }
  destruct (f x (World fs l)) as [r1 w1] eqn:Hx.
  destruct (Hf x l r1 w1 ltac:(by left) Hx) as (t1 & -> & Ht1).
  destruct r1 as [[]|e|why].
  - rewrite (bind_Returned _ _ _ _ _ Hx). intros Hrest.
    destruct (IH (l ++ t1)
                (λ y l r w' Hy, Hf y l r w' ltac:(by right)) Hrest)
      as (t2 & -> & Ht2).
    exists (t1 ++ t2). split; [by rewrite app_assoc|by apply Forall_app].
  - rewrite (bind_Thrown _ _ _ _ _ Hx). intros [= <- <-]. eauto.
  - rewrite (bind_Stuck _ _ _ _ _ Hx). intros [= <- <-]. eauto.
Qed.
End Unfolding.

(** ** Which callbacks are invoked, and on what *)

Section Soundness.
Context {frame_type : Type} `{OSIFrameType frame_type}.

Abbreviation store := (list (filter_object frame_type)).
Abbreviation trace := (list (event frame_type)).

Implicit Types (fs : store) (t : trace) (w : world frame_type).

Lemma dispatch_accounted fuel fs q self vq cbs l r w' :
  (∀ c pv l r w', filter_parse fuel c pv (World fs l) = (r, w') →
     ∃ t, w' = World fs (l ++ t) ∧ Forall (child_accounted fs c pv) t) →
  fs !! q = Some self → cbs ⊆ m_callbacks self →
  for_each (call_callback (filter_parse fuel) q vq) cbs (World fs l) = (r, w') →
  ∃ t, w' = World fs (l ++ t) ∧ Forall (accounted fs q vq) t.
Proof.
  intros Hparse Hself Hsub. apply for_each_Forall.
  clear l r w'. intros cb l r w' Hcb.
  assert (Hown : accounted fs q vq (Invoked q cb vq)).
  { split; [apply reaches_here|]. exists self. split; [done|]. by apply Hsub. }
  unfold call_callback. erewrite bind_Returned; [|reflexivity]. simpl.
  destruct cb as [name body|c1].
  - intros Hrun. exists [Invoked q (Observer name body) vq].
    split; [|by apply Forall_singleton].
    by destruct (body vq); injection Hrun as <- <-.
  - intros Hrun.
    destruct (Hparse _ _ _ _ _ Hrun) as (t1 & -> & Ht1).
    exists (Invoked q (BoundParse c1) vq :: t1).
    split; [by rewrite <- app_assoc|].
    apply Forall_cons. split; [done|].
    eapply Forall_impl; [exact Ht1|].
    intros e (g & v1 & Hg & Hmatch & Hv1 & Hreach & Hentry).
    split; [|done]. eapply reaches_child; eauto.
Qed.

Lemma filter_parse_accounted fuel fs c pv l r w' :
  filter_parse fuel c pv (World fs l) = (r, w') →
  ∃ t, w' = World fs (l ++ t) ∧ Forall (child_accounted fs c pv) t.
Proof.
  revert c pv l r w'. induction fuel as [|fuel IH]; intros c pv l r w'.
  { intros [= <- <-]. exists []. by rewrite app_nil_r. }
  rewrite filter_parse_S.
  assert (Hnothing : ∀ r0, (r0, World fs l) = (r, w') →
    ∃ t, w' = World fs (l ++ t) ∧ Forall (child_accounted fs c pv) t).
  { intros r0 [= <- <-]. exists []. by rewrite app_nil_r. }
  destruct (fs !! c) as [self|] eqn:Hself; [|apply Hnothing].
  destruct (frame_parent_match _ _) eqn:Hmatch; [|apply Hnothing].
  destruct (frame_parse _ _) as [v1| |] eqn:Hv1; [|apply Hnothing..].
  intros Hrun. apply try_catch_inv in Hrun as (r0 & Hrun & _).
  destruct (dispatch_accounted fuel fs c self v1 _ l r0 w' IH Hself
              ltac:(done) Hrun) as (t & -> & Ht).
  exists t. split; [done|].
  eapply Forall_impl; [exact Ht|]. intros e He. by exists self, v1.
Qed.

(** X1. Whatever the store and the buffer, every callback invocation made
    during [parse] on a root filter is accounted for: the buffer parses as a
    frame of the root, and the invocation is made by a filter reached from
    the root through a chain of registered children whose encapsulation
    predicates accept and whose parsers succeed, on the view so obtained,
    of a callback of the registry of that filter. *)
Theorem dispatch_sound w (this : nat) (buf : const_buffer) r w' :
  parse this buf w = (r, w') →
  ∃ t, w' = World (filters w) (log w ++ t) ∧
       Forall (λ e, ∃ self v, filters w !! this = Some self ∧
                     frame_parse (filter_frame_type self) buf = Returned v ∧
                     accounted (filters w) this v e) t.
Proof.
  destruct w as [fs l]. unfold parse. simpl. rewrite root_parse_cases.
  assert (Hnothing : ∀ r0, (r0, World fs l) = (r, w') →
    ∃ t, w' = World fs (l ++ t) ∧
         Forall (λ e, ∃ self v, fs !! this = Some self ∧
                   frame_parse (filter_frame_type self) buf = Returned v ∧
                   accounted fs this v e) t).
  { intros r0 [= <- <-]. exists []. by rewrite app_nil_r. }
  destruct (fs !! this) as [self|] eqn:Hself; [|apply Hnothing].
  destruct (frame_parse _ _) as [v| |] eqn:Hv; [|apply Hnothing..].
  intros Hrun. apply try_catch_inv in Hrun as (r0 & Hrun & _).
  destruct (dispatch_accounted _ fs this self v _ l r0 w'
              (filter_parse_accounted _ fs) Hself ltac:(done) Hrun)
    as (t & -> & Ht).
  exists t. split; [done|].
  eapply Forall_impl; [exact Ht|]. intros e He. by exists self, v.
Qed.


(** A frame of the filter at [c]: a view of its frame type, over a buffer
    long enough for the header, that the validator accepts. *)
Lemma reaches_checked fs q vq c v :
  reaches fs q vq c v →
  const_bytes (const_helper_buffer v)
    `suffix_of` const_bytes (const_helper_buffer vq) ∧
  (c = q ∧ v = vq ∨
   ∃ g, fs !! c = Some g ∧ const_helper_type v = filter_frame_type g ∧
        sizeof (filter_frame_type g) ≤ buffer_size (const_helper_buffer v) ∧
        check_frame v = true).
Proof.
  induction 1 as [q vq|q g vq c1 g1 v1 c v Hq Hin Hc1 Hmatch Hv1 Hreach IH].
  - split; [done|by left].
  - destruct (frame_parse_Returned _ _ _ Hv1) as (Heq & Hsize & Hcheck).
    destruct IH as [Hsuffix IH]. split.
    + etrans; [exact Hsuffix|]. rewrite Heq. simpl. apply suffix_drop.
    + right. destruct IH as [[-> ->]|IH]; [|done].
      exists g1. subst v1. done.
Qed.

(** X2. Every view handed to a callback during [parse] on a root filter is
    a view of the frame type of the filter that invokes the callback, over
    a suffix of the submitted buffer that is at least as long as the header
    of that frame type, and the validator accepts it. *)
Theorem callbacks_get_checked_views w (this : nat) (buf : const_buffer) r w' :
  parse this buf w = (r, w') →
  ∃ t, w' = World (filters w) (log w ++ t) ∧
       Forall (λ e, ∃ g, filters w !! event_owner e = Some g ∧
                     const_helper_type (event_view e) = filter_frame_type g ∧
                     sizeof (filter_frame_type g)
                       ≤ buffer_size (const_helper_buffer (event_view e)) ∧
                     check_frame (event_view e) = true ∧
                     const_bytes (const_helper_buffer (event_view e))
                       `suffix_of` const_bytes buf) t.
Proof.
  intros Hrun. destruct w as [fs l]. simpl.
  unfold parse in Hrun. simpl in Hrun. rewrite root_parse_cases in Hrun.
  assert (Hnothing : ∀ r0, (r0, World fs l) = (r, w') →
    ∃ t, w' = World fs (l ++ t) ∧
      Forall (λ e, ∃ g, fs !! event_owner e = Some g ∧
                const_helper_type (event_view e) = filter_frame_type g ∧
                sizeof (filter_frame_type g)
                  ≤ buffer_size (const_helper_buffer (event_view e)) ∧
                check_frame (event_view e) = true ∧
                const_bytes (const_helper_buffer (event_view e))
                  `suffix_of` const_bytes buf) t).
  { intros r0 [= <- <-]. exists []. by rewrite app_nil_r. }
  destruct (fs !! this) as [self|] eqn:Hself; [|exact (Hnothing _ Hrun)].
  destruct (frame_parse _ _) as [v| |] eqn:Hv; [|exact (Hnothing _ Hrun)..].
  apply try_catch_inv in Hrun as (r0 & Hrun & _).
  destruct (dispatch_accounted _ fs this self v _ l r0 w'
              (filter_parse_accounted _ fs) Hself ltac:(done) Hrun)
    as (t & -> & Ht).
  exists t. split; [done|].
  destruct (frame_parse_Returned _ _ _ Hv) as (Heq & Hsize & Hcheck).
  eapply Forall_impl; [exact Ht|]. intros e [Hreach _].
  destruct (reaches_checked _ _ _ _ _ Hreach) as [Hsuffix Hcases].
  assert (Hbuf : const_bytes (const_helper_buffer (event_view e))
                 `suffix_of` const_bytes buf).
  { etrans; [exact Hsuffix|]. by rewrite Heq. }
  destruct Hcases as [[-> ->]|(g & Hg & Htype & Hlen & Hchk)].
  - exists self. subst v. done.
  - by exists g.
Qed.
End Soundness.

(** ** Exceptions that leave the engine *)

Section Exceptions.
Context {frame_type : Type} `{OSIFrameType frame_type}.

Abbreviation store := (list (filter_object frame_type)).
Abbreviation trace := (list (event frame_type)).
Abbreviation M := (M frame_type).

Implicit Types (fs : store) (t : trace) (w : world frame_type).

Lemma thrown_by_observer_app r t1 t2 :
  thrown_by_observer r t2 → thrown_by_observer r (t1 ++ t2).
Proof.
  intros Ht2 e He. destruct (Ht2 e He) as (t0 & owner & name & body & v & -> & Hb).
  exists (t1 ++ t0), owner, name, body, v. by rewrite app_assoc.
Qed.

Lemma for_each_thrown {A} fs (f : A → M unit) (xs : list A) l r w' :
  (∀ x l r w', x ∈ xs → f x (World fs l) = (r, w') →
               ∃ t, w' = World fs (l ++ t) ∧ thrown_by_observer r t) →
  for_each f xs (World fs l) = (r, w') →
  ∃ t, w' = World fs (l ++ t) ∧ thrown_by_observer r t.
Proof.
  revert l. induction xs as [|x xs IH]; intros l Hf; cbn [for_each].
  { intros [= <- <-]. exists []. by rewrite app_nil_r. }
  destruct (f x (World fs l)) as [r1 w1] eqn:Hx.
  destruct (Hf x l r1 w1 ltac:(by left) Hx) as (t1 & -> & Ht1).
  destruct r1 as [[]|e|why].
  - rewrite (bind_Returned _ _ _ _ _ Hx). intros Hrest.
    destruct (IH (l ++ t1)
                (λ y l r w' Hy, Hf y l r w' ltac:(by right)) Hrest)
      as (t2 & -> & Ht2).
    exists (t1 ++ t2). split; [by rewrite app_assoc|].
    by apply thrown_by_observer_app.
  - rewrite (bind_Thrown _ _ _ _ _ Hx). intros [= <- <-]. eauto.
  - rewrite (bind_Stuck _ _ _ _ _ Hx). intros [= <- <-]. eauto.
Qed.

Lemma dispatch_thrown fuel fs q vq cbs l r w' :
  (∀ c pv l r w', filter_parse fuel c pv (World fs l) = (r, w') →
     ∃ t, w' = World fs (l ++ t) ∧ thrown_by_observer r t) →
  for_each (call_callback (filter_parse fuel) q vq) cbs (World fs l) = (r, w') →
  ∃ t, w' = World fs (l ++ t) ∧ thrown_by_observer r t.
Proof.
  intros Hparse. apply for_each_thrown.
  clear l r w'. intros cb l r w' _.
  unfold call_callback. erewrite bind_Returned; [|reflexivity]. simpl.
  destruct cb as [name body|c1].
  - intros Hrun. exists [Invoked q (Observer name body) vq].
    destruct (body vq) as [e|] eqn:Hbody; injection Hrun as <- <-;
      (split; [done|]); [|done].
    intros e' [= <-]. by exists [], q, name, body, vq.
  - intros Hrun.
    destruct (Hparse _ _ _ _ _ Hrun) as (t1 & -> & Ht1).
    exists ([Invoked q (BoundParse c1) vq] ++ t1).
    split; [by rewrite <- app_assoc|]. by apply thrown_by_observer_app.
Qed.

Lemma try_catch_thrown (m : M unit) fs l r w' :
  (∀ r0 w0, m (World fs l) = (r0, w0) →
            ∃ t, w0 = World fs (l ++ t) ∧ thrown_by_observer r0 t) →
  try_catch_runtime_error m (World fs l) = (r, w') →
  ∃ t, w' = World fs (l ++ t) ∧ thrown_by_observer r t ∧
       ∀ msg, r ≠ Thrown (runtime_error msg).
Proof.
  intros Hm Hrun. apply try_catch_inv in Hrun as (r0 & Hrun & ->).
  destruct (Hm _ _ Hrun) as (t & -> & Ht).
  exists t. split; [done|].
  destruct r0 as [[]|[msg|msg]|why]; (split; [|done]); done.
Qed.

Lemma filter_parse_thrown fuel fs c pv l r w' :
  filter_parse fuel c pv (World fs l) = (r, w') →
  ∃ t, w' = World fs (l ++ t) ∧ thrown_by_observer r t ∧
       ∀ msg, r ≠ Thrown (runtime_error msg).
Proof.
  revert c pv l r w'. induction fuel as [|fuel IH]; intros c pv l r w'.
  { intros [= <- <-]. exists []. by rewrite app_nil_r. }
  rewrite filter_parse_S.
  assert (Hnothing : ∀ r0, (∀ e, r0 ≠ Thrown e) → (r0, World fs l) = (r, w') →
    ∃ t, w' = World fs (l ++ t) ∧ thrown_by_observer r t ∧
         ∀ msg, r ≠ Thrown (runtime_error msg)).
  { intros r0 Hr0 [= <- <-]. exists []. rewrite app_nil_r.
    split; [done|]. split; [|done]. intros e He. by destruct (Hr0 e). }
  destruct (fs !! c) as [self|]; [|by apply Hnothing].
  destruct (frame_parent_match _ _); [|by apply Hnothing].
  destruct (frame_parse _ _) as [v1| |]; [|by apply Hnothing..].
  apply try_catch_thrown. intros r0 w0. apply dispatch_thrown.
  intros c' pv' l' r' w'' Hrun.
  destruct (IH _ _ _ _ _ Hrun) as (t & -> & Ht & _). eauto.
Qed.

(** X3. The only exceptions that leave [parse] on a root filter are those
    an observer threw, and never a [std::runtime_error]: when [parse]
    completes by throwing [e], [e] is not of class [std::runtime_error],
    and the last invocation logged is that of an observer which throws
    [e] on the view it was handed. The errors of [frame_parse] never reach
    the caller. *)
Theorem escaping_exception_origin w (this : nat) (buf : const_buffer) e w' :
  parse this buf w = (Thrown e, w') →
  (∃ what, e = other_exception what) ∧
  ∃ t0 owner name body v,
    w' = World (filters w)
               (log w ++ t0 ++ [Invoked owner (Observer name body) v]) ∧
    body v = Some e.
Proof.
  destruct w as [fs l]. unfold parse. simpl. rewrite root_parse_cases.
  destruct (fs !! this) as [self|]; [|done].
  destruct (frame_parse _ _) as [v1| |]; [|done..].
  intros Hrun.
  apply try_catch_thrown in Hrun as (t & -> & Ht & Hclass).
  - split.
    + destruct e as [what|what]; [by destruct (Hclass what)|by exists what].
    + destruct (Ht e eq_refl) as (t0 & owner & name & body & v & -> & Hbody).
      by exists t0, owner, name, body, v.
  - intros r0 w0. apply dispatch_thrown.
    intros c' pv' l' r' w'' Hrun'.
    destruct (filter_parse_thrown _ _ _ _ _ _ _ Hrun') as (t & -> & Ht & _).
    eauto.
Qed.
End Exceptions.

(** ** When no observer throws *)

Section Completeness.
Context {frame_type : Type} `{OSIFrameType frame_type}.

Abbreviation store := (list (filter_object frame_type)).
Abbreviation trace := (list (event frame_type)).

Implicit Types (fs : store) (t : trace) (w : world frame_type).

Lemma quiet_dispatch_not_thrown fuel fs q self vq l r w' :
  no_observer_throws fs → fs !! q = Some self →
  for_each (call_callback (filter_parse fuel) q vq) (m_callbacks self)
    (World fs l) = (r, w') →
  ∀ e, r ≠ Thrown e.
Proof.
  intros Hquiet Hself Hrun e ->.
  destruct (dispatch_thrown fuel fs q vq _ l _ w'
              (λ c pv l r w' Hc,
                 let '(ex_intro _ t (conj Hw (conj Ht _))) :=
                   filter_parse_thrown fuel fs c pv l r w' Hc in
                 ex_intro _ t (conj Hw Ht)) Hrun)
    as (t & -> & Ht).
  destruct (dispatch_accounted fuel fs q self vq _ l _ _
              (filter_parse_accounted fuel fs) Hself ltac:(done) Hrun)
    as (t' & Heq & Hacc).
  injection Heq as Heq. apply app_inv_head in Heq. subst t'.
  destruct (Ht e eq_refl) as (t0 & owner & name & body & v & -> & Hbody).
  apply Forall_app in Hacc as [_ Hlast].
  apply Forall_singleton in Hlast as [_ (g & Hg & Hin)]. simpl in *.
  by rewrite (Hquiet owner g name body v Hg Hin) in Hbody.
Qed.

(** In a store whose observers never throw, a dispatch that returns has
    invoked every callback of every filter it leads to. *)
Lemma reaches_invoked fs q vq c v :
  wf_filters fs → no_observer_throws fs →
  reaches fs q vq c v →
  ∀ fuel l t,
    frame_handled fuel q vq (World fs l) = (Returned tt, World fs (l ++ t)) →
    ∀ g cb, fs !! c = Some g → cb ∈ m_callbacks g → Invoked c cb v ∈ t.
Proof.
  intros Hwf Hquiet.
  induction 1 as [q vq|q g vq c1 g1 v1 c v Hq Hin Hc1 Hmatch Hv1 Hreach IH];
    intros fuel l t Hrun gc cb Hgc Hcb.
  - destruct (frame_handled_invocations _ _ _ _ _ _ _ Hwf Hrun)
      as (t' & Heq & _ & Hall).
    injection Heq as Heq. apply app_inv_head in Heq. subst t'.
    assert (Hin : Invoked q cb vq ∈ invocations_of q t).
    { rewrite Hall; [|done]. unfold registry. simpl. rewrite Hgc.
      apply list_elem_of_fmap. by exists cb. }
    unfold invocations_of in Hin. by apply list_elem_of_filter in Hin as [_ ?].
  - unfold frame_handled, frame_handled_with in Hrun.
    rewrite (bind_Returned _ _ _ _ _ (get_filter_Some _ _ l _ Hq)) in Hrun.
    destruct (for_each_returned_elem fs _ _ (BoundParse c1) l _
                (framed_call_callback fs fuel q vq) Hrun Hin)
      as (t1 & tx & t2 & Hw & Hcall).
    injection Hw as Hw. apply app_inv_head in Hw. subst t.
    unfold call_callback in Hcall.
    erewrite bind_Returned in Hcall; [|reflexivity]. simpl in Hcall.
    destruct fuel as [|fuel]; [done|].
    rewrite filter_parse_S, Hc1, Hmatch, Hv1 in Hcall.
    apply try_catch_inv in Hcall as (r0 & Hcall & Hr0).
    assert (r0 = Returned tt) as ->.
    { destruct r0 as [[]|e|why]; [done| |done].
      by destruct (quiet_dispatch_not_thrown _ _ _ _ _ _ _ _
                     Hquiet Hc1 Hcall e). }
    destruct tx as [|ev tx]; [|].
    { rewrite app_nil_r in Hcall.
      destruct (traced_run _ _ _ _ _ _
                  (traced_for_each (λ _, True) fs _ _ I (λ _ _ _ _, I)
                     (λ y _, framed_call_callback fs fuel c1 v1 y)) Hcall)
        as (t' & _ & Heq & _).
      injection Heq as Heq.
      rewrite <- (app_nil_r (l ++ t1)) in Heq at 1.
      rewrite <- !app_assoc in Heq. do 2 apply app_inv_head in Heq.
      by destruct t'. }
    destruct (traced_run _ _ _ _ _ _
                (traced_for_each (λ _, True) fs _ _ I (λ _ _ _ _, I)
                   (λ y _, framed_call_callback fs fuel c1 v1 y)) Hcall)
      as (t' & _ & Heq & _).
    injection Heq as Heq. rewrite <- !app_assoc in Heq.
    do 2 apply app_inv_head in Heq. simpl in Heq. injection Heq as -> ->.
    assert (Hsub : frame_handled fuel c1 v1
                     (World fs ((l ++ t1) ++ [Invoked q (BoundParse c1) vq]))
                   = (Returned tt,
                      World fs (((l ++ t1) ++ [Invoked q (BoundParse c1) vq])
                                ++ t'))).
    { unfold frame_handled, frame_handled_with.
      rewrite (bind_Returned _ _ _ _ _ (get_filter_Some _ _ _ _ Hc1)).
      rewrite Hcall. by rewrite <- !app_assoc. }
    specialize (IH _ _ _ Hsub gc cb Hgc Hcb).
    apply elem_of_app. right. apply elem_of_app. left. by right.
Qed.

(** X4. In a well-formed store whose observers never throw, [parse] on a
    root filter returns normally, and when the buffer parses as a frame of
    the root, every callback of every filter reached from the root (through
    registered children whose encapsulation predicates accept and whose
    parsers succeed) has been invoked on the view so obtained. *)
Theorem dispatch_complete w (this : nat) (buf : const_buffer)
    (self : filter_object frame_type) (vr : const_helper frame_type) :
  wf_filters (filters w) → no_observer_throws (filters w) →
  filters w !! this = Some self →
  frame_parse (filter_frame_type self) buf = Returned vr →
  ∃ t, parse this buf w = (Returned tt, World (filters w) (log w ++ t)) ∧
       ∀ c v g cb, reaches (filters w) this vr c v →
                   filters w !! c = Some g → cb ∈ m_callbacks g →
                   Invoked c cb v ∈ t.
Proof.
  destruct w as [fs l]. simpl. intros Hwf Hquiet Hself Hvr.
  pose proof (lookup_lt_Some _ _ _ Hself) as Hthis.
  destruct (framed_parse fs this buf) as (r & t & _ & Hrun).
  exists t. specialize (Hrun l).
  pose proof Hrun as Hcases.
  unfold parse in Hcases. simpl in Hcases.
  rewrite root_parse_cases, Hself, Hvr in Hcases.
  apply try_catch_inv in Hcases as (r0 & Hdispatch & Hr0).
  assert (r0 = Returned tt) as ->.
  { destruct r0 as [[]|e|why]; [done| |].
    - by destruct (quiet_dispatch_not_thrown _ _ _ _ _ _ _ _
                     Hquiet Hself Hdispatch e).
    - subst r. destruct (completes_parse fs this buf Hwf Hthis l why).
      by rewrite Hrun. }
  subst r. split; [done|].
  intros c v g cb Hreach Hg Hcb.
  eapply (reaches_invoked fs this vr c v Hwf Hquiet Hreach (length fs) l t);
    [|done..].
  unfold frame_handled, frame_handled_with.
  by rewrite (bind_Returned _ _ _ _ _ (get_filter_Some _ _ l _ Hself)).
Qed.
End Completeness.

(** ** What construction guarantees *)

Section Construction.
Context {frame_type : Type} `{OSIFrameType frame_type}.

Abbreviation store := (list (filter_object frame_type)).

Implicit Types (fs : store) (w : world frame_type).

(** X5. In any world client code can build, [parse] on an existing filter
    completes for every buffer, by returning or by throwing: the nesting of
    the dispatch is bounded by the number of filter objects, because a
    bound [parse] entry always refers to a filter constructed after the
    owner of the registry. *)
Theorem parse_completes_reachable w (this : nat) (buf : const_buffer) :
  reachable w → this < length (filters w) →
  ∃ r t, parse this buf w = (r, World (filters w) (log w ++ t)) ∧
         ∀ why, r ≠ Stuck why.
Proof.
  intros Hreach Hthis. destruct w as [fs l]. simpl in *.
  destruct (framed_parse fs this buf) as (r & t & _ & Hrun).
  exists r, t. split; [apply Hrun|]. intros why ->.
  apply (completes_parse fs this buf (reachable_wf _ Hreach) Hthis l why).
  by rewrite Hrun.
Qed.

Lemma exactly_once_snoc {A} (x y : A) (l : list A) :
  exactly_once x l → x ≠ y → exactly_once x (l ++ [y]).
Proof.
  intros (before & after & -> & Hb & Ha) Hne.
  exists before, (after ++ [y]). split; [by rewrite <- app_assoc|].
  split; [done|]. rewrite elem_of_app, list_elem_of_singleton. tauto.
Qed.

Lemma exactly_once_snoc_new {A} (x : A) (l : list A) : x ∉ l →
  exactly_once x (l ++ [x]).
Proof.
  intros Hx. exists l, []. split; [done|]. split; [done|].
  apply not_elem_of_nil.
Qed.

(** Appending a callback to a registry keeps every filter other than
    [fresh] registered exactly once, when the callback is not the bound
    [parse] of such a filter. *)
Lemma registered_once_add_callback fs this self cb (fresh : nat) :
  fs !! this = Some self →
  (∀ c, cb = BoundParse c → c = fresh) →
  (∀ c g p, c ≠ fresh → fs !! c = Some g → filter_parent g = Some p →
     p < c ∧ ∃ P, fs !! p = Some P ∧ exactly_once (BoundParse c) (m_callbacks P)) →
  ∀ c g p, c ≠ fresh →
    <[this := FilterObject (filter_frame_type self) (filter_parent self)
                (m_callbacks self ++ [cb])]> fs !! c = Some g →
    filter_parent g = Some p →
    p < c ∧
    ∃ P, <[this := FilterObject (filter_frame_type self) (filter_parent self)
                     (m_callbacks self ++ [cb])]> fs !! p = Some P ∧
         exactly_once (BoundParse c) (m_callbacks P).
Proof.
  intros Hself Hcb Hold c g p Hfresh Hg Hparent.
  pose proof (lookup_lt_Some _ _ _ Hself) as Hthis.
  assert (Hc : ∃ g0, fs !! c = Some g0 ∧ filter_parent g0 = Some p).
  { destruct (decide (c = this)) as [->|Hne].
    - rewrite list_lookup_insert_eq in Hg; [|done]. injection Hg as <-.
      by exists self.
    - rewrite list_lookup_insert_ne in Hg; [|done]. by exists g. }
  destruct Hc as (g0 & Hg0 & Hp0).
  destruct (Hold c g0 p Hfresh Hg0 Hp0) as (Hlt & P & HP & Honce).
  split; [done|].
  destruct (decide (p = this)) as [->|Hne].
  - rewrite list_lookup_insert_eq; [|done]. eexists. split; [done|]. simpl.
    assert (P = self) as -> by congruence.
    apply exactly_once_snoc; [done|]. intros Heq. by destruct (Hfresh (Hcb c (eq_sym Heq))).
  - rewrite list_lookup_insert_ne; [|done]. eauto.
Qed.

Lemma new_filter_run w (T : frame_type) (parent : nat)
    (P : filter_object frame_type) :
  filters w !! parent = Some P →
  new_filter T parent w
  = (Returned (length (filters w)),
     World (<[parent := FilterObject (filter_frame_type P) (filter_parent P)
                          (m_callbacks P
                             ++ [BoundParse (length (filters w))])]>
              (filters w ++ [FilterObject T (Some parent) []]))
           (log w)).
Proof.
  intros HP. unfold new_filter, new_object, add_callback.
  unfold mbind, M_bind, bind, mret, M_ret, ret. simpl.
  by rewrite (lookup_app_l_Some _ _ _ _ HP).
Qed.

Lemma registered_once_perform (o : operation) w r w' :
  wf_filters (filters w) → registered_once (filters w) →
  client_operation w o → perform o w = (r, w') →
  registered_once (filters w').
Proof.
  intros Hwf Honce Hclient.
  destruct o as [T|T parent|this cb|this buf]; simpl in *.
  - unfold new_root_filter. erewrite bind_Returned; [|reflexivity].
    intros [= <- <-]. simpl. intros c g p Hg Hparent.
    apply lookup_app_Some in Hg as [Hg|[_ Hg]].
    + destruct (Honce c g p Hg Hparent) as (Hlt & P & HP & HonceP).
      split; [done|]. exists P. split; [by apply lookup_app_l_Some|done].
    + apply list_lookup_singleton_Some in Hg as [_ <-]. done.
  - destruct (lookup_lt_is_Some_2 _ _ Hclient) as [P HP].
    rewrite (bind_Returned _ _ _ _ _ (new_filter_run w T parent P HP)).
    intros [= <- <-]. simpl.
    set (n := length (filters w)).
    assert (HP1 : (filters w ++ [FilterObject T (Some parent) []]) !! parent
                  = Some P) by by apply lookup_app_l_Some.
    intros c g p Hg Hparent.
    destruct (decide (c = n)) as [->|Hne].
    + rewrite list_lookup_insert_ne in Hg; [|unfold n; lia].
      rewrite lookup_app_r in Hg; [|done].
      rewrite Nat.sub_diag in Hg. injection Hg as <-.
      injection Hparent as <-. split; [done|].
      rewrite list_lookup_insert_eq; [|by eapply lookup_lt_Some].
      eexists. split; [done|]. simpl. apply exactly_once_snoc_new.
      intros Hin. destruct (Hwf _ _ _ HP Hin) as (_ & g' & Hg' & _).
      apply lookup_lt_Some in Hg'. unfold n in Hg'. lia.
    + eapply (registered_once_add_callback _ parent P _ n); try done.
      * by intros c' [= <-].
      * intros c' g' p' Hne' Hg' Hparent'.
        apply lookup_app_Some in Hg' as [Hg'|[Hge Hg']].
        -- destruct (Honce c' g' p' Hg' Hparent') as (Hlt & P' & HP' & HonceP').
           split; [done|]. exists P'. split; [by apply lookup_app_l_Some|done].
        -- apply list_lookup_singleton_Some in Hg' as [Hidx _].
           unfold n in Hne'. lia.
  - destruct cb as [name body|c]; [|done].
    unfold add_callback.
    destruct (filters w !! this) as [self|] eqn:Hself;
      [|by intros [= <- <-]].
    intros [= <- <-]. simpl. intros c g p Hg Hparent.
    eapply (registered_once_add_callback _ this self _ (length (filters w)));
      try done.
    + intros c' g' p' _. apply Honce.
    + apply lookup_lt_Some in Hg. rewrite length_insert in Hg. lia.
  - destruct w as [fs l]. intros Hrun.
    destruct (traced_run _ _ _ _ _ _ (framed_parse fs this buf) Hrun)
      as (t & _ & -> & _).
    done.
Qed.

Lemma reachable_registered_once w :
  reachable w → registered_once (filters w).
Proof.
  induction 1 as [|w o r w' Hreach IH Hclient Hperform].
  - intros c g p Hg. simpl in Hg. by rewrite lookup_nil in Hg.
  - eapply registered_once_perform; [by apply reachable_wf|done..].
Qed.

(** X6. In any world client code can build, the registries wire a forest:
    a bound [parse] entry of a registry refers to an existing filter
    constructed after the owner of the registry and under it; every
    filter constructed under a parent is held by the registry of that
    parent exactly once; and a root filter is held by no registry. *)
Theorem reachable_forest w :
  reachable w →
  wf_filters (filters w) ∧ registered_once (filters w) ∧
  ∀ c g, filters w !! c = Some g → filter_parent g = None →
         ∀ i f, filters w !! i = Some f → BoundParse c ∉ m_callbacks f.
Proof.
  intros Hreach. pose proof (reachable_wf w Hreach) as Hwf.
  split; [done|]. split; [by apply reachable_registered_once|].
  intros c g Hg Hroot i f Hf Hin.
  destruct (Hwf i f c Hf Hin) as (_ & g' & Hg' & Hparent). congruence.
Qed.

(** X7. Constructing a filter under an existing parent returns the address
    of a new filter object with the requested frame type, that parent and
    an empty registry; the one change to the existing objects is that the
    bound [parse] of the new filter is appended to the registry of the
    parent. Nothing is logged. *)
Theorem new_filter_effect w (T : frame_type) (parent : nat)
    (P : filter_object frame_type) :
  filters w !! parent = Some P →
  ∃ w', new_filter T parent w = (Returned (length (filters w)), w') ∧
        log w' = log w ∧
        length (filters w') = S (length (filters w)) ∧
        filters w' !! length (filters w)
          = Some (FilterObject T (Some parent) []) ∧
        filters w' !! parent
          = Some (FilterObject (filter_frame_type P) (filter_parent P)
                    (m_callbacks P ++ [BoundParse (length (filters w))])) ∧
        ∀ other, other ≠ parent → other < length (filters w) →
                 filters w' !! other = filters w !! other.
Proof.
  intros HP. pose proof (lookup_lt_Some _ _ _ HP) as Hparent.
  eexists. split; [by apply new_filter_run|].
  simpl. split; [done|]. split; [|split; [|split]].
  - rewrite length_insert, length_app. simpl. lia.
  - rewrite list_lookup_insert_ne; [|lia].
    rewrite lookup_app_r; [|done]. by rewrite Nat.sub_diag.
  - rewrite list_lookup_insert_eq; [done|]. rewrite length_app. lia.
  - intros other Hne Hother. rewrite list_lookup_insert_ne; [|done].
    by rewrite lookup_app_l.
Qed.
End Construction.

(** ** One dispatch per filter and per buffer *)

Section AtMostOnce.
Context {frame_type : Type} `{OSIFrameType frame_type}.

Abbreviation store := (list (filter_object frame_type)).
Abbreviation trace := (list (event frame_type)).

Implicit Types (fs : store) (t : trace) (w : world frame_type).

Lemma descends_trans fs x c' c :
  descends fs x c' → descends fs c' c → descends fs x c.
Proof.
  induction 1 as [|x g p c' Hx Hp _ IH]; [done|].
  intros Hc. eapply descends_parent; eauto.
Qed.

Lemma descends_ge fs x c :
  registered_once fs → descends fs x c → c ≤ x.
Proof.
  intros Honce. induction 1 as [|x g p c Hx Hp _ IH]; [done|].
  destruct (Honce x g p Hx Hp) as [Hlt _]. lia.
Qed.

Lemma descends_linear fs x a b :
  descends fs x a → descends fs x b → descends fs a b ∨ descends fs b a.
Proof.
  induction 1 as [a|x g p a Hx Hp Ha IH]; [by left|].
  intros Hb. inversion Hb as [|x' g' p' b' Hx' Hp' Hb']; subst.
  - right. by eapply descends_parent.
  - apply IH. congruence.
Qed.

(** The subtrees of two distinct children of one parent are disjoint. *)
Lemma siblings_disjoint fs q c1 g1 c2 g2 x :
  registered_once fs →
  fs !! c1 = Some g1 → filter_parent g1 = Some q →
  fs !! c2 = Some g2 → filter_parent g2 = Some q →
  descends fs x c1 → descends fs x c2 → c1 = c2.
Proof.
  intros Honce Hc1 Hp1 Hc2 Hp2 Hx1 Hx2.
  destruct (Honce c1 g1 q Hc1 Hp1) as [Hlt1 _].
  destruct (Honce c2 g2 q Hc2 Hp2) as [Hlt2 _].
  destruct (descends_linear _ _ _ _ Hx1 Hx2) as [Hd|Hd];
    inversion Hd as [|y g p c Hy Hp Hrest]; subst; try done.
  - assert (p = q) as -> by congruence.
    pose proof (descends_ge _ _ _ Honce Hrest). lia.
  - assert (p = q) as -> by congruence.
    pose proof (descends_ge _ _ _ Honce Hrest). lia.
Qed.

(** What happens below a filter is done by its descendants. *)
Lemma descendants_filter_parse fs fuel c pv :
  wf_filters fs →
  traced (Forall (λ e, descends fs (event_owner e) c)) fs
         (filter_parse fuel c pv).
Proof.
  intros Hwf.
  apply (traced_filter_parse
           (λ c, Forall (λ e, descends fs (event_owner e) c))).
  - done.
  - intros. by apply Forall_app.
  - intros c0 cb v. apply Forall_singleton. apply descends_refl.
  - intros c0 self c' t Hself Hin Ht.
    destruct (Hwf c0 self c' Hself Hin) as (_ & g & Hg & Hparent).
    eapply Forall_impl; [exact Ht|]. simpl. intros e He.
    eapply descends_trans; [exact He|].
    eapply descends_parent; [done..|apply descends_refl].
Qed.

Lemma exactly_once_head {A} (x : A) (l : list A) :
  exactly_once x (x :: l) → x ∉ l.
Proof.
  intros ([|y before] & after & Heq & Hb & Ha).
  - by injection Heq as ->.
  - injection Heq as <- _. destruct Hb. by left.
Qed.

Lemma exactly_once_tail {A} (x y : A) (l : list A) :
  exactly_once y (x :: l) → y ≠ x → exactly_once y l.
Proof.
  intros ([|z before] & after & Heq & Hb & Ha) Hne.
  - by injection Heq as <-.
  - injection Heq as <- ->. exists before, after.
    split; [done|]. split; [|done]. intros Hin. destruct Hb. by right.
Qed.

Lemma invocations_of_nil_or_owner f (t : trace) :
  invocations_of f t = [] ∨ ∃ e, e ∈ t ∧ event_owner e = f.
Proof.
  destruct (invocations_of f t) as [|e t'] eqn:Hinv; [by left|].
  right. exists e. unfold invocations_of in Hinv.
  assert (Hin : e ∈ filter (λ e, event_owner e = f) t)
    by (rewrite Hinv; by left).
  by apply list_elem_of_filter in Hin as [? ?].
Qed.

Lemma invocations_of_none f (t : trace) :
  (∀ e, e ∈ t → event_owner e ≠ f) → invocations_of f t = [].
Proof.
  intros Hnone. destruct (invocations_of_nil_or_owner f t)
    as [?|(e & He & Hf)]; [done|]. by destruct (Hnone e He).
Qed.

(** The dispatch of one registry invokes the callbacks of any other filter
    at most once each, given that the [parse] of a child does. *)
Lemma dispatch_others_at_most_once fuel fs c self v1 f cbs l r w' :
  wf_filters fs → registered_once fs →
  (∀ c pv l r w', filter_parse fuel c pv (World fs l) = (r, w') →
     ∃ t, w' = World fs (l ++ t) ∧
          ∃ v, invocations_of f t
                 `prefix_of` map (λ cb, Invoked f cb v) (registry (World fs []) f)) →
  fs !! c = Some self → f ≠ c →
  (∀ cb, cb ∈ cbs → cb ∈ m_callbacks self) →
  (∀ c', BoundParse c' ∈ cbs → exactly_once (BoundParse c') cbs) →
  for_each (call_callback (filter_parse fuel) c v1) cbs (World fs l) = (r, w') →
  ∃ t, w' = World fs (l ++ t) ∧
       Forall (λ e, event_owner e = c ∨
                    ∃ c', BoundParse c' ∈ cbs ∧ descends fs (event_owner e) c') t ∧
       ∃ v, invocations_of f t
              `prefix_of` map (λ cb, Invoked f cb v) (registry (World fs []) f).
Proof.
  intros Hwf Honce Hparse Hself Hne. revert l.
  induction cbs as [|cb cbs IH]; intros l Hsub Hdistinct; cbn [for_each].
  { intros [= <- <-]. exists []. rewrite app_nil_r.
    split; [done|]. split; [done|]. exists v1. apply prefix_nil. }
  assert (Hrest_sub : ∀ cb', cb' ∈ cbs → cb' ∈ m_callbacks self)
    by (intros cb' Hcb'; apply Hsub; by right).
  assert (Hrest_distinct :
    ∀ c', BoundParse c' ∈ cbs → exactly_once (BoundParse c') cbs).
  { intros c' Hc'. apply (exactly_once_tail cb); [apply Hdistinct; by right|].
    intros <-. by apply (exactly_once_head (BoundParse c') cbs);
      [apply Hdistinct; left|]. }
  assert (Hwiden : ∀ t2,
    Forall (λ e, event_owner e = c ∨
                 ∃ c', BoundParse c' ∈ cbs ∧ descends fs (event_owner e) c') t2 →
    Forall (λ e, event_owner e = c ∨
                 ∃ c', BoundParse c' ∈ cb :: cbs ∧
                       descends fs (event_owner e) c') t2).
  { intros t2 Ht2. eapply Forall_impl; [exact Ht2|].
    simpl. intros e [?|(c' & Hc' & Hd)]; [by left|].
    right. exists c'. split; [by right|done]. }
  destruct (call_callback (filter_parse fuel) c v1 cb (World fs l))
    as [r1 w1] eqn:Hcall.
  assert (Hhead : ∃ t1, w1 = World fs (l ++ Invoked c cb v1 :: t1) ∧
    Forall (λ e, ∃ c', cb = BoundParse c' ∧ descends fs (event_owner e) c') t1 ∧
    ∃ v, invocations_of f t1
           `prefix_of` map (λ cb, Invoked f cb v) (registry (World fs []) f)).
  { unfold call_callback in Hcall.
    erewrite bind_Returned in Hcall; [|reflexivity]. simpl in Hcall.
    destruct cb as [name body|c1].
    - exists []. split; [by destruct (body v1); injection Hcall as <- <-|].
      split; [done|]. exists v1. apply prefix_nil.
    - destruct (Hparse _ _ _ _ _ Hcall) as (t1 & -> & Hprefix).
      exists t1. split; [by rewrite <- app_assoc|]. split; [|done].
      destruct (descendants_filter_parse fs fuel c1 v1 Hwf)
        as (r' & t' & Hdesc & Hrun).
      rewrite Hrun in Hcall. injection Hcall as _ Heq.
      apply app_inv_head in Heq. subst t'.
      eapply Forall_impl; [exact Hdesc|]. intros e He. by exists c1. }
  destruct Hhead as (t1 & -> & Hdesc1 & v & Hprefix1).
  assert (Hown : invocations_of f [Invoked c cb v1] = []).
  { apply invocations_of_none. intros e He.
    apply list_elem_of_singleton in He as ->. simpl. congruence. }
  assert (Hfirst :
    Forall (λ e, event_owner e = c ∨
                 ∃ c', BoundParse c' ∈ cb :: cbs ∧
                       descends fs (event_owner e) c')
           (Invoked c cb v1 :: t1)).
  { apply Forall_cons. split; [by left|].
    eapply Forall_impl; [exact Hdesc1|]. intros e (c' & -> & Hd).
    right. exists c'. split; [by left|done]. }
  destruct r1 as [[]|e1|why].
  - rewrite (bind_Returned _ _ _ _ _ Hcall). intros Hrest.
    destruct (IH _ Hrest_sub Hrest_distinct Hrest)
      as (t2 & -> & Hdesc2 & v' & Hprefix2).
    exists ((Invoked c cb v1 :: t1) ++ t2).
    split; [by rewrite <- app_assoc|].
    split; [apply Forall_app; split; [done|by apply Hwiden]|].
    change (Invoked c cb v1 :: t1) with ([Invoked c cb v1] ++ t1).
    rewrite !invocations_of_app, Hown. simpl.
    destruct (invocations_of_nil_or_owner f t1) as [Hnil|(e & He & Hf)].
    + rewrite Hnil. simpl. by exists v'.
    + exists v. rewrite (invocations_of_none f t2); [by rewrite app_nil_r|].
      intros e2 He2 Hf2.
      apply (proj1 (Forall_forall _ _) Hdesc1) in He as (c1 & -> & Hd1).
      apply (proj1 (Forall_forall _ _) Hdesc2) in He2
        as [Hc|(c2 & Hc2 & Hd2)]; [congruence|].
      rewrite Hf in Hd1. rewrite Hf2 in Hd2.
      destruct (Hwf c self c1 Hself (Hsub _ ltac:(by left)))
        as (_ & g1 & Hg1 & Hp1).
      destruct (Hwf c self c2 Hself (Hrest_sub _ Hc2))
        as (_ & g2 & Hg2 & Hp2).
      pose proof (siblings_disjoint fs c c1 g1 c2 g2 f Honce
                    Hg1 Hp1 Hg2 Hp2 Hd1 Hd2) as <-.
      by apply (exactly_once_head (BoundParse c1) cbs);
        [apply Hdistinct; left|].
  - rewrite (bind_Thrown _ _ _ _ _ Hcall). intros [= <- <-].
    exists (Invoked c cb v1 :: t1). split; [done|]. split; [done|].
    exists v. change (Invoked c cb v1 :: t1) with ([Invoked c cb v1] ++ t1).
    by rewrite invocations_of_app, Hown.
  - rewrite (bind_Stuck _ _ _ _ _ Hcall). intros [= <- <-].
    exists (Invoked c cb v1 :: t1). split; [done|]. split; [done|].
    exists v. change (Invoked c cb v1 :: t1) with ([Invoked c cb v1] ++ t1).
    by rewrite invocations_of_app, Hown.
Qed.

Lemma dispatch_at_most_once fuel fs c self v1 f l r w' :
  wf_filters fs → registered_once fs →
  (∀ c pv l r w', filter_parse fuel c pv (World fs l) = (r, w') →
     ∃ t, w' = World fs (l ++ t) ∧
          ∃ v, invocations_of f t
                 `prefix_of` map (λ cb, Invoked f cb v) (registry (World fs []) f)) →
  fs !! c = Some self →
  for_each (call_callback (filter_parse fuel) c v1) (m_callbacks self)
    (World fs l) = (r, w') →
  ∃ t, w' = World fs (l ++ t) ∧
       ∃ v, invocations_of f t
              `prefix_of` map (λ cb, Invoked f cb v) (registry (World fs []) f).
Proof.
  intros Hwf Honce Hparse Hself Hrun.
  destruct (decide (f = c)) as [->|Hne].
  - destruct (for_each_invocations fuel fs c self v1 _ l r w' Hwf Hself
                ltac:(done) Hrun) as (t & -> & Hprefix & _).
    exists t. split; [done|]. exists v1.
    unfold registry. simpl. by rewrite Hself.
  - destruct (dispatch_others_at_most_once fuel fs c self v1 f _ l r w'
                Hwf Honce Hparse Hself Hne ltac:(done)) with (2 := Hrun)
      as (t & -> & _ & Hprefix); [|eauto].
    intros c' Hc'.
    destruct (Hwf c self c' Hself Hc') as (_ & g & Hg & Hp).
    destruct (Honce c' g c Hg Hp) as (_ & P & HP & Hexact). congruence.
Qed.

Lemma filter_parse_at_most_once fuel fs f c pv l r w' :
  wf_filters fs → registered_once fs →
  filter_parse fuel c pv (World fs l) = (r, w') →
  ∃ t, w' = World fs (l ++ t) ∧
       ∃ v, invocations_of f t
              `prefix_of` map (λ cb, Invoked f cb v) (registry (World fs []) f).
Proof.
  intros Hwf Honce. revert c pv l r w'.
  induction fuel as [|fuel IH]; intros c pv l r w'.
  { intros [= <- <-]. exists []. rewrite app_nil_r. split; [done|].
    exists pv. apply prefix_nil. }
  rewrite filter_parse_S.
  assert (Hnothing : ∀ r0, (r0, World fs l) = (r, w') →
    ∃ t, w' = World fs (l ++ t) ∧
         ∃ v, invocations_of f t
                `prefix_of` map (λ cb, Invoked f cb v)
                                (registry (World fs []) f)).
  { intros r0 [= <- <-]. exists []. rewrite app_nil_r. split; [done|].
    exists pv. apply prefix_nil. }
  destruct (fs !! c) as [self|] eqn:Hself; [|apply Hnothing].
  destruct (frame_parent_match _ _); [|apply Hnothing].
  destruct (frame_parse _ _) as [v1| |]; [|apply Hnothing..].
  intros Hrun. apply try_catch_inv in Hrun as (r0 & Hrun & _).
  by eapply dispatch_at_most_once.
Qed.

Lemma root_dispatch_at_most_once fuel fs (this : nat) self v1 l r w' :
  wf_filters fs → registered_once fs → fs !! this = Some self →
  for_each (call_callback (filter_parse fuel) this v1) (m_callbacks self)
    (World fs l) = (r, w') →
  ∃ t, w' = World fs (l ++ t) ∧
       ∀ f, ∃ v, invocations_of f t
                   `prefix_of` map (λ cb, Invoked f cb v)
                                   (registry (World fs []) f).
Proof.
  intros Hwf Honce Hself Hrun.
  assert (Hall : ∀ f, ∃ t, w' = World fs (l ++ t) ∧
    ∃ v, invocations_of f t
           `prefix_of` map (λ cb, Invoked f cb v) (registry (World fs []) f)).
  { intros f. eapply dispatch_at_most_once; [done..| |done|exact Hrun].
    intros c pv l0 r1 w1. by apply filter_parse_at_most_once. }
  destruct (Hall this) as (t & -> & _). exists t. split; [done|].
  intros f. destruct (Hall f) as (t' & Heq & v & Hprefix).
  injection Heq as Heq. apply app_inv_head in Heq. subst t'. by exists v.
Qed.

(** X8. In any world client code can build, one call of [parse] on a root
    filter dispatches each filter of the store at most once: for every
    filter, the invocations it makes during the call are an initial
    segment of its registry, in order, all on one and the same view. Each
    entry of a registry is used at most once for one buffer; an observer
    that was registered twice has two entries, and is invoked at most once
    for each. *)
Theorem each_filter_dispatched_at_most_once w (this : nat)
    (buf : const_buffer) r w' :
  reachable w →
  parse this buf w = (r, w') →
  ∃ t, w' = World (filters w) (log w ++ t) ∧
       ∀ f, invocations_of f t = [] ∨
            ∃ v, invocations_of f t
                   `prefix_of` map (λ cb, Invoked f cb v) (registry w f).
Proof.
  intros Hreach.
  pose proof (reachable_wf w Hreach) as Hwf.
  pose proof (reachable_registered_once w Hreach) as Honce.
  destruct w as [fs l]. unfold parse. simpl in *. rewrite root_parse_cases.
  assert (Hnothing : ∀ r0, (r0, World fs l) = (r, w') →
    ∃ t, w' = World fs (l ++ t) ∧
         ∀ f, invocations_of f t = [] ∨
              ∃ v, invocations_of f t
                     `prefix_of` map (λ cb, Invoked f cb v)
                                     (registry (World fs l) f)).
  { intros r0 [= <- <-]. exists []. rewrite app_nil_r. split; [done|].
    intros f. by left. }
  destruct (fs !! this) as [self|] eqn:Hself; [|apply Hnothing].
  destruct (frame_parse _ _) as [v1| |] eqn:Hv1; [|apply Hnothing..].
  intros Hrun. apply try_catch_inv in Hrun as (r0 & Hrun & _).
  destruct (root_dispatch_at_most_once _ fs this self v1 l r0 w'
              Hwf Honce Hself Hrun) as (t & -> & Hall).
  exists t. split; [done|]. intros f. right. apply Hall.
Qed.

(** *** Counting the invocations of one call *)

Lemma filter_owner_split (n : nat) (t : trace) :
  length (filter (λ e, event_owner e < S n) t)
  = length (filter (λ e, event_owner e < n) t)
    + length (invocations_of n t).
Proof.
  unfold invocations_of. induction t as [|e t IH]; [done|].
  destruct (decide (event_owner e < n)) as [Hlt|Hge].
  - rewrite (filter_cons_True (λ e, event_owner e < S n)); [|simpl; lia].
    rewrite (filter_cons_True (λ e, event_owner e < n)); [|done].
    rewrite (filter_cons_False (λ e, event_owner e = n)); [|simpl; lia].
    simpl. lia.
  - destruct (decide (event_owner e = n)) as [Heq|Hne].
    + rewrite (filter_cons_True (λ e, event_owner e < S n)); [|simpl; lia].
      rewrite (filter_cons_False (λ e, event_owner e < n)); [|done].
      rewrite (filter_cons_True (λ e, event_owner e = n)); [|done].
      simpl. lia.
    + rewrite (filter_cons_False (λ e, event_owner e < S n)); [|simpl; lia].
      rewrite (filter_cons_False (λ e, event_owner e < n)); [|done].
      rewrite (filter_cons_False (λ e, event_owner e = n)); [|done].
      done.
Qed.

Lemma invocations_below_bound fs (t : trace) (n : nat) :
  (∀ f, length (invocations_of f t) ≤ length (registry (World fs []) f)) →
  length (filter (λ e, event_owner e < n) t)
  ≤ sum_list_with (λ g, length (m_callbacks g)) (take n fs).
Proof.
  intros Hbound. induction n as [|n IH].
  - rewrite take_0. simpl. clear Hbound.
    induction t as [|e t IH]; [done|].
    rewrite filter_cons_False; [done|]. simpl. lia.
  - rewrite filter_owner_split. specialize (Hbound n).
    unfold registry in Hbound. simpl in Hbound.
    destruct (fs !! n) as [g|] eqn:Hg.
    + rewrite (take_S_r _ _ _ Hg), sum_list_with_app. simpl. lia.
    + apply lookup_ge_None in Hg.
      rewrite take_ge in IH; [|lia]. rewrite take_ge; [|lia].
      simpl in Hbound. lia.
Qed.

(** X13. In any world client code can build, one call of [parse] on a root
    filter makes at most as many callback invocations as there are entries
    in all the registries of the store together. *)
Theorem parse_invocation_bound w (this : nat) (buf : const_buffer) r w' :
  reachable w →
  parse this buf w = (r, w') →
  ∃ t, w' = World (filters w) (log w ++ t) ∧
       length t ≤ sum_list_with (λ g, length (m_callbacks g)) (filters w).
Proof.
  intros Hreach.
  pose proof (reachable_wf w Hreach) as Hwf.
  pose proof (reachable_registered_once w Hreach) as Honce.
  destruct w as [fs l]. unfold parse. simpl in *. rewrite root_parse_cases.
  assert (Hnothing : ∀ r0, (r0, World fs l) = (r, w') →
    ∃ t, w' = World fs (l ++ t) ∧
         length t ≤ sum_list_with (λ g, length (m_callbacks g)) fs).
  { intros r0 [= <- <-]. exists []. rewrite app_nil_r. split; [done|].
    simpl. lia. }
  destruct (fs !! this) as [self|] eqn:Hself; [|apply Hnothing].
  destruct (frame_parse _ _) as [v1| |] eqn:Hv1; [|apply Hnothing..].
  intros Hrun. apply try_catch_inv in Hrun as (r0 & Hrun & _).
  destruct (root_dispatch_at_most_once _ fs this self v1 l r0 w'
              Hwf Honce Hself Hrun) as (t & -> & Hall).
  exists t. split; [done|].
  assert (Hbound : ∀ f, length (invocations_of f t)
                        ≤ length (registry (World fs []) f)).
  { intros f. destruct (Hall f) as (v & Hprefix).
    apply prefix_length in Hprefix. by rewrite length_map in Hprefix. }
  pose proof (invocations_below_bound fs t (length fs) Hbound) as Hsum.
  rewrite take_ge in Hsum; [|done].
  assert (Hin : ∀ e, e ∈ t → event_owner e < length fs).
  { intros e He.
    destruct (decide (event_owner e < length fs)) as [|Hge]; [done|].
    specialize (Hbound (event_owner e)). unfold registry in Hbound.
    simpl in Hbound. rewrite lookup_ge_None_2 in Hbound; [|lia].
    assert (Hmem : e ∈ invocations_of (event_owner e) t).
    { unfold invocations_of. by apply list_elem_of_filter. }
    destruct (invocations_of (event_owner e) t); [|simpl in Hbound; lia].
    by apply elem_of_nil in Hmem. }
  assert (Hall' : filter (λ e, event_owner e < length fs) t = t).
  { clear -Hin. induction t as [|e t IH]; [done|].
    rewrite filter_cons_True; [|apply Hin; by left].
    rewrite IH; [done|]. intros e' He'. apply Hin. by right. }
  by rewrite Hall' in Hsum.
Qed.

(** X12. In a well-formed store, [parse] on a root filter only ever invokes
    callbacks of that filter and of its descendants: the filters of other
    trees of the store are never dispatched. *)
Theorem parse_stays_in_tree w (this : nat) (buf : const_buffer) r w' :
  wf_filters (filters w) →
  parse this buf w = (r, w') →
  ∃ t, w' = World (filters w) (log w ++ t) ∧
       Forall (λ e, descends (filters w) (event_owner e) this) t.
Proof.
  destruct w as [fs l]. simpl. intros Hwf Hrun.
  assert (Htraced : traced (Forall (λ e, descends fs (event_owner e) this)) fs
                           (parse this buf)).
  { apply (traced_parse (λ c, Forall (λ e, descends fs (event_owner e) c))).
    - done.
    - intros. by apply Forall_app.
    - intros c0 cb v. apply Forall_singleton. apply descends_refl.
    - intros c0 self c' t Hself Hin Ht.
      destruct (Hwf c0 self c' Hself Hin) as (_ & g & Hg & Hparent).
      eapply Forall_impl; [exact Ht|]. simpl. intros e He.
      eapply descends_trans; [exact He|].
      eapply descends_parent; [done..|apply descends_refl]. }
  destruct (traced_run _ _ _ _ _ _ Htraced Hrun) as (t & Ht & -> & _).
  by exists t.
Qed.
End AtMostOnce.

(** ** Registering one more observer *)

Section OneMoreObserver.
Context {frame_type : Type} `{OSIFrameType frame_type}.

Abbreviation store := (list (filter_object frame_type)).
Abbreviation trace := (list (event frame_type)).
Abbreviation M := (M frame_type).

Implicit Types (fs : store) (t : trace) (w : world frame_type).

Lemma same_run_pure {A} fs fs' (m : M A) r :
  (∀ w, m w = (r, w)) → same_run fs fs' m.
Proof.
  intros Hm. exists r, []. split; intros l; by rewrite Hm, app_nil_r.
Qed.

Lemma same_run_bind {A B} fs fs' (m : M A) (k : A → M B) :
  same_run fs fs' m → (∀ a, same_run fs fs' (k a)) →
  same_run fs fs' (m ≫= k).
Proof.
  intros (r & t & Hm & Hm') Hk. destruct r as [a|e|why].
  - destruct (Hk a) as (r2 & t2 & Hk1 & Hk2).
    exists r2, (t ++ t2). split; intros l.
    + by rewrite (bind_Returned _ _ _ _ _ (Hm l)), Hk1, app_assoc.
    + by rewrite (bind_Returned _ _ _ _ _ (Hm' l)), Hk2, app_assoc.
  - exists (Thrown e), t. split; intros l.
    + by rewrite (bind_Thrown _ _ _ _ _ (Hm l)).
    + by rewrite (bind_Thrown _ _ _ _ _ (Hm' l)).
  - exists (Stuck why), t. split; intros l.
    + by rewrite (bind_Stuck _ _ _ _ _ (Hm l)).
    + by rewrite (bind_Stuck _ _ _ _ _ (Hm' l)).
Qed.

Lemma same_run_for_each {A} fs fs' (f : A → M unit) (xs : list A) :
  (∀ x, x ∈ xs → same_run fs fs' (f x)) →
  same_run fs fs' (for_each f xs).
Proof.
  induction xs as [|x xs IH]; intros Hf; cbn [for_each].
  - by apply (same_run_pure _ _ _ (Returned tt)).
  - apply same_run_bind; [apply Hf; by left|].
    intros _. apply IH. intros y Hy. apply Hf. by right.
Qed.

Lemma same_run_try_catch fs fs' (m : M unit) :
  same_run fs fs' m → same_run fs fs' (try_catch_runtime_error m).
Proof.
  intros (r & t & Hm & Hm').
  exists (match r with Thrown (runtime_error _) => Returned tt | _ => r end), t.
  split; intros l; unfold try_catch_runtime_error;
    [rewrite Hm|rewrite Hm']; by destruct r as [[]|[]|].
Qed.

(** What the [parse] of a filter does depends on the filter objects at its
    address and above only. *)
Lemma filter_parse_local fs fs' (n : nat) fuel c pv :
  wf_filters fs → (∀ i, n < i → fs' !! i = fs !! i) → n < c →
  same_run fs fs' (filter_parse fuel c pv).
Proof.
  intros Hwf Hsame. revert c pv.
  induction fuel as [|fuel IH]; intros c pv Hc.
  { by apply (same_run_pure _ _ _ (Stuck out_of_fuel)). }
  assert (Hcases : ∀ fs0, fs0 !! c = fs !! c → ∀ l,
    filter_parse (S fuel) c pv (World fs0 l)
    = match fs !! c with
      | None => (Stuck dangling_filter, World fs0 l)
      | Some self =>
          if frame_parent_match (filter_frame_type self) pv then
            match frame_parse (filter_frame_type self) (payload pv) with
            | Returned v =>
                try_catch_runtime_error
                  (for_each (call_callback (filter_parse fuel) c v)
                            (m_callbacks self)) (World fs0 l)
            | _ => (Returned tt, World fs0 l)
            end
          else (Returned tt, World fs0 l)
      end).
  { intros fs0 Hfs0 l. by rewrite filter_parse_S, Hfs0. }
  pose proof (Hcases fs eq_refl) as Hfs.
  pose proof (Hcases fs' (Hsame c Hc)) as Hfs'. clear Hcases.
  assert (Hquiet : ∀ r0,
    (∀ l, filter_parse (S fuel) c pv (World fs l) = (r0, World fs l)) →
    (∀ l, filter_parse (S fuel) c pv (World fs' l) = (r0, World fs' l)) →
    same_run fs fs' (filter_parse (S fuel) c pv)).
  { intros r0 H1 H2. exists r0, [].
    split; intros l; rewrite app_nil_r; [apply H1|apply H2]. }
  destruct (fs !! c) as [self|] eqn:Hself;
    [|exact (Hquiet (Stuck dangling_filter) Hfs Hfs')].
  destruct (frame_parent_match _ _);
    [|exact (Hquiet (Returned tt) Hfs Hfs')].
  destruct (frame_parse _ _) as [v| |];
    [|exact (Hquiet (Returned tt) Hfs Hfs')..].
  assert (Hdispatch : same_run fs fs'
    (try_catch_runtime_error
       (for_each (call_callback (filter_parse fuel) c v) (m_callbacks self)))).
  { apply same_run_try_catch, same_run_for_each. intros cb Hcb.
    unfold call_callback. apply same_run_bind.
    + exists (Returned tt), [Invoked c cb v]. done.
    + intros _. destruct cb as [name body|c1].
      * destruct (body v);
          [by apply (same_run_pure _ _ _ (Thrown e))
          |by apply (same_run_pure _ _ _ (Returned tt))].
      * destruct (Hwf c self c1 Hself Hcb) as [Hlt _]. apply IH. lia. }
  destruct Hdispatch as (r & t & H1 & H2).
  exists r, t. split; intros l; [by rewrite Hfs|by rewrite Hfs'].
Qed.

(** X9. Registering one more observer on a filter of a well-formed store
    changes a dispatch of that filter that used to return in one way only:
    the same invocations are made, in the same order, and then the new
    observer is invoked, last, on the same view; the dispatch returns or
    throws as the new observer does. *)
Theorem one_more_observer (fuel : nat) w (this : nat)
    (self : filter_object frame_type) (name : nat)
    (body : const_helper frame_type → option exception)
    (v : const_helper frame_type) (t : trace) :
  wf_filters (filters w) →
  filters w !! this = Some self →
  frame_handled fuel this v w
    = (Returned tt, World (filters w) (log w ++ t)) →
  ∃ w1, add_callback this (Observer name body) w = (Returned tt, w1) ∧
        log w1 = log w ∧
        frame_handled fuel this v w1
        = (match body v with Some e => Thrown e | None => Returned tt end,
           World (filters w1)
                 (log w ++ t ++ [Invoked this (Observer name body) v])).
Proof.
  destruct w as [fs l]. simpl. intros Hwf Hself Hrun.
  pose proof (lookup_lt_Some _ _ _ Hself) as Hthis.
  set (self1 := FilterObject (filter_frame_type self) (filter_parent self)
                  (m_callbacks self ++ [Observer name body])).
  exists (World (<[this := self1]> fs) l).
  split; [unfold add_callback; simpl; by rewrite Hself|]. split; [done|].
  simpl.
  assert (Hself1 : <[this := self1]> fs !! this = Some self1)
    by by apply list_lookup_insert_eq.
  unfold frame_handled, frame_handled_with in *.
  rewrite (bind_Returned _ _ _ _ _ (get_filter_Some _ _ l _ Hself)) in Hrun.
  rewrite (bind_Returned _ _ _ _ _ (get_filter_Some _ _ l _ Hself1)).
  simpl. rewrite for_each_app.
  destruct (same_run_for_each fs (<[this := self1]> fs)
              (call_callback (filter_parse fuel) this v) (m_callbacks self))
    as (r & t' & Hold & Hnew).
  { intros cb Hcb. unfold call_callback. apply same_run_bind.
    - exists (Returned tt), [Invoked this cb v]. done.
    - intros _. destruct cb as [name' body'|c1].
      + destruct (body' v);
          [by apply (same_run_pure _ _ _ (Thrown e))
          |by apply (same_run_pure _ _ _ (Returned tt))].
      + destruct (Hwf this self c1 Hself Hcb) as [Hlt _].
        apply (filter_parse_local fs _ this); [done| |done].
        intros i Hi. apply list_lookup_insert_ne. lia. }
  rewrite Hold in Hrun. injection Hrun as -> Heq.
  apply app_inv_head in Heq. subst t'.
  rewrite (bind_Returned _ _ _ _ _ (Hnew l)). cbn [for_each].
  unfold call_callback, log_event, throw, lift, mbind, M_bind, bind, ret.
  simpl. destruct (body v); by rewrite app_assoc.
Qed.
End OneMoreObserver.

(** ** The further properties on the small protocol stack *)

Lemma three_level_world_reachable : reachable three_level_world.
Proof.
  pose proof (reachable_step _ (op_new_root_filter Link) _ _
                reachable_empty I eq_refl) as H1.
  pose proof (reachable_step _ (op_add_callback 0 (quiet 1)) _ _
                H1 I eq_refl) as H2.
  assert (H3 := reachable_step _ (op_new_filter Net 0) _ _ H2
                  ltac:(cbv; lia) eq_refl).
  pose proof (reachable_step _ (op_add_callback 1 (quiet 2)) _ _
                H3 I eq_refl) as H4.
  assert (H5 := reachable_step _ (op_new_filter Transport 1) _ _ H4
                  ltac:(cbv; lia) eq_refl).
  exact (reachable_step _ (op_add_callback 2 (quiet 3)) _ _ H5 I eq_refl).
Qed.

Lemma three_level_world_quiet : no_observer_throws (filters three_level_world).
Proof.
  intros i g name body v Hi Hin.
  destruct i as [|[|[|i]]]; simpl in Hi; try done;
    injection Hi as <-; simpl in Hin;
    repeat (apply elem_of_cons in Hin as [Hin|Hin];
            [try done; by injection Hin as _ ->|]);
    by apply elem_of_nil in Hin.
Qed.

Lemma dispatch_sound_witness :
  ∃ t, (parse 0 nested_buffer three_level_world).2
         = World (filters three_level_world) t ∧
       Forall (λ e, ∃ self v,
                 filters three_level_world !! 0 = Some self ∧
                 frame_parse (filter_frame_type self) nested_buffer
                   = Returned v ∧
                 accounted (filters three_level_world) 0 v e) t.
Proof.
  destruct (parse 0 nested_buffer three_level_world) as [r0 w0] eqn:Hrun.
  destruct (dispatch_sound three_level_world 0 nested_buffer r0 w0 Hrun)
    as (t & Hw & Ht).
  exists t. split; [exact Hw|exact Ht].
Defined.

Lemma callbacks_get_checked_views_witness :
  ∃ t, (parse 0 nested_buffer three_level_world).2
         = World (filters three_level_world) t ∧
       Forall (λ e, check_frame (event_view e) = true ∧
                    const_bytes (const_helper_buffer (event_view e))
                      `suffix_of` const_bytes nested_buffer) t.
Proof.
  destruct (parse 0 nested_buffer three_level_world) as [r0 w0] eqn:Hrun.
  destruct (callbacks_get_checked_views three_level_world 0 nested_buffer
              r0 w0 Hrun) as (t & Hw & Ht).
  exists t. split; [exact Hw|].
  eapply Forall_impl; [exact Ht|].
  intros e (g & _ & _ & _ & Hchk & Hsuffix). split; [exact Hchk|exact Hsuffix].
Defined.

(** The observer of the [Net] child throws something else than a
    [std::runtime_error]: it leaves [parse], and the root observer
    registered after the child is not invoked. *)
Lemma escaping_exception_origin_witness :
  parse 0 nested_buffer escaping_world
  = (Thrown (other_exception "stop"),
     World (filters escaping_world)
           [Invoked 0 (BoundParse 1) link_view;
            Invoked 1 (throwing 5 (other_exception "stop")) net_view]) ∧
  ∃ t0 owner name body v,
    [Invoked 0 (BoundParse 1) link_view;
     Invoked 1 (throwing 5 (other_exception "stop")) net_view]
    = t0 ++ [Invoked owner (Observer name body) v] ∧
    body v = Some (other_exception "stop").
Proof.
  assert (Hrun : parse 0 nested_buffer escaping_world
    = (Thrown (other_exception "stop"),
       World (filters escaping_world)
             [Invoked 0 (BoundParse 1) link_view;
              Invoked 1 (throwing 5 (other_exception "stop")) net_view]))
    by reflexivity.
  split; [exact Hrun|].
  destruct (escaping_exception_origin escaping_world 0 nested_buffer
              (other_exception "stop") _ Hrun)
    as (_ & t0 & owner & name & body & v & Hw & Hbody).
  exists t0, owner, name, body, v. split; [|exact Hbody].
  injection Hw as Hw. exact Hw.
Defined.

Lemma dispatch_complete_witness :
  ∃ t, parse 0 nested_buffer three_level_world
       = (Returned tt, World (filters three_level_world) t) ∧
       Invoked 2 (quiet 3) transport_view ∈ t.
Proof.
  destruct (dispatch_complete three_level_world 0 nested_buffer
              (FilterObject Link None [quiet 1; BoundParse 1]) link_view
              three_level_world_wf three_level_world_quiet)
    as (t & Hrun & Hall); [reflexivity..|].
  exists t. split; [exact Hrun|].
  apply (Hall 2 transport_view (FilterObject Transport (Some 1) [quiet 3])).
  - eapply (reaches_child _ 0 _ link_view 1 _ net_view);
      [reflexivity|right; left|reflexivity|reflexivity|reflexivity|].
    eapply (reaches_child _ 1 _ net_view 2 _ transport_view);
      [reflexivity|right; left|reflexivity|reflexivity|reflexivity|].
    apply reaches_here.
  - reflexivity.
  - left.
Defined.

Lemma parse_completes_reachable_witness :
  ∃ r t, parse 0 short_buffer three_level_world
         = (r, World (filters three_level_world) t) ∧
         ∀ why, r ≠ Stuck why.
Proof.
  apply (parse_completes_reachable three_level_world 0 short_buffer).
  - exact three_level_world_reachable.
  - cbv; lia.
Defined.

Lemma reachable_forest_witness :
  wf_filters (filters three_level_world) ∧
  registered_once (filters three_level_world) ∧
  BoundParse 0 ∉ registry three_level_world 2.
Proof.
  destruct (reachable_forest _ three_level_world_reachable)
    as (Hwf & Honce & Hroot).
  split; [exact Hwf|]. split; [exact Honce|].
  change (BoundParse 0
          ∉ m_callbacks (FilterObject Transport (Some 1) [quiet 3])).
  apply (Hroot 0 (FilterObject Link None [quiet 1; BoundParse 1])
           eq_refl eq_refl 2).
  reflexivity.
Defined.

Lemma new_filter_effect_witness :
  ∃ w', new_filter Alt 0 three_level_world = (Returned 3, w') ∧
        filters w' !! 3 = Some (FilterObject Alt (Some 0) []) ∧
        filters w' !! 0
        = Some (FilterObject Link None [quiet 1; BoundParse 1; BoundParse 3]).
Proof.
  destruct (new_filter_effect three_level_world Alt 0
              (FilterObject Link None [quiet 1; BoundParse 1]))
    as (w' & Hrun & _ & _ & Hnew & Hparent & _); [reflexivity|].
  exists w'. split; [exact Hrun|]. split; [exact Hnew|exact Hparent].
Defined.

Lemma each_filter_dispatched_at_most_once_witness :
  ∃ t, (parse 0 nested_buffer three_level_world).2
         = World (filters three_level_world) t ∧
       ∀ f, invocations_of f t = [] ∨
            ∃ v, invocations_of f t
                   `prefix_of` map (λ cb, Invoked f cb v)
                                   (registry three_level_world f).
Proof.
  destruct (parse 0 nested_buffer three_level_world) as [r0 w0] eqn:Hrun.
  destruct (each_filter_dispatched_at_most_once three_level_world 0
              nested_buffer r0 w0 three_level_world_reachable Hrun)
    as (t & Hw & Hall).
  exists t. split; [exact Hw|exact Hall].
Defined.

Lemma one_more_observer_witness :
  ∃ w1, add_callback 0 (quiet 4) link_world = (Returned tt, w1) ∧
        frame_handled 1 0 link_view w1
        = (Returned tt,
           World (filters w1)
                 [Invoked 0 (quiet 1) link_view;
                  Invoked 0 (quiet 4) link_view]).
Proof.
  destruct (one_more_observer 1 link_world 0
              (FilterObject Link None [quiet 1]) 4 (λ _, None) link_view
              [Invoked 0 (quiet 1) link_view])
    as (w1 & Hadd & _ & Hrun).
  - intros i f c Hi Hin. destruct i as [|i]; [|done].
    injection Hi as <-. simpl in Hin.
    apply elem_of_cons in Hin as [Hin|Hin]; [done|].
    by apply elem_of_nil in Hin.
  - reflexivity.
  - reflexivity.
  - exists w1. split; [exact Hadd|exact Hrun].
Defined.

(** ** Children come after their parent *)

Section Causality.
Context {frame_type : Type} `{OSIFrameType frame_type}.

Abbreviation store := (list (filter_object frame_type)).
Abbreviation trace := (list (event frame_type)).

Implicit Types (fs : store) (t seen : trace) (w : world frame_type).

Lemma announced_by_mono fs seen seen' e :
  (∀ x, x ∈ seen → x ∈ seen') →
  announced_by fs seen e → announced_by fs seen' e.
Proof.
  intros Hsub (p & pv & g & Hin & Hrest). exists p, pv, g. split; [|done].
  by apply Hsub.
Qed.

Lemma causal_weaken fs (here here' : event frame_type → Prop) seen seen' t :
  (∀ e s, here e → here' e ∨ announced_by fs (seen' ++ s) e) →
  (∀ x, x ∈ seen → x ∈ seen') →
  causal fs here seen t → causal fs here' seen' t.
Proof.
  revert seen seen'. induction t as [|e t IH]; intros seen seen' Hhere Hsub;
    [done|].
  simpl. intros [He Ht]. split.
  - destruct He as [He|He].
    + specialize (Hhere e [] He). by rewrite app_nil_r in Hhere.
    + right. by eapply announced_by_mono.
  - eapply IH; [| |exact Ht].
    + intros e' s' He'. rewrite <- app_assoc. by apply Hhere.
    + intros x. rewrite !elem_of_app. intros [?|?]; [left; by apply Hsub|by right].
Qed.

Lemma causal_app fs here seen t1 t2 :
  causal fs here seen t1 → causal fs here (seen ++ t1) t2 →
  causal fs here seen (t1 ++ t2).
Proof.
  revert seen. induction t1 as [|e t1 IH]; intros seen; simpl.
  - intros _. by rewrite app_nil_r.
  - intros [He Ht1] Ht2. split; [done|]. apply IH; [done|].
    by rewrite <- app_assoc.
Qed.

Lemma causal_split fs here seen t t1 e t2 :
  causal fs here seen t → t = t1 ++ e :: t2 →
  here e ∨ announced_by fs (seen ++ t1) e.
Proof.
  revert seen t. induction t1 as [|x t1 IH]; intros seen t Ht ->; simpl in Ht.
  - rewrite app_nil_r. tauto.
  - destruct Ht as [_ Ht]. specialize (IH _ _ Ht eq_refl).
    by rewrite <- app_assoc in IH.
Qed.

Lemma dispatch_causal fuel fs q vq cbs l r w' :
  (∀ c pv l r w', filter_parse fuel c pv (World fs l) = (r, w') →
     ∃ t, w' = World fs (l ++ t) ∧
          causal fs (λ e, event_owner e = c ∧
                          ∃ g, fs !! c = Some g ∧
                               frame_parent_match (filter_frame_type g) pv = true ∧
                               frame_parse (filter_frame_type g) (payload pv)
                                 = Returned (event_view e)) [] t) →
  for_each (call_callback (filter_parse fuel) q vq) cbs (World fs l) = (r, w') →
  ∃ t, w' = World fs (l ++ t) ∧
       causal fs (λ e, event_owner e = q ∧ event_view e = vq) [] t.
Proof.
  intros Hparse. revert l. induction cbs as [|cb cbs IH]; intros l;
    cbn [for_each].
  { intros [= <- <-]. exists []. by rewrite app_nil_r. }
  destruct (call_callback (filter_parse fuel) q vq cb (World fs l))
    as [r1 w1] eqn:Hcall.
  assert (Hhead : ∃ t1, w1 = World fs (l ++ Invoked q cb vq :: t1) ∧
    causal fs (λ e, event_owner e = q ∧ event_view e = vq) []
           (Invoked q cb vq :: t1)).
  { unfold call_callback in Hcall.
    erewrite bind_Returned in Hcall; [|reflexivity]. simpl in Hcall.
    destruct cb as [name body|c1].
    - exists []. split; [by destruct (body vq); injection Hcall as <- <-|].
      simpl. split; [by left|done].
    - destruct (Hparse _ _ _ _ _ Hcall) as (t1 & -> & Ht1).
      exists t1. split; [by rewrite <- app_assoc|].
      simpl. split; [by left|].
      eapply causal_weaken; [| |exact Ht1];
        [|intros x Hx; by apply elem_of_nil in Hx].
      intros e s [Howner (g & Hg & Hmatch & Hv)]. right.
      exists q, vq, g. rewrite Howner. split; [|done].
      apply elem_of_app. left. by left. }
  destruct Hhead as (t1 & -> & Hseg).
  destruct r1 as [[]|e1|why].
  - rewrite (bind_Returned _ _ _ _ _ Hcall). intros Hrest.
    destruct (IH _ Hrest) as (t2 & -> & Ht2).
    exists ((Invoked q cb vq :: t1) ++ t2).
    split; [by rewrite <- app_assoc|].
    apply causal_app; [done|].
    eapply causal_weaken; [| |exact Ht2]; [by left|].
    intros x Hx. by apply elem_of_nil in Hx.
  - rewrite (bind_Thrown _ _ _ _ _ Hcall). intros [= <- <-]. eauto.
  - rewrite (bind_Stuck _ _ _ _ _ Hcall). intros [= <- <-]. eauto.
Qed.

Lemma filter_parse_causal fuel fs c pv l r w' :
  filter_parse fuel c pv (World fs l) = (r, w') →
  ∃ t, w' = World fs (l ++ t) ∧
       causal fs (λ e, event_owner e = c ∧
                       ∃ g, fs !! c = Some g ∧
                            frame_parent_match (filter_frame_type g) pv = true ∧
                            frame_parse (filter_frame_type g) (payload pv)
                              = Returned (event_view e)) [] t.
Proof.
  revert c pv l r w'. induction fuel as [|fuel IH]; intros c pv l r w'.
  { intros [= <- <-]. exists []. by rewrite app_nil_r. }
  rewrite filter_parse_S.
  assert (Hnothing : ∀ r0, (r0, World fs l) = (r, w') →
    ∃ t, w' = World fs (l ++ t) ∧
      causal fs (λ e, event_owner e = c ∧
                      ∃ g, fs !! c = Some g ∧
                           frame_parent_match (filter_frame_type g) pv = true ∧
                           frame_parse (filter_frame_type g) (payload pv)
                             = Returned (event_view e)) [] t).
  { intros r0 [= <- <-]. exists []. by rewrite app_nil_r. }
  destruct (fs !! c) as [self|] eqn:Hself; [|apply Hnothing].
  destruct (frame_parent_match _ _) eqn:Hmatch; [|apply Hnothing].
  destruct (frame_parse _ _) as [v1| |] eqn:Hv1; [|apply Hnothing..].
  intros Hrun. apply try_catch_inv in Hrun as (r0 & Hrun & _).
  destruct (dispatch_causal fuel fs c v1 _ l r0 w' IH Hrun) as (t & -> & Ht).
  exists t. split; [done|].
  eapply causal_weaken; [| |exact Ht]; [|done].
  intros e s [Howner ->]. left. split; [done|]. by exists self.
Qed.

(** X10. During [parse] on a root filter, every invocation is made either
    by the root, on the view [frame_parse] returned for the buffer, or by
    a filter whose bound [parse] was invoked earlier in the same call, by
    another filter, on a view that announces it and whose payload parses
    as the view of the invocation. A child never runs before the dispatch
    of its parent has reached its entry; whatever the parent registered
    before that entry has been invoked by then. *)
Theorem children_after_parent w (this : nat) (buf : const_buffer) r w' :
  parse this buf w = (r, w') →
  ∃ t, w' = World (filters w) (log w ++ t) ∧
       ∀ t1 e t2, t = t1 ++ e :: t2 →
         (event_owner e = this ∧
          ∃ self, filters w !! this = Some self ∧
                  frame_parse (filter_frame_type self) buf
                    = Returned (event_view e)) ∨
         announced_by (filters w) t1 e.
Proof.
  destruct w as [fs l]. unfold parse. simpl. rewrite root_parse_cases.
  assert (Hnothing : ∀ r0, (r0, World fs l) = (r, w') →
    ∃ t, w' = World fs (l ++ t) ∧
      ∀ t1 e t2, t = t1 ++ e :: t2 →
        (event_owner e = this ∧
         ∃ self, fs !! this = Some self ∧
                 frame_parse (filter_frame_type self) buf
                   = Returned (event_view e)) ∨
        announced_by fs t1 e).
  { intros r0 [= <- <-]. exists []. rewrite app_nil_r. split; [done|].
    intros t1 e t2 Heq. by destruct t1. }
  destruct (fs !! this) as [self|] eqn:Hself; [|apply Hnothing].
  destruct (frame_parse _ _) as [v| |] eqn:Hv; [|apply Hnothing..].
  intros Hrun. apply try_catch_inv in Hrun as (r0 & Hrun & _).
  destruct (dispatch_causal _ fs this v _ l r0 w'
              (filter_parse_causal _ fs) Hrun) as (t & -> & Ht).
  exists t. split; [done|]. intros t1 e t2 Heq.
  destruct (causal_split _ _ _ _ _ _ _ Ht Heq) as [[Howner ->]|Hann].
  - left. split; [done|]. by exists self.
  - by right.
Qed.

(** X11. The [parse] of a non-root filter is a no-op, returning normally
    with the world untouched, in each of these cases: the encapsulation
    predicate rejects the parent view; the payload of the parent view is
    shorter than the header of the filter's frame type; the validator
    rejects the payload. *)
Theorem filter_parse_no_op (fuel : nat) w (this : nat)
    (self : filter_object frame_type) (parent : const_helper frame_type) :
  filters w !! this = Some self →
  frame_parent_match (filter_frame_type self) parent = false ∨
  buffer_size (payload parent) < sizeof (filter_frame_type self) ∨
  check_frame (helper (filter_frame_type self) (payload parent)) = false →
  filter_parse (S fuel) this parent w = (Returned tt, w).
Proof.
  destruct w as [fs l]. cbn [filters]. intros Hself Hcases.
  rewrite filter_parse_S, Hself.
  destruct (frame_parent_match _ _); [|done].
  destruct Hcases as [?|Hcases]; [done|].
  destruct (frame_parse _ _) as [v| |] eqn:Hv; [|done..].
  apply frame_parse_Returned in Hv as (-> & Hsize & Hcheck).
  destruct Hcases as [Hshort|Hreject]; [lia|congruence].
Qed.
End Causality.

Lemma children_after_parent_witness :
  ∃ t, (parse 0 nested_buffer three_level_world).2
         = World (filters three_level_world) t ∧
       ∀ t1 e t2, t = t1 ++ e :: t2 →
         (event_owner e = 0 ∧
          ∃ self, filters three_level_world !! 0 = Some self ∧
                  frame_parse (filter_frame_type self) nested_buffer
                    = Returned (event_view e)) ∨
         announced_by (filters three_level_world) t1 e.
Proof.
  destruct (parse 0 nested_buffer three_level_world) as [r0 w0] eqn:Hrun.
  destruct (children_after_parent three_level_world 0 nested_buffer r0 w0 Hrun)
    as (t & Hw & Ht).
  exists t. split; [exact Hw|exact Ht].
Defined.

(** A [Link] frame that announces [Net] but carries no payload: the [Net]
    filter does nothing. *)
Lemma filter_parse_no_op_witness :
  frame_parent_match Net (helper Link (ConstBuffer [x01; x02; x00; x00]))
    = true ∧
  filter_parse 2 1 (helper Link (ConstBuffer [x01; x02; x00; x00]))
    three_level_world
  = (Returned tt, three_level_world).
Proof.
  split; [reflexivity|].
  apply (filter_parse_no_op 1 three_level_world 1
           (FilterObject Net (Some 0) [quiet 2; BoundParse 2])).
  - reflexivity.
  - right. left. cbv. lia.
Defined.

Lemma parse_stays_in_tree_witness :
  ∃ t, (parse 0 nested_buffer fan_out_world).2
         = World (filters fan_out_world) t ∧
       Forall (λ e, descends (filters fan_out_world) (event_owner e) 0) t.
Proof.
  destruct (parse 0 nested_buffer fan_out_world) as [r0 w0] eqn:Hrun.
  destruct (parse_stays_in_tree fan_out_world 0 nested_buffer r0 w0
              fan_out_world_wf Hrun) as (t & Hw & Ht).
  exists t. split; [exact Hw|exact Ht].
Defined.

Lemma parse_invocation_bound_witness :
  ∃ t, (parse 0 nested_buffer three_level_world).2
         = World (filters three_level_world) t ∧
       length t ≤ 5.
Proof.
  destruct (parse 0 nested_buffer three_level_world) as [r0 w0] eqn:Hrun.
  destruct (parse_invocation_bound three_level_world 0 nested_buffer r0 w0
              three_level_world_reachable Hrun) as (t & Hw & Ht).
  exists t. split; [exact Hw|exact Ht].
Defined.

(** ** Dispatch as the application of each callback in turn *)

Section Dispatched.
Context {frame_type : Type} `{OSIFrameType frame_type}.

Abbreviation store := (list (filter_object frame_type)).
Abbreviation trace := (list (event frame_type)).

Implicit Types (fs : store) (t : trace) (w : world frame_type).

Lemma call_callback_apply fuel (this : nat) (v : const_helper frame_type)
    (cb : callback frame_type) w :
  call_callback (filter_parse fuel) this v cb w
  = (log_event (Invoked this cb v);; apply_callback fuel cb v) w.
Proof. by destruct cb. Qed.

Lemma framed_apply_callback fs fuel (v : const_helper frame_type)
    (cb : callback frame_type) :
  traced (λ _, True) fs (apply_callback fuel cb v).
Proof.
  destruct cb as [name body|c]; simpl.
  - destruct (body v); [by apply traced_lift|by apply traced_ret].
  - apply framed_filter_parse.
Qed.

Lemma for_each_dispatched fuel fs (this : nat) (v : const_helper frame_type)
    (cbs : list (callback frame_type)) l r w' :
  for_each (call_callback (filter_parse fuel) this v) cbs (World fs l)
    = (r, w') →
  ∃ t, w' = World fs (l ++ t) ∧ dispatched fuel fs this v cbs t r.
Proof.
  revert l. induction cbs as [|cb cbs IH]; intros l; cbn [for_each].
  { intros [= <- <-]. exists []. rewrite app_nil_r.
    split; [done|apply dispatched_nil]. }
  destruct (framed_apply_callback fs fuel v cb) as (r1 & t1 & _ & Happly).
  assert (Hcall : call_callback (filter_parse fuel) this v cb (World fs l)
                  = (r1, World fs (l ++ Invoked this cb v :: t1))).
  { rewrite call_callback_apply. erewrite bind_Returned; [|reflexivity].
    simpl. rewrite Happly. by rewrite <- app_assoc. }
  destruct r1 as [[]|e|why].
  - rewrite (bind_Returned _ _ _ _ _ Hcall). intros Hrest.
    destruct (IH _ Hrest) as (t2 & -> & Ht2).
    exists (Invoked this cb v :: t1 ++ t2). split.
    + f_equal. rewrite <- app_assoc. by simpl.
    + by apply dispatched_returned.
  - rewrite (bind_Thrown _ _ _ _ _ Hcall). intros [= <- <-].
    exists (Invoked this cb v :: t1). split; [done|].
    by apply dispatched_aborted.
  - rewrite (bind_Stuck _ _ _ _ _ Hcall). intros [= <- <-].
    exists (Invoked this cb v :: t1). split; [done|].
    by apply dispatched_aborted.
Qed.

Lemma frame_handled_dispatched fuel fs (this : nat) self
    (v : const_helper frame_type) l r w' :
  fs !! this = Some self →
  frame_handled fuel this v (World fs l) = (r, w') →
  ∃ t, w' = World fs (l ++ t) ∧
       dispatched fuel fs this v (m_callbacks self) t r.
Proof.
  intros Hself. unfold frame_handled, frame_handled_with.
  rewrite (bind_Returned _ _ _ _ _ (get_filter_Some _ _ l _ Hself)).
  apply for_each_dispatched.
Qed.

(** A dispatch that returns has applied every callback, and every one of
    them returned. *)
Lemma dispatched_returned_all fuel fs (this : nat)
    (v : const_helper frame_type) cbs t :
  dispatched fuel fs this v cbs t (Returned tt) →
  ∀ cb, cb ∈ cbs →
    ∃ t0 t1 t2,
      t = t0 ++ Invoked this cb v :: t1 ++ t2 ∧
      ∀ l, apply_callback fuel cb v (World fs l)
           = (Returned tt, World fs (l ++ t1)).
Proof.
  intros Hd. remember (Returned tt) as r eqn:Hr.
  induction Hd as [|cb0 cbs t1 t2 r Happly Hrest IH|cb0 cbs t1 r Happly Hne];
    intros cb Hcb.
  - by apply elem_of_nil in Hcb.
  - specialize (IH Hr). subst r.
    apply elem_of_cons in Hcb as [->|Hcb].
    + exists [], t1, t2. split; [reflexivity|exact Happly].
    + destruct (IH cb Hcb) as (t0 & t1' & t2' & -> & Hcb').
      exists (Invoked this cb0 v :: t1 ++ t0), t1', t2'.
      split; [|done]. simpl. by rewrite <- app_assoc.
  - by destruct Hne.
Qed.

(** In a well-formed store whose observers never throw, with enough fuel,
    every dispatch returns. *)
Lemma quiet_dispatch_returns fuel fs (this : nat) self
    (v : const_helper frame_type) :
  wf_filters fs → no_observer_throws fs → fs !! this = Some self →
  length fs ≤ S (fuel + this) →
  ∃ t, ∀ l, frame_handled fuel this v (World fs l)
            = (Returned tt, World fs (l ++ t)).
Proof.
  intros Hwf Hquiet Hself Hfuel.
  pose proof (lookup_lt_Some _ _ _ Hself) as Hthis.
  destruct (framed_frame_handled fs fuel this v) as (r & t & _ & Hrun).
  exists t. intros l. rewrite Hrun. f_equal.
  destruct r as [[]|e|why]; [done| |].
  - pose proof (Hrun []) as Hrun0.
    unfold frame_handled, frame_handled_with in Hrun0.
    rewrite (bind_Returned _ _ _ _ _ (get_filter_Some _ _ _ _ Hself)) in Hrun0.
    by destruct (quiet_dispatch_not_thrown _ _ _ _ _ _ _ _
                   Hquiet Hself Hrun0 e).
  - destruct (completes_frame_handled fs fuel this v Hwf Hthis Hfuel [] why).
    by rewrite Hrun.
Qed.

(** C6, as the code has it. [add_callback] appends the callback at the end
    of the registry of its filter and touches nothing else, and no
    operation of the engine ever removes or reorders the entries of a
    registry. [frame_handled] takes the callbacks of the registry in
    registration order and applies each to the same view, up to and
    including the first one that does not return: the callbacks registered
    after a callback that throws are not invoked. In a well-formed store
    whose observers never throw the dispatch returns, and every callback of
    the registry has been invoked, applied, and has returned. *)
Theorem registry_order_dispatch :
  (∀ w this self cb,
     filters w !! this = Some self →
     ∃ w', add_callback this cb w = (Returned tt, w') ∧ log w' = log w ∧
           registry w' this = registry w this ++ [cb] ∧
           ∀ other, other ≠ this → registry w' other = registry w other) ∧
  (∀ (o : operation) w r w' this,
     perform o w = (r, w') →
     registry w this `prefix_of` registry w' this) ∧
  (∀ fuel w this self v r w',
     filters w !! this = Some self →
     frame_handled fuel this v w = (r, w') →
     ∃ t, w' = World (filters w) (log w ++ t) ∧
          dispatched fuel (filters w) this v (m_callbacks self) t r ∧
          (wf_filters (filters w) →
           invocations_of this t
             `prefix_of` map (λ cb, Invoked this cb v) (m_callbacks self))) ∧
  (∀ fuel w this self v,
     wf_filters (filters w) → no_observer_throws (filters w) →
     filters w !! this = Some self →
     length (filters w) ≤ S (fuel + this) →
     ∃ t, frame_handled fuel this v w
          = (Returned tt, World (filters w) (log w ++ t)) ∧
          dispatched fuel (filters w) this v (m_callbacks self) t
                     (Returned tt) ∧
          invocations_of this t
          = map (λ cb, Invoked this cb v) (m_callbacks self) ∧
          ∀ cb, cb ∈ m_callbacks self →
            ∃ t0 t1 t2,
              t = t0 ++ Invoked this cb v :: t1 ++ t2 ∧
              ∀ l, apply_callback fuel cb v (World (filters w) l)
                   = (Returned tt, World (filters w) (l ++ t1))).
Proof.
  split; [|split; [|split]].
  - intros w this self cb Hself.
    destruct (add_callback_registry w this self cb Hself)
      as (w' & Hrun & Hlog & _ & Hthis & Hother).
    exists w'. repeat (split; [done|]).
    intros other Hne. unfold registry. by rewrite Hother.
  - intros o w r w' this. apply perform_prefix.
  - intros fuel [fs l] this self v r w' Hself Hrun. simpl in *.
    destruct (frame_handled_dispatched _ _ _ _ _ _ _ _ Hself Hrun)
      as (t & -> & Hd).
    exists t. split; [done|]. split; [done|]. intros Hwf.
    destruct (frame_handled_invocations _ _ _ _ _ _ _ Hwf Hrun)
      as (t' & Heq & Hpre & _).
    injection Heq as Heq. apply app_inv_head in Heq. subst t'.
    unfold registry in Hpre. simpl in Hpre. by rewrite Hself in Hpre.
  - intros fuel [fs l] this self v Hwf Hquiet Hself Hfuel. simpl in *.
    destruct (quiet_dispatch_returns fuel fs this self v Hwf Hquiet Hself Hfuel)
      as (t & Hrun).
    exists t. split; [apply Hrun|].
    destruct (frame_handled_dispatched _ _ _ _ _ _ _ _ Hself (Hrun l))
      as (t' & Heq & Hd).
    injection Heq as Heq. apply app_inv_head in Heq. subst t'.
    split; [done|]. split.
    + destruct (frame_handled_invocations _ _ _ _ _ _ _ Hwf (Hrun l))
        as (t' & Heq & _ & Hall).
      injection Heq as Heq. apply app_inv_head in Heq. subst t'.
      rewrite Hall; [|done]. unfold registry. simpl. by rewrite Hself.
    + by apply dispatched_returned_all.
Qed.

End Dispatched.

(** ** Dispatch and fan-out on the small protocol stack *)


Lemma blocked_fan_out_world_wf : wf_filters (filters blocked_fan_out_world).
Proof. wf_by_cases. Qed.

(** Subscribing a second observer to the root of [link_world] puts it after
    the first; the dispatch of the root of the three-level tree, whose
    observers never throw, applies its two callbacks, in registration
    order, to the same view. *)
Lemma registry_order_dispatch_witness :
  registry (add_callback 0 (quiet 4) link_world).2 0 = [quiet 1; quiet 4] ∧
  ∃ t, frame_handled 3 0 link_view three_level_world
       = (Returned tt, World (filters three_level_world) t) ∧
       dispatched 3 (filters three_level_world) 0 link_view
                  [quiet 1; BoundParse 1] t (Returned tt) ∧
       invocations_of 0 t
       = [Invoked 0 (quiet 1) link_view; Invoked 0 (BoundParse 1) link_view].
Proof.
  destruct (@registry_order_dispatch toy_frame _) as (Hadd & _ & _ & Hall).
  split.
  - destruct (Hadd link_world 0 (FilterObject Link None [quiet 1]) (quiet 4))
      as (w' & Hrun & _ & Hreg & _); [reflexivity|].
    rewrite Hrun. exact Hreg.
  - destruct (Hall 3 three_level_world 0
                (FilterObject Link None [quiet 1; BoundParse 1]) link_view)
      as (t & Hrun & Hd & Hinv & _).
    + exact three_level_world_wf.
    + exact three_level_world_quiet.
    + reflexivity.
    + cbv; lia.
    + exists t. split; [exact Hrun|]. split; [exact Hd|exact Hinv].
Defined.

(** C6 fails as stated. The registry of the root of [throwing_root_world]
    holds two observers, and the first throws: the dispatch of the root
    invokes the first one only and ends with its exception; the second
    callback of the registry is never invoked. *)
Lemma registry_order_dispatch_counterexample :
  registry throwing_root_world 0
    = [throwing 1 (runtime_error "boom"); quiet 2] ∧
  frame_handled 1 0 link_view throwing_root_world
    = (Thrown (runtime_error "boom"),
       World (filters throwing_root_world)
             [Invoked 0 (throwing 1 (runtime_error "boom")) link_view]) ∧
  (∀ v, Invoked 0 (quiet 2) v
        ∉ log (frame_handled 1 0 link_view throwing_root_world).2) ∧
  invocations_of 0 (log (frame_handled 1 0 link_view throwing_root_world).2)
    ≠ map (λ cb, Invoked 0 cb link_view) (registry throwing_root_world 0).
Proof.
  split; [reflexivity|]. split; [reflexivity|]. split.
  - intros v Hin. simpl in Hin.
    apply elem_of_cons in Hin as [Hin|Hin]; [discriminate Hin|].
    by apply elem_of_nil in Hin.
  - discriminate.
Qed.



(** ** Submitting a buffer twice, with observers that keep state *)

Section Resubmission.
Context {frame_type memory : Type} `{OSIFrameType frame_type}.

Abbreviation M := (Stateful.M frame_type memory).
Abbreviation view := (const_helper frame_type).
Abbreviation store := (list (Stateful.filter_object frame_type memory)).

Implicit Types (fs : store).

(** *** The same completion and the same events *)

Lemma repeatable_ret {A} fs (a : A) : Stateful.repeatable fs (mret a : M A).
Proof.
  intros s1 l1 s2 l2. exists (Returned a), [], s1, s2.
  by rewrite !app_nil_r.
Qed.

Lemma repeatable_lift {A} fs (c : completion A) :
  Stateful.repeatable fs (Stateful.lift c : M A).
Proof.
  intros s1 l1 s2 l2. exists c, [], s1, s2. by rewrite !app_nil_r.
Qed.

Lemma repeatable_log_event fs e :
  Stateful.repeatable fs (Stateful.log_event e : M unit).
Proof. intros s1 l1 s2 l2. by exists (Returned tt), [e], s1, s2. Qed.

Lemma repeatable_bind {A B} fs (m : M A) (k : A → M B) :
  Stateful.repeatable fs m → (∀ a, Stateful.repeatable fs (k a)) →
  Stateful.repeatable fs (m ≫= k).
Proof.
  intros Hm Hk s1 l1 s2 l2.
  destruct (Hm s1 l1 s2 l2) as (c & t & s1' & s2' & H1 & H2).
  unfold mbind, Stateful.M_bind, Stateful.bind. rewrite H1, H2.
  destruct c as [a|e|why].
  - destruct (Hk a s1' (l1 ++ t) s2' (l2 ++ t))
      as (c' & t' & s1'' & s2'' & K1 & K2).
    exists c', (t ++ t'), s1'', s2''. rewrite K1, K2.
    by rewrite !app_assoc.
  - by exists (Thrown e), t, s1', s2'.
  - by exists (Stuck why), t, s1', s2'.
Qed.

Lemma repeatable_get_filter_bind {B} fs this
    (k : Stateful.filter_object frame_type memory → M B) :
  (∀ self, fs !! this = Some self → Stateful.repeatable fs (k self)) →
  Stateful.repeatable fs (Stateful.get_filter this ≫= k).
Proof.
  intros Hk s1 l1 s2 l2.
  unfold mbind, Stateful.M_bind, Stateful.bind, Stateful.get_filter. simpl.
  destruct (fs !! this) as [self|] eqn:Hl.
  - apply (Hk self eq_refl).
  - exists (Stuck dangling_filter), [], s1, s2. by rewrite !app_nil_r.
Qed.

Lemma repeatable_try_catch fs (m : M unit) :
  Stateful.repeatable fs m →
  Stateful.repeatable fs (Stateful.try_catch_runtime_error m).
Proof.
  intros Hm s1 l1 s2 l2.
  destruct (Hm s1 l1 s2 l2) as (c & t & s1' & s2' & H1 & H2).
  exists (match c with Thrown (runtime_error _) => Returned tt | _ => c end),
         t, s1', s2'.
  unfold Stateful.try_catch_runtime_error. rewrite H1, H2.
  by destruct c as [[]|[]|].
Qed.

Lemma repeatable_for_each {A} fs (f : A → M unit) (l : list A) :
  (∀ x, x ∈ l → Stateful.repeatable fs (f x)) →
  Stateful.repeatable fs (Stateful.for_each f l).
Proof.
  induction l as [|x l IH]; intros Hf; simpl.
  - apply repeatable_ret.
  - apply repeatable_bind.
    + apply Hf. by left.
    + intros _. apply IH. intros y Hy. apply Hf. by right.
Qed.

Lemma repeatable_call_observer fs
    (body : view → memory → option exception * memory) (v : view) :
  (∀ s s', (body v s).1 = (body v s').1) →
  Stateful.repeatable fs (Stateful.call_observer body v).
Proof.
  intros Hbody s1 l1 s2 l2.
  exists (match (body v s1).1 with
          | None => Returned tt
          | Some e => Thrown e
          end), [], (body v s1).2, (body v s2).2.
  unfold Stateful.call_observer. simpl. rewrite !app_nil_r.
  pose proof (Hbody s1 s2) as Heq.
  destruct (body v s1) as [r1 s1'], (body v s2) as [r2 s2'].
  simpl in *. by subst r2.
Qed.

Lemma repeatable_frame_handled_with fs (parse : nat → view → M unit) c v :
  Stateful.completion_stateless fs →
  (∀ c', Stateful.repeatable fs (parse c' v)) →
  Stateful.repeatable fs (Stateful.frame_handled_with parse c v).
Proof.
  intros Hfs Hparse. unfold Stateful.frame_handled_with.
  apply repeatable_get_filter_bind. intros self Hself.
  apply repeatable_for_each. intros cb Hcb. unfold Stateful.call_callback.
  apply repeatable_bind; [apply repeatable_log_event|].
  intros _. destruct cb as [name body|c'].
  - apply repeatable_call_observer. intros s s'. by eapply Hfs.
  - apply Hparse.
Qed.

Lemma repeatable_filter_parse fs fuel c pv :
  Stateful.completion_stateless fs →
  Stateful.repeatable fs (Stateful.filter_parse fuel c pv).
Proof.
  intros Hfs. revert c pv. induction fuel as [|fuel IH]; intros c pv; simpl.
  - apply repeatable_lift.
  - apply repeatable_get_filter_bind. intros self Hself.
    destruct (frame_parent_match _ _); [|apply repeatable_ret].
    apply repeatable_try_catch, repeatable_bind; [apply repeatable_lift|].
    intros v. apply repeatable_frame_handled_with; [done|].
    intros c'. apply IH.
Qed.

Lemma repeatable_root_parse fs fuel c buf :
  Stateful.completion_stateless fs →
  Stateful.repeatable fs (Stateful.root_parse fuel c buf).
Proof.
  intros Hfs. unfold Stateful.root_parse.
  apply repeatable_get_filter_bind. intros self Hself.
  apply repeatable_try_catch, repeatable_bind; [apply repeatable_lift|].
  intros v. apply repeatable_frame_handled_with; [done|].
  intros c'. by apply repeatable_filter_parse.
Qed.

(** *** Enough fuel *)

Lemma stateful_completes_ret {A} fs (a : A) :
  Stateful.completes fs (mret a : M A).
Proof. intros s l. by exists (Returned a), s, l. Qed.

Lemma stateful_completes_bind {A B} fs (m : M A) (k : A → M B) :
  Stateful.completes fs m → (∀ a, Stateful.completes fs (k a)) →
  Stateful.completes fs (m ≫= k).
Proof.
  intros Hm Hk s l. destruct (Hm s l) as (c & s' & l' & Hrun & Hc).
  unfold mbind, Stateful.M_bind, Stateful.bind. rewrite Hrun.
  destruct c as [a|e|why].
  - apply Hk.
  - by exists (Thrown e), s', l'.
  - by destruct (Hc why).
Qed.

Lemma stateful_completes_get_filter_bind {B} fs this
    (k : Stateful.filter_object frame_type memory → M B) :
  this < length fs →
  (∀ self, fs !! this = Some self → Stateful.completes fs (k self)) →
  Stateful.completes fs (Stateful.get_filter this ≫= k).
Proof.
  intros Hlt Hk s l.
  destruct (lookup_lt_is_Some_2 fs this Hlt) as [self Hself].
  unfold mbind, Stateful.M_bind, Stateful.bind, Stateful.get_filter. simpl.
  rewrite Hself. by apply Hk.
Qed.

Lemma stateful_completes_try_catch fs (m : M unit) :
  Stateful.completes fs m →
  Stateful.completes fs (Stateful.try_catch_runtime_error m).
Proof.
  intros Hm s l. destruct (Hm s l) as (c & s' & l' & Hrun & Hc).
  exists (match c with Thrown (runtime_error _) => Returned tt | _ => c end),
         s', l'.
  unfold Stateful.try_catch_runtime_error. rewrite Hrun.
  split; [by destruct c as [[]|[]|]|].
  intros why. specialize (Hc why). by destruct c as [[]|[]|].
Qed.

Lemma stateful_completes_for_each {A} fs (f : A → M unit) (l : list A) :
  (∀ x, x ∈ l → Stateful.completes fs (f x)) →
  Stateful.completes fs (Stateful.for_each f l).
Proof.
  induction l as [|x l IH]; intros Hf; simpl.
  - apply stateful_completes_ret.
  - apply stateful_completes_bind.
    + apply Hf. by left.
    + intros _. apply IH. intros y Hy. apply Hf. by right.
Qed.

Lemma stateful_completes_frame_handled_with fs
    (parse : nat → view → M unit) c v :
  Stateful.wf_filters fs → c < length fs →
  (∀ c', c < c' → c' < length fs → Stateful.completes fs (parse c' v)) →
  Stateful.completes fs (Stateful.frame_handled_with parse c v).
Proof.
  intros Hwf Hc Hparse. unfold Stateful.frame_handled_with.
  apply stateful_completes_get_filter_bind; [done|]. intros self Hself.
  apply stateful_completes_for_each. intros cb Hcb.
  unfold Stateful.call_callback. apply stateful_completes_bind.
  - intros s l. by exists (Returned tt), s, (l ++ [Stateful.Invoked c cb v]).
  - intros _. destruct cb as [name body|c'].
    + intros s l. unfold Stateful.call_observer. simpl.
      destruct (body v s) as [[e|] s'].
      * by exists (Thrown e), s', l.
      * by exists (Returned tt), s', l.
    + destruct (Hwf c self c' Hself Hcb) as (Hlt & g & Hg & _).
      apply Hparse; [done|]. by eapply lookup_lt_Some.
Qed.

Lemma stateful_completes_frame_parse fs (T : frame_type) buf
    (k : view → M unit) :
  (∀ v, Stateful.completes fs (k v)) →
  Stateful.completes fs (Stateful.lift (frame_parse T buf) ≫= k).
Proof.
  intros Hk. apply stateful_completes_bind; [|done].
  intros s l. exists (frame_parse T buf), s, l. split; [done|].
  apply frame_parse_not_stuck.
Qed.

Lemma stateful_completes_filter_parse fs fuel c pv :
  Stateful.wf_filters fs → c < length fs → length fs ≤ fuel + c →
  Stateful.completes fs (Stateful.filter_parse fuel c pv).
Proof.
  intros Hwf. revert c pv.
  induction fuel as [|fuel IH]; intros c pv Hc Hfuel; [lia|]. simpl.
  apply stateful_completes_get_filter_bind; [done|]. intros self Hself.
  destruct (frame_parent_match _ _); [|apply stateful_completes_ret].
  apply stateful_completes_try_catch, stateful_completes_frame_parse.
  intros v. apply stateful_completes_frame_handled_with; [done..|].
  intros c' Hlt Hc'. apply IH; [done|lia].
Qed.

Lemma stateful_completes_parse fs c buf :
  Stateful.wf_filters fs → c < length fs →
  Stateful.completes fs (Stateful.root_parse (length fs) c buf).
Proof.
  intros Hwf Hc. unfold Stateful.root_parse.
  apply stateful_completes_get_filter_bind; [done|]. intros self Hself.
  apply stateful_completes_try_catch, stateful_completes_frame_parse.
  intros v. apply stateful_completes_frame_handled_with; [done..|].
  intros c' Hlt Hc'. apply stateful_completes_filter_parse; [done..|lia].
Qed.

(** C9, as the code has it. The observers may keep state between calls.
    When the completion of every registered observer (whether it returns
    or throws, and what it throws) depends on the view it is given only,
    two successive submissions of the same buffer to the root of the same
    filter tree complete in the same way and append the same sequence of
    invocations to the log: the same callbacks, from the same registries,
    in the same order, on the same views; the state of the observers may
    differ. In a well-formed tree both submissions complete. *)
Theorem parse_twice_same_invocations fs (s : memory)
    (l : list (Stateful.event frame_type memory))
    (this : nat) (buf : const_buffer) :
  Stateful.completion_stateless fs →
  ∃ c t s1 s2,
    Stateful.parse this buf (Stateful.World fs s l)
      = (c, Stateful.World fs s1 (l ++ t)) ∧
    Stateful.parse this buf (Stateful.World fs s1 (l ++ t))
      = (c, Stateful.World fs s2 ((l ++ t) ++ t)) ∧
    (Stateful.wf_filters fs → this < length fs → ∀ why, c ≠ Stuck why).
Proof.
  intros Hfs.
  destruct (repeatable_root_parse fs (length fs) this buf Hfs s l s l)
    as (c & t & s1 & _ & Hfirst & _).
  destruct (repeatable_root_parse fs (length fs) this buf Hfs
              s l s1 (l ++ t))
    as (c' & t' & s1' & s2 & Hfirst' & Hsecond).
  rewrite Hfirst in Hfirst'. injection Hfirst' as <- <- Ht.
  apply app_inv_head in Ht. subst t'.
  exists c, t, s1, s2. unfold Stateful.parse. simpl.
  split; [exact Hfirst|]. split; [exact Hsecond|].
  intros Hwf Hthis why.
  destruct (stateful_completes_parse fs this buf Hwf Hthis s l)
    as (c0 & s0 & l0 & Hrun & Hc0).
  rewrite Hfirst in Hrun. injection Hrun as <- _ _. apply Hc0.
Qed.
End Resubmission.

(** Two observers that count their invocations: the completion of each
    does not depend on the count. Two submissions of [nested_buffer] make
    the same three invocations; the count goes from 0 to 2 and then to 4. *)
Lemma parse_twice_same_invocations_witness :
  ∃ c t,
    Stateful.parse 0 nested_buffer
      (Stateful.World Stateful.counting_filters 0 [])
      = (c, Stateful.World Stateful.counting_filters 2 t) ∧
    Stateful.parse 0 nested_buffer
      (Stateful.World Stateful.counting_filters 2 t)
      = (c, Stateful.World Stateful.counting_filters 4 (t ++ t)) ∧
    length t = 3 ∧
    ∀ why, c ≠ Stuck why.
Proof.
  destruct (parse_twice_same_invocations Stateful.counting_filters 0 []
              0 nested_buffer)
    as (c & t & s1 & s2 & Hfirst & Hsecond & Hcompletes).
  - intros i g name body v s s' Hi Hin.
    destruct i as [|[|i]]; simpl in Hi; try done;
      injection Hi as <-; simpl in Hin;
      repeat (apply elem_of_cons in Hin as [Hin|Hin];
              [try done; by injection Hin as _ ->|]);
      by apply elem_of_nil in Hin.
  - simpl in Hfirst, Hsecond.
    assert (Hrun : Stateful.parse 0 nested_buffer
                     (Stateful.World Stateful.counting_filters 0 [])
                   = (Returned tt,
                      Stateful.World Stateful.counting_filters 2
                        [Stateful.Invoked 0 (Stateful.counting 1) link_view;
                         Stateful.Invoked 0 (Stateful.BoundParse 1) link_view;
                         Stateful.Invoked 1 (Stateful.counting 2) net_view]))
      by reflexivity.
    rewrite Hrun in Hfirst. injection Hfirst as <- <- <-.
    assert (Hrun2 : Stateful.parse 0 nested_buffer
                     (Stateful.World Stateful.counting_filters 2
                        [Stateful.Invoked 0 (Stateful.counting 1) link_view;
                         Stateful.Invoked 0 (Stateful.BoundParse 1) link_view;
                         Stateful.Invoked 1 (Stateful.counting 2) net_view])
                   = (Returned tt,
                      Stateful.World Stateful.counting_filters 4
                        ([Stateful.Invoked 0 (Stateful.counting 1) link_view;
                          Stateful.Invoked 0 (Stateful.BoundParse 1) link_view;
                          Stateful.Invoked 1 (Stateful.counting 2) net_view] ++
                         [Stateful.Invoked 0 (Stateful.counting 1) link_view;
                          Stateful.Invoked 0 (Stateful.BoundParse 1) link_view;
                          Stateful.Invoked 1 (Stateful.counting 2) net_view])))
      by reflexivity.
    eexists _, _. split; [exact Hrun|]. split; [exact Hrun2|].
    split; [reflexivity|]. apply Hcompletes.
    + intros i f c Hi Hin.
      destruct i as [|[|i]]; simpl in Hi; try done;
        injection Hi as <-; simpl in Hin;
        repeat (apply elem_of_cons in Hin as [Hin|Hin]; [try done|]);
        try (by apply elem_of_nil in Hin);
        injection Hin as ->; (split; [lia|eexists; split; reflexivity]).
    + cbv; lia.
Defined.

(** C9 fails as stated. The root has two observers; the first throws a
    [std::runtime_error] at its first call and returns at the later ones,
    as a function object with a flag does. The first submission of
    [nested_buffer] invokes the first observer only: its exception ends
    the dispatch and is caught by [parse]. The second submission, of the
    same buffer to the same tree with the same observers, invokes both. *)
Lemma parse_twice_same_invocations_counterexample :
  Stateful.parse 0 nested_buffer
    (Stateful.World Stateful.throwing_once_filters false [])
    = (Returned tt,
       Stateful.World Stateful.throwing_once_filters true
         [Stateful.Invoked 0
            (Stateful.throwing_once 1 (runtime_error "boom")) link_view]) ∧
  Stateful.parse 0 nested_buffer
    (Stateful.World Stateful.throwing_once_filters true [])
    = (Returned tt,
       Stateful.World Stateful.throwing_once_filters true
         [Stateful.Invoked 0
            (Stateful.throwing_once 1 (runtime_error "boom")) link_view;
          Stateful.Invoked 0 (Stateful.quiet 2) link_view]) ∧
  Stateful.log
    (Stateful.parse 0 nested_buffer
       (Stateful.World Stateful.throwing_once_filters false [])).2
  ≠ Stateful.log
      (Stateful.parse 0 nested_buffer
         (Stateful.World Stateful.throwing_once_filters true [])).2.
Proof.
  split; [reflexivity|]. split; [reflexivity|]. discriminate.
Qed.

(** ** The engine, and the engine with state *)

Section SameEngine.
Context {frame_type memory : Type} `{OSIFrameType frame_type}.

Abbreviation M := (M frame_type).
Abbreviation M' := (Stateful.M frame_type memory).
Abbreviation view := (const_helper frame_type).

Lemma same_engine_ret {A} (a : A) :
  same_engine (mret a : M A) (mret a : M' A).
Proof. by intros s w. Qed.

Lemma same_engine_lift {A} (c : completion A) :
  same_engine (lift c : M A) (Stateful.lift c : M' A).
Proof. by intros s w. Qed.

Lemma same_engine_bind {A B} (m : M A) (m' : M' A)
    (k : A → M B) (k' : A → M' B) :
  same_engine m m' → (∀ a, same_engine (k a) (k' a)) →
  same_engine (m ≫= k) (m' ≫= k').
Proof.
  intros Hm Hk s w.
  unfold mbind, M_bind, Stateful.M_bind, bind, Stateful.bind. rewrite Hm.
  destruct (m w) as [[a|e|why] w1]; simpl; [apply Hk|done|done].
Qed.

Lemma same_engine_get_filter_bind {B} (this : nat)
    (k : filter_object frame_type → M B)
    (k' : Stateful.filter_object frame_type memory → M' B) :
  (∀ self, same_engine (k self) (k' (filter_with_state self))) →
  same_engine (get_filter this ≫= k) (Stateful.get_filter this ≫= k').
Proof.
  intros Hk s w.
  unfold mbind, M_bind, Stateful.M_bind, bind, Stateful.bind,
    get_filter, Stateful.get_filter.
  simpl. rewrite list_lookup_fmap.
  destruct (filters w !! this) as [self|]; simpl; [apply Hk|done].
Qed.

Lemma same_engine_try_catch (m : M unit) (m' : M' unit) :
  same_engine m m' →
  same_engine (try_catch_runtime_error m)
              (Stateful.try_catch_runtime_error m').
Proof.
  intros Hm s w.
  unfold try_catch_runtime_error, Stateful.try_catch_runtime_error.
  rewrite Hm. by destruct (m w) as [[[]|[]|] w1].
Qed.

Lemma same_engine_for_each {A A'} (g : A → A') (f : A → M unit)
    (f' : A' → M' unit) (l : list A) :
  (∀ x, same_engine (f x) (f' (g x))) →
  same_engine (for_each f l) (Stateful.for_each f' (g <$> l)).
Proof.
  intros Hf. induction l as [|x l IH]; simpl.
  - apply same_engine_ret.
  - apply same_engine_bind; [apply Hf|]. intros _. apply IH.
Qed.

Lemma same_engine_call_callback (parse : nat → view → M unit)
    (parse' : nat → view → M' unit) owner v cb :
  (∀ c, same_engine (parse c v) (parse' c v)) →
  same_engine (call_callback parse owner v cb)
              (Stateful.call_callback parse' owner v (with_state cb)).
Proof.
  intros Hparse. unfold call_callback, Stateful.call_callback.
  apply same_engine_bind.
  - intros s w. unfold log_event, Stateful.log_event, world_with_state.
    simpl. by rewrite fmap_app.
  - intros _. destruct cb as [name body|c]; simpl; [|apply Hparse].
    intros s w. unfold Stateful.call_observer. simpl.
    by destruct (body v).
Qed.

Lemma same_engine_frame_handled_with (parse : nat → view → M unit)
    (parse' : nat → view → M' unit) this v :
  (∀ c, same_engine (parse c v) (parse' c v)) →
  same_engine (frame_handled_with parse this v)
              (Stateful.frame_handled_with parse' this v).
Proof.
  intros Hparse. unfold frame_handled_with, Stateful.frame_handled_with.
  apply same_engine_get_filter_bind. intros self. simpl.
  apply same_engine_for_each. intros cb.
  by apply same_engine_call_callback.
Qed.

Lemma same_engine_filter_parse fuel this pv :
  same_engine (filter_parse fuel this pv)
              (Stateful.filter_parse fuel this pv : M' unit).
Proof.
  revert this pv. induction fuel as [|fuel IH]; intros this pv; simpl.
  - apply same_engine_lift.
  - apply same_engine_get_filter_bind. intros self. simpl.
    destruct (frame_parent_match _ _); [|apply same_engine_ret].
    apply same_engine_try_catch, same_engine_bind; [apply same_engine_lift|].
    intros v. apply same_engine_frame_handled_with. intros c. apply IH.
Qed.

Lemma same_engine_root_parse fuel this buf :
  same_engine (root_parse fuel this buf)
              (Stateful.root_parse fuel this buf : M' unit).
Proof.
  unfold root_parse, Stateful.root_parse.
  apply same_engine_get_filter_bind. intros self. simpl.
  apply same_engine_try_catch, same_engine_bind; [apply same_engine_lift|].
  intros v. apply same_engine_frame_handled_with. intros c.
  apply same_engine_filter_parse.
Qed.

(** Run on observers that leave the state alone, the engine with state
    does what the engine does. *)
Lemma same_engine_parse this buf :
  same_engine (parse this buf) (Stateful.parse this buf : M' unit).
Proof.
  intros s w. unfold parse, Stateful.parse. simpl. rewrite length_fmap.
  apply same_engine_root_parse.
Qed.
End SameEngine.
